(** * Random Universe Cipher: a shallow embedding of the reference algorithms

    Bytes, 16-bit selectors, 512-bit registers and the 1024-bit accumulator
    are integers in [Z]; every truncation the reference performs ([& 0xFF],
    [mod 2^1024], ...) is written out.  Byte arrays are [list Z]. *)

From Stdlib Require Import String Ascii ZArith List Lia Bool Arith Permutation.
Import ListNotations.
Local Open Scope Z_scope.

(** ** Ranges and bounded quantification *)

Definition is_byte (b : Z) : Prop := 0 <= b < 256.

Definition Zrange (lo : Z) (n : nat) : list Z :=
  map (fun k => lo + Z.of_nat k) (seq 0 n).

Lemma Zrange_In (lo : Z) (n : nat) (x : Z) :
  lo <= x < lo + Z.of_nat n -> In x (Zrange lo n).
Proof.
  intros H. unfold Zrange. apply in_map_iff.
  exists (Z.to_nat (x - lo)). split; [lia|].
  apply in_seq. lia.
Qed.

Lemma Zrange_forallb (P : Z -> bool) (lo : Z) (n : nat) :
  forallb P (Zrange lo n) = true ->
  forall x, lo <= x < lo + Z.of_nat n -> P x = true.
Proof.
  intros H x Hx. rewrite forallb_forall in H. apply H, Zrange_In, Hx.
Qed.

Definition all_bytes : list Z := Zrange 0 256.

Lemma all_bytes_forallb (P : Z -> bool) :
  forallb P all_bytes = true -> forall x, is_byte x -> P x = true.
Proof.
  intros H x Hx. apply (Zrange_forallb P 0 256 H). unfold is_byte in Hx. lia.
Qed.

Lemma all_bytes_forallb2 (P : Z -> Z -> bool) :
  forallb (fun a => forallb (P a) all_bytes) all_bytes = true ->
  forall a b, is_byte a -> is_byte b -> P a b = true.
Proof.
  intros H a b Ha Hb.
  apply (all_bytes_forallb (P a)); [|exact Hb].
  apply (all_bytes_forallb (fun a => forallb (P a) all_bytes) H a Ha).
Qed.

(** ** GF(2^8) arithmetic (README, "Algorithm: GF(2^8) Multiplication") *)

Module GF.

(** Polynomial constant: reduced form of x^8 + x^4 + x^3 + x + 1. *)
Definition POLY : Z := 0x1B.

(** One pass of the body of [FOR i FROM 0 TO 7]; the loop state is
    [(a, b, result)]. *)
Definition GF_MUL_step (st : Z * Z * Z) : Z * Z * Z :=
  let '(a, b, result) := st in
  let result := if Z.land b 1 =? 0 then result else Z.lxor result a in
  let high_bit := Z.land a 0x80 in
  let a := Z.land (Z.shiftl a 1) 0xFF in
  let a := if high_bit =? 0 then a else Z.lxor a POLY in
  let b := Z.shiftr b 1 in
  (a, b, result).

Definition GF_MUL (a b : Z) : Z :=
  let '(_, _, result) := Nat.iter 8 GF_MUL_step (a, b, 0) in result.

(** Modelled from the spec: gf-math.ts is not part of the tree, and the spec
    names [gf_pow] only through the law gf_pow(x,255)=1; the exponentiation is
    the n-fold product, gf_pow(a,0)=1 and gf_pow(a,1)=a as the tests of
    sbox.test.ts expect. *)
Fixpoint gf_pow (a : Z) (n : nat) : Z :=
  match n with
  | O => 1
  | S n' => GF_MUL (gf_pow a n') a
  end.

(** README, "Algorithm: GF Multiply Register (Byte-wise)": the 64 bytes of a
    512-bit register, most significant first. *)
Definition GF_MUL_REGISTER (R multiplier : Z) : Z :=
  fold_left
    (fun result i =>
       let shift := 8 * (63 - i) in
       let byte_i := Z.land (Z.shiftr R shift) 0xFF in
       let product := GF_MUL byte_i multiplier in
       Z.lor result (Z.shiftl product shift))
    (Zrange 0 64) 0.

(** Known AES products used as test vectors by the repository. *)
Example GF_MUL_aes_57_83 : GF_MUL 0x57 0x83 = 0xc1.
Proof. reflexivity. Qed.

Example GF_MUL_aes_02_87 : GF_MUL 0x02 0x87 = 0x15.
Proof. reflexivity. Qed.

Example GF_MUL_aes_03_6e : GF_MUL 0x03 0x6e = 0xb2.
Proof. reflexivity. Qed.

Example GF_MUL_REGISTER_by_2 :
  GF_MUL_REGISTER 0x0101010101010101 2 = 0x0202020202020202.
Proof. reflexivity. Qed.

(** *** Discrete logarithms to the base 3 *)

Fixpoint powers (n : nat) (x : Z) : list Z :=
  match n with
  | O => []
  | S n' => x :: powers n' (GF_MUL 3 x)
  end.

Definition exp_table : list Z := Eval vm_compute in powers 255 1.

Definition gf_exp (k : nat) : Z := nth k exp_table 0.

Fixpoint index_of (x : Z) (l : list Z) : nat :=
  match l with
  | [] => O
  | y :: l' => if x =? y then O else S (index_of x l')
  end.

Definition gf_log (a : Z) : nat := index_of a exp_table.

(** *** Laws of the multiplication *)

Lemma GF_MUL_one_r (x : Z) : is_byte x -> GF_MUL x 1 = x.
Proof.
  intros Hx. apply Z.eqb_eq.
  apply (all_bytes_forallb (fun x => GF_MUL x 1 =? x)); [vm_compute; reflexivity|exact Hx].
Qed.

Lemma GF_MUL_zero_r (x : Z) : is_byte x -> GF_MUL x 0 = 0.
Proof.
  intros Hx. apply Z.eqb_eq.
  apply (all_bytes_forallb (fun x => GF_MUL x 0 =? 0)); [vm_compute; reflexivity|exact Hx].
Qed.

Lemma GF_MUL_zero_l (x : Z) : is_byte x -> GF_MUL 0 x = 0.
Proof.
  intros Hx. apply Z.eqb_eq.
  apply (all_bytes_forallb (fun x => GF_MUL 0 x =? 0)); [vm_compute; reflexivity|exact Hx].
Qed.

Lemma gf_exp_log (a : Z) :
  1 <= a < 256 -> gf_exp (gf_log a) = a /\ (gf_log a < 255)%nat.
Proof.
  intros Ha.
  assert (H : ((gf_exp (gf_log a) =? a) && (gf_log a <? 255)%nat)%bool = true).
  { apply (Zrange_forallb
             (fun a => ((gf_exp (gf_log a) =? a) && (gf_log a <? 255)%nat)%bool) 1 255);
      [vm_compute; reflexivity|lia]. }
  apply andb_prop in H. destruct H as [H1 H2].
  split; [apply Z.eqb_eq, H1|apply Nat.ltb_lt, H2].
Qed.

Lemma gf_exp_range (k : nat) : (k < 255)%nat -> 1 <= gf_exp k < 256.
Proof.
  intros Hk.
  assert (H : forallb (fun k => (1 <=? gf_exp k) && (gf_exp k <? 256)) (seq 0 255)
              = true) by (vm_compute; reflexivity).
  rewrite forallb_forall in H. specialize (H k ltac:(apply in_seq; lia)).
  apply andb_prop in H. lia.
Qed.

(** The one check over all pairs: the product of two powers of 3 is the power
    with the sum of the exponents. *)
Lemma gf_exp_mul (i j : nat) :
  (i < 255)%nat -> (j < 255)%nat ->
  GF_MUL (gf_exp i) (gf_exp j) = gf_exp ((i + j) mod 255).
Proof.
  intros Hi Hj. apply Z.eqb_eq.
  assert (H : forallb
                (fun i => forallb
                   (fun j => GF_MUL (gf_exp i) (gf_exp j) =? gf_exp ((i + j) mod 255))
                   (seq 0 255)) (seq 0 255) = true)
    by (vm_compute; reflexivity).
  rewrite forallb_forall in H.
  specialize (H i). rewrite forallb_forall in H.
  apply H; apply in_seq; lia.
Qed.

Lemma mod_255_lt (n : nat) : (n mod 255 < 255)%nat.
Proof. apply Nat.mod_upper_bound. lia. Qed.

Lemma GF_MUL_comm (a b : Z) : is_byte a -> is_byte b -> GF_MUL a b = GF_MUL b a.
Proof.
  intros Ha Hb.
  destruct (Z.eq_dec a 0) as [->|Na].
  { rewrite GF_MUL_zero_l, GF_MUL_zero_r; auto. }
  destruct (Z.eq_dec b 0) as [->|Nb].
  { rewrite GF_MUL_zero_l, GF_MUL_zero_r; auto. }
  unfold is_byte in *.
  destruct (gf_exp_log a ltac:(lia)) as [Ea La].
  destruct (gf_exp_log b ltac:(lia)) as [Eb Lb].
  rewrite <- Ea, <- Eb, !gf_exp_mul by assumption.
  f_equal. f_equal. lia.
Qed.

Lemma GF_MUL_byte (a b : Z) : is_byte a -> is_byte b -> is_byte (GF_MUL a b).
Proof.
  intros Ha Hb.
  destruct (Z.eq_dec a 0) as [->|Na].
  { rewrite GF_MUL_zero_l by exact Hb. unfold is_byte. lia. }
  destruct (Z.eq_dec b 0) as [->|Nb].
  { rewrite GF_MUL_zero_r by exact Ha. unfold is_byte. lia. }
  unfold is_byte in *.
  destruct (gf_exp_log a ltac:(lia)) as [Ea La].
  destruct (gf_exp_log b ltac:(lia)) as [Eb Lb].
  rewrite <- Ea, <- Eb, gf_exp_mul by assumption.
  pose proof (gf_exp_range _ (mod_255_lt (gf_log a + gf_log b))). lia.
Qed.

Lemma GF_MUL_assoc_nonzero (a b c : Z) :
  1 <= a < 256 -> 1 <= b < 256 -> 1 <= c < 256 ->
  GF_MUL (GF_MUL a b) c = GF_MUL a (GF_MUL b c).
Proof.
  intros Ha Hb Hc.
  destruct (gf_exp_log a Ha) as [Ea La].
  destruct (gf_exp_log b Hb) as [Eb Lb].
  destruct (gf_exp_log c Hc) as [Ec Lc].
  rewrite <- Ea, <- Eb, <- Ec.
  rewrite (gf_exp_mul _ _ La Lb), (gf_exp_mul _ _ Lb Lc).
  rewrite (gf_exp_mul _ _ (mod_255_lt _) Lc), (gf_exp_mul _ _ La (mod_255_lt _)).
  f_equal.
  rewrite Nat.Div0.add_mod_idemp_l, Nat.Div0.add_mod_idemp_r.
  f_equal. lia.
Qed.

Lemma GF_MUL_assoc (a b c : Z) :
  is_byte a -> is_byte b -> is_byte c ->
  GF_MUL (GF_MUL a b) c = GF_MUL a (GF_MUL b c).
Proof.
  intros Ha Hb Hc.
  destruct (Z.eq_dec a 0) as [->|Na].
  { rewrite !GF_MUL_zero_l; auto using GF_MUL_byte. }
  destruct (Z.eq_dec b 0) as [->|Nb].
  { rewrite GF_MUL_zero_r, !GF_MUL_zero_l, GF_MUL_zero_r; auto. }
  destruct (Z.eq_dec c 0) as [->|Nc].
  { rewrite !GF_MUL_zero_r; auto using GF_MUL_byte. }
  unfold is_byte in *. apply GF_MUL_assoc_nonzero; lia.
Qed.

Lemma gf_pow_exp (i n : nat) :
  (i < 255)%nat -> gf_pow (gf_exp i) n = gf_exp ((i * n) mod 255).
Proof.
  intros Hi. induction n as [|n IH]; cbn [gf_pow].
  - rewrite Nat.mul_0_r. reflexivity.
  - rewrite IH, gf_exp_mul by (auto using mod_255_lt).
    rewrite Nat.Div0.add_mod_idemp_l. f_equal. f_equal. lia.
Qed.

Lemma gf_pow_fermat (x : Z) : 1 <= x < 256 -> gf_pow x 255 = 1.
Proof.
  intros Hx. destruct (gf_exp_log x Hx) as [E L].
  rewrite <- E, gf_pow_exp by exact L.
  rewrite Nat.Div0.mod_mul. reflexivity.
Qed.

(** C7: over bytes, [GF_MUL] has 1 as identity and 0 as absorbing element, is
    commutative and associative, and every non-zero byte raised to the power
    255 gives 1. *)
Theorem GF_MUL_field_laws (x a b c : Z) :
  is_byte x -> is_byte a -> is_byte b -> is_byte c ->
  GF_MUL x 1 = x /\
  GF_MUL x 0 = 0 /\
  GF_MUL a b = GF_MUL b a /\
  GF_MUL (GF_MUL a b) c = GF_MUL a (GF_MUL b c) /\
  (x <> 0 -> gf_pow x 255 = 1).
Proof.
  intros Hx Ha Hb Hc.
  split; [apply GF_MUL_one_r, Hx|].
  split; [apply GF_MUL_zero_r, Hx|].
  split; [apply GF_MUL_comm; assumption|].
  split; [apply GF_MUL_assoc; assumption|].
  intros Nx. apply gf_pow_fermat. unfold is_byte in Hx. lia.
Qed.

Lemma GF_MUL_field_laws_witness :
  GF_MUL 0x57 1 = 0x57 /\
  GF_MUL 0x57 0 = 0 /\
  GF_MUL 0x57 0x83 = GF_MUL 0x83 0x57 /\
  GF_MUL (GF_MUL 0x57 0x83) 0x13 = GF_MUL 0x57 (GF_MUL 0x83 0x13) /\
  (0x57 <> 0 -> gf_pow 0x57 255 = 1).
Proof.
  apply (GF_MUL_field_laws 0x57 0x57 0x83 0x13); unfold is_byte; lia.
Defined.

End GF.

(** ** Text encodings of byte arrays (cipher/index.ts, bytesToBase64 .. hexToBytes) *)

Module Encoding.

(** [String.fromCharCode] and [charCodeAt] on the code units 0..255 that a
    [Uint8Array] element can hold. *)
Definition fromCharCode (b : Z) : ascii := ascii_of_N (Z.to_N b).
Definition charCode (c : ascii) : Z := Z.of_N (N_of_ascii c).

Fixpoint binary_of_bytes (bytes : list Z) : string :=
  match bytes with
  | [] => EmptyString
  | b :: rest => String (fromCharCode b) (binary_of_bytes rest)
  end.

Fixpoint bytes_of_binary (binary : string) : list Z :=
  match binary with
  | EmptyString => []
  | String c rest => charCode c :: bytes_of_binary rest
  end.

(** *** The platform's [btoa] and [atob] (RFC 4648 alphabet, forgiving decode) *)

Definition alphabet : list ascii :=
  list_ascii_of_string
    "ABCDEFGHIJKLMNOPQRSTUVWXYZabcdefghijklmnopqrstuvwxyz0123456789+/".

Definition sextet_char (s : Z) : ascii := nth (Z.to_nat s) alphabet "="%char.

Fixpoint find_char (c : ascii) (l : list ascii) (k : Z) : option Z :=
  match l with
  | [] => None
  | d :: l' => if Ascii.eqb c d then Some k else find_char c l' (k + 1)
  end.

Definition char_sextet (c : ascii) : option Z := find_char c alphabet 0.

Fixpoint btoa_codes (l : list Z) : list ascii :=
  match l with
  | a :: b :: c :: rest =>
      sextet_char (Z.shiftr a 2)
      :: sextet_char (Z.lor (Z.shiftl (Z.land a 3) 4) (Z.shiftr b 4))
      :: sextet_char (Z.lor (Z.shiftl (Z.land b 15) 2) (Z.shiftr c 6))
      :: sextet_char (Z.land c 63)
      :: btoa_codes rest
  | [a; b] =>
      [sextet_char (Z.shiftr a 2);
       sextet_char (Z.lor (Z.shiftl (Z.land a 3) 4) (Z.shiftr b 4));
       sextet_char (Z.shiftl (Z.land b 15) 2);
       "="%char]
  | [a] =>
      [sextet_char (Z.shiftr a 2);
       sextet_char (Z.shiftl (Z.land a 3) 4);
       "="%char; "="%char]
  | [] => []
  end.

Definition btoa (binary : string) : string :=
  string_of_list_ascii (btoa_codes (bytes_of_binary binary)).

Definition is_ascii_whitespace (c : ascii) : bool :=
  let n := N_of_ascii c in
  ((n =? 9) || (n =? 10) || (n =? 12) || (n =? 13) || (n =? 32))%N.

Definition is_pad (c : ascii) : bool := Ascii.eqb c "="%char.

(** "If data's length divides by 4 leaving no remainder and data ends with one
    or two '=', remove them." *)
Fixpoint drop_trailing_pad (data : list ascii) : list ascii :=
  match data with
  | [] => []
  | [p] => if is_pad p then [] else data
  | [p1; p2] => if is_pad p2 then (if is_pad p1 then [] else [p1]) else data
  | c :: rest => c :: drop_trailing_pad rest
  end.

Definition strip_padding (data : list ascii) : list ascii :=
  if (Nat.modulo (length data) 4 =? 0)%nat then drop_trailing_pad data else data.

Fixpoint decode_sextets (l : list ascii) : option (list Z) :=
  match l with
  | c0 :: c1 :: c2 :: c3 :: rest =>
      match char_sextet c0, char_sextet c1, char_sextet c2, char_sextet c3,
            decode_sextets rest with
      | Some s0, Some s1, Some s2, Some s3, Some out =>
          Some (Z.lor (Z.shiftl s0 2) (Z.shiftr s1 4)
                :: Z.lor (Z.shiftl (Z.land s1 15) 4) (Z.shiftr s2 2)
                :: Z.lor (Z.shiftl (Z.land s2 3) 6) s3
                :: out)
      | _, _, _, _, _ => None
      end
  | [c0; c1; c2] =>
      match char_sextet c0, char_sextet c1, char_sextet c2 with
      | Some s0, Some s1, Some s2 =>
          Some [Z.lor (Z.shiftl s0 2) (Z.shiftr s1 4);
                Z.lor (Z.shiftl (Z.land s1 15) 4) (Z.shiftr s2 2)]
      | _, _, _ => None
      end
  | [c0; c1] =>
      match char_sextet c0, char_sextet c1 with
      | Some s0, Some s1 => Some [Z.lor (Z.shiftl s0 2) (Z.shiftr s1 4)]
      | _, _ => None
      end
  | [_] => None
  | [] => Some []
  end.

(** [None] stands for the [InvalidCharacterError] the platform throws. *)
Definition atob (base64 : string) : option string :=
  let data := filter (fun c => negb (is_ascii_whitespace c))
                     (list_ascii_of_string base64) in
  match decode_sextets (strip_padding data) with
  | Some out => Some (binary_of_bytes out)
  | None => None
  end.

(** *** cipher/index.ts *)

Definition bytesToBase64 (bytes : list Z) : string :=
  btoa (binary_of_bytes bytes).

Definition base64ToBytes (base64 : string) : option (list Z) :=
  match atob base64 with
  | Some binary => Some (bytes_of_binary binary)
  | None => None
  end.

(** [Number.prototype.toString(16)] on a non-negative integer. *)
Definition hex_digits : list ascii := list_ascii_of_string "0123456789abcdef".

Definition hex_digit (d : Z) : ascii := nth (Z.to_nat d) hex_digits "0"%char.

Fixpoint toString16_aux (fuel : nat) (n : Z) (acc : string) : string :=
  match fuel with
  | O => acc
  | S fuel' =>
      let acc' := String (hex_digit (n mod 16)) acc in
      if n <? 16 then acc' else toString16_aux fuel' (n / 16) acc'
  end.

Definition toString16 (n : Z) : string :=
  toString16_aux (S (Z.to_nat (Z.log2 n))) n EmptyString.

(** [String.prototype.padStart(targetLength, fill)] with a one-character fill. *)
Definition padStart (s : string) (targetLength : nat) (fill : ascii) : string :=
  (string_of_list_ascii (repeat fill (targetLength - String.length s)) ++ s)%string.

(** [parseInt(s, 16)]: leading white space, an optional sign and an optional
    0x prefix are skipped, then the longest run of hexadecimal digits is read;
    [None] is NaN. *)
Definition hex_value (c : ascii) : option Z :=
  let n := Z.of_N (N_of_ascii c) in
  if (48 <=? n) && (n <=? 57) then Some (n - 48)
  else if (97 <=? n) && (n <=? 102) then Some (n - 87)
  else if (65 <=? n) && (n <=? 70) then Some (n - 55)
  else None.

Fixpoint parse_hex_digits (s : string) (acc : option Z) : option Z :=
  match s with
  | EmptyString => acc
  | String c s' =>
      match hex_value c with
      | Some d =>
          parse_hex_digits s'
            (Some (16 * (match acc with Some a => a | None => 0 end) + d))
      | None => acc
      end
  end.

(** The white space [parseInt] strips from the front, among the code units
    below 256: TAB, LF, VT, FF, CR, SP and NBSP. *)
Fixpoint skip_whitespace (s : string) : string :=
  match s with
  | String c s' =>
      if is_ascii_whitespace c || (N_of_ascii c =? 11)%N || (N_of_ascii c =? 160)%N
      then skip_whitespace s'
      else s
  | EmptyString => s
  end.

Definition skip_0x (s : string) : string :=
  match s with
  | String "0" (String "x" s') => s'
  | String "0" (String "X" s') => s'
  | _ => s
  end.

Definition parseInt16 (s : string) : option Z :=
  match skip_whitespace s with
  | String "-" s' => option_map Z.opp (parse_hex_digits (skip_0x s') None)
  | String "+" s' => parse_hex_digits (skip_0x s') None
  | s' => parse_hex_digits (skip_0x s') None
  end.

(** Storing a number into a [Uint8Array] element. *)
Definition toUint8 (v : option Z) : Z :=
  match v with
  | Some n => n mod 256
  | None => 0
  end.

Definition bytesToHex (bytes : list Z) : string :=
  String.concat EmptyString (map (fun b => padStart (toString16 b) 2 "0"%char) bytes).

(** [new Uint8Array(hex.length / 2)] filled by the loop over [i]; an odd
    length leaves the last digit unread. *)
Definition hexToBytes (hex : string) : list Z :=
  map (fun i => toUint8 (parseInt16 (substring (2 * i) 2 hex)))
      (seq 0 (String.length hex / 2)).

Example bytesToHex_sample : bytesToHex [0; 10; 255; 16] = "000aff10"%string.
Proof. reflexivity. Qed.

Example hexToBytes_sample : hexToBytes "000aFF10"%string = [0; 10; 255; 16].
Proof. reflexivity. Qed.

Example bytesToBase64_hello :
  bytesToBase64 [72; 101; 108; 108; 111] = "SGVsbG8="%string.
Proof. reflexivity. Qed.

Example base64ToBytes_hello :
  base64ToBytes "SGVsbG8="%string = Some [72; 101; 108; 108; 111].
Proof. reflexivity. Qed.

Example base64ToBytes_invalid : base64ToBytes "SGV$"%string = None.
Proof. reflexivity. Qed.

(** *** Round trips *)

Lemma charCode_fromCharCode (b : Z) : is_byte b -> charCode (fromCharCode b) = b.
Proof.
  intros Hb. unfold charCode, fromCharCode, is_byte in *.
  rewrite N_ascii_embedding; lia.
Qed.

Lemma bytes_of_binary_of_bytes (bytes : list Z) :
  Forall is_byte bytes -> bytes_of_binary (binary_of_bytes bytes) = bytes.
Proof.
  induction 1 as [|b rest Hb _ IH]; simpl; [reflexivity|].
  rewrite charCode_fromCharCode, IH; auto.
Qed.

Lemma list_ind3 {A : Type} (P : list A -> Prop) :
  P [] -> (forall a, P [a]) -> (forall a b, P [a; b]) ->
  (forall a b c l, P l -> P (a :: b :: c :: l)) ->
  forall l, P l.
Proof.
  intros H0 H1 H2 H3.
  fix IH 1. intros [|a [|b [|c l]]].
  - exact H0.
  - apply H1.
  - apply H2.
  - apply H3, IH.
Qed.

(** The unpadded part of the output of [btoa]. *)
Fixpoint btoa_body (l : list Z) : list ascii :=
  match l with
  | a :: b :: c :: rest =>
      sextet_char (Z.shiftr a 2)
      :: sextet_char (Z.lor (Z.shiftl (Z.land a 3) 4) (Z.shiftr b 4))
      :: sextet_char (Z.lor (Z.shiftl (Z.land b 15) 2) (Z.shiftr c 6))
      :: sextet_char (Z.land c 63)
      :: btoa_body rest
  | [a; b] =>
      [sextet_char (Z.shiftr a 2);
       sextet_char (Z.lor (Z.shiftl (Z.land a 3) 4) (Z.shiftr b 4));
       sextet_char (Z.shiftl (Z.land b 15) 2)]
  | [a] =>
      [sextet_char (Z.shiftr a 2);
       sextet_char (Z.shiftl (Z.land a 3) 4)]
  | [] => []
  end.

Lemma sextet_char_cases (s : Z) :
  In (sextet_char s) alphabet \/ sextet_char s = "="%char.
Proof.
  unfold sextet_char.
  destruct (nth_in_or_default (Z.to_nat s) alphabet "="%char); auto.
Qed.

Lemma sextet_char_not_ws (s : Z) : is_ascii_whitespace (sextet_char s) = false.
Proof.
  assert (A : forallb (fun c => negb (is_ascii_whitespace c)) alphabet = true)
    by reflexivity.
  rewrite forallb_forall in A.
  destruct (sextet_char_cases s) as [H|H].
  - apply A in H. apply negb_true_iff, H.
  - rewrite H. reflexivity.
Qed.

Lemma char_sextet_sextet_char (s : Z) :
  0 <= s < 64 ->
  char_sextet (sextet_char s) = Some s /\ is_pad (sextet_char s) = false.
Proof.
  intros Hs.
  pose (chk := fun s =>
     match char_sextet (sextet_char s) with
     | Some t => (t =? s) && negb (is_pad (sextet_char s))
     | None => false
     end).
  assert (H : chk s = true).
  { apply (Zrange_forallb chk 0 64); [vm_compute; reflexivity|lia]. }
  unfold chk in H. destruct (char_sextet (sextet_char s)); [|discriminate].
  apply andb_prop in H. destruct H as [H1 H2].
  apply Z.eqb_eq in H1. apply negb_true_iff in H2. subst. auto.
Qed.

Definition sextet (s : Z) : bool := (0 <=? s) && (s <? 64).

Lemma sextet_spec (s : Z) : sextet s = true -> 0 <= s < 64.
Proof. unfold sextet. intros H. apply andb_prop in H. lia. Qed.

(** What one regrouping of bits needs, checked over all pairs of bytes. *)
Definition quantum_hi_ok (a b : Z) : bool :=
  let s0 := Z.shiftr a 2 in
  let s1 := Z.lor (Z.shiftl (Z.land a 3) 4) (Z.shiftr b 4) in
  let t1 := Z.shiftl (Z.land a 3) 4 in
  sextet s0 && sextet s1 && sextet t1
  && (Z.lor (Z.shiftl s0 2) (Z.shiftr s1 4) =? a)
  && (Z.lor (Z.shiftl s0 2) (Z.shiftr t1 4) =? a)
  && (Z.land s1 15 =? Z.shiftr b 4).

Definition quantum_lo_ok (b c : Z) : bool :=
  let s2 := Z.lor (Z.shiftl (Z.land b 15) 2) (Z.shiftr c 6) in
  let t2 := Z.shiftl (Z.land b 15) 2 in
  let s3 := Z.land c 63 in
  sextet s2 && sextet t2 && sextet s3
  && (Z.lor (Z.shiftl (Z.shiftr b 4) 4) (Z.shiftr s2 2) =? b)
  && (Z.lor (Z.shiftl (Z.shiftr b 4) 4) (Z.shiftr t2 2) =? b)
  && (Z.lor (Z.shiftl (Z.land s2 3) 6) s3 =? c).

Lemma quantum_hi (a b : Z) : is_byte a -> is_byte b -> quantum_hi_ok a b = true.
Proof. apply (all_bytes_forallb2 quantum_hi_ok). vm_compute. reflexivity. Qed.

Lemma quantum_lo (b c : Z) : is_byte b -> is_byte c -> quantum_lo_ok b c = true.
Proof. apply (all_bytes_forallb2 quantum_lo_ok). vm_compute. reflexivity. Qed.

Ltac split_andb :=
  repeat match goal with
         | X : andb _ _ = true |- _ => apply andb_prop in X; destruct X
         end;
  repeat match goal with
         | X : sextet _ = true |- _ => apply sextet_spec in X
         | X : (_ =? _) = true |- _ => apply Z.eqb_eq in X
         end.

Ltac rewrite_sextets :=
  repeat match goal with
         | Hs : 0 <= ?s < 64 |- context [char_sextet (sextet_char ?s)] =>
             rewrite (proj1 (char_sextet_sextet_char s Hs))
         end.

Lemma decode_sextets_btoa_body (l : list Z) :
  Forall is_byte l -> decode_sextets (btoa_body l) = Some l.
Proof.
  induction l as [|a|a b|a b c rest IH] using list_ind3; intros Hl.
  - reflexivity.
  - inversion_clear Hl as [|? ? Ha _].
    pose proof (quantum_hi a a Ha Ha) as Q. unfold quantum_hi_ok in Q.
    cbv zeta in Q. split_andb.
    cbn [btoa_body decode_sextets].
    rewrite_sextets.
    congruence.
  - inversion_clear Hl as [|? ? Ha Hl']. inversion_clear Hl' as [|? ? Hb _].
    pose proof (quantum_hi a b Ha Hb) as Q. unfold quantum_hi_ok in Q.
    pose proof (quantum_lo b b Hb Hb) as Q'. unfold quantum_lo_ok in Q'.
    cbv zeta in Q, Q'. split_andb.
    cbn [btoa_body decode_sextets].
    rewrite_sextets.
    congruence.
  - inversion_clear Hl as [|? ? Ha Hl']. inversion_clear Hl' as [|? ? Hb Hl''].
    inversion_clear Hl'' as [|? ? Hc Hrest].
    pose proof (quantum_hi a b Ha Hb) as Q. unfold quantum_hi_ok in Q.
    pose proof (quantum_lo b c Hb Hc) as Q'. unfold quantum_lo_ok in Q'.
    cbv zeta in Q, Q'. split_andb.
    cbn [btoa_body decode_sextets].
    rewrite_sextets.
    rewrite (IH Hrest). congruence.
Qed.

Lemma btoa_codes_no_whitespace (l : list Z) :
  filter (fun c => negb (is_ascii_whitespace c)) (btoa_codes l) = btoa_codes l.
Proof.
  assert (P : is_ascii_whitespace "="%char = false) by reflexivity.
  induction l as [|a|a b|a b c rest IH] using list_ind3;
    cbn [btoa_codes filter]; rewrite ?sextet_char_not_ws, ?P; cbn [negb];
    rewrite ?IH; reflexivity.
Qed.

Lemma btoa_codes_length (l : list Z) : (length (btoa_codes l) mod 4 = 0)%nat.
Proof.
  induction l as [|a|a b|a b c rest IH] using list_ind3; try reflexivity.
  cbn [btoa_codes length].
  replace (S (S (S (S (length (btoa_codes rest))))))
    with (length (btoa_codes rest) + 1 * 4)%nat by lia.
  rewrite Nat.Div0.mod_add. exact IH.
Qed.

Lemma btoa_codes_shape (l : list Z) :
  l <> [] -> exists y0 y1 y2 y3 M, btoa_codes l = y0 :: y1 :: y2 :: y3 :: M.
Proof.
  destruct l as [|a [|b [|c rest]]]; [congruence|..]; intros _;
    cbn [btoa_codes]; eauto 6.
Qed.

Lemma drop_trailing_pad_btoa_codes (l : list Z) :
  Forall is_byte l -> drop_trailing_pad (btoa_codes l) = btoa_body l.
Proof.
  induction l as [|a|a b|a b c rest IH] using list_ind3; intros Hl.
  - reflexivity.
  - inversion_clear Hl as [|? ? Ha _].
    pose proof (quantum_hi a a Ha Ha) as Q. unfold quantum_hi_ok in Q.
    cbv zeta in Q. split_andb. reflexivity.
  - inversion_clear Hl as [|? ? Ha Hl']. inversion_clear Hl' as [|? ? Hb _].
    pose proof (quantum_lo b b Hb Hb) as Q. unfold quantum_lo_ok in Q.
    cbv zeta in Q. split_andb.
    cbn [btoa_codes btoa_body drop_trailing_pad].
    change (is_pad "=") with true. cbv iota.
    match goal with
    | Hs : 0 <= ?s < 64 |- context [is_pad (sextet_char ?s)] =>
        rewrite (proj2 (char_sextet_sextet_char s Hs))
    end.
    reflexivity.
  - inversion_clear Hl as [|? ? Ha Hl']. inversion_clear Hl' as [|? ? Hb Hl''].
    inversion_clear Hl'' as [|? ? Hc Hrest].
    cbn [btoa_codes btoa_body]. rewrite <- (IH Hrest).
    destruct rest as [|r rest'].
    + pose proof (quantum_lo b c Hb Hc) as Q. unfold quantum_lo_ok in Q.
      cbv zeta in Q. split_andb.
      cbn [btoa_codes drop_trailing_pad].
      match goal with
      | Hs : 0 <= Z.land c 63 < 64 |- _ =>
          rewrite (proj2 (char_sextet_sextet_char _ Hs))
      end.
      reflexivity.
    + destruct (btoa_codes_shape (r :: rest')) as (y0 & y1 & y2 & y3 & M & E);
        [discriminate|].
      rewrite E. reflexivity.
Qed.

Lemma atob_btoa (bytes : list Z) :
  Forall is_byte bytes ->
  atob (btoa (binary_of_bytes bytes)) = Some (binary_of_bytes bytes).
Proof.
  intros Hb. unfold atob, btoa.
  rewrite list_ascii_of_string_of_list_ascii, bytes_of_binary_of_bytes by exact Hb.
  rewrite btoa_codes_no_whitespace.
  unfold strip_padding. rewrite btoa_codes_length. cbn [Nat.eqb].
  rewrite drop_trailing_pad_btoa_codes, decode_sextets_btoa_body by exact Hb.
  reflexivity.
Qed.

Lemma base64ToBytes_bytesToBase64 (bytes : list Z) :
  Forall is_byte bytes -> base64ToBytes (bytesToBase64 bytes) = Some bytes.
Proof.
  intros Hb. unfold base64ToBytes, bytesToBase64.
  rewrite atob_btoa, bytes_of_binary_of_bytes by exact Hb. reflexivity.
Qed.

(** The two digits written for one byte read back as that byte. *)
Definition hex_pair_ok (b : Z) : bool :=
  match padStart (toString16 b) 2 "0"%char with
  | String h1 (String h0 EmptyString) =>
      toUint8 (parseInt16 (String h1 (String h0 EmptyString))) =? b
  | _ => false
  end.

Lemma hex_pair_ok_all (b : Z) : is_byte b -> hex_pair_ok b = true.
Proof.
  apply (all_bytes_forallb hex_pair_ok). vm_compute. reflexivity.
Qed.

Lemma hex_pair (b : Z) :
  is_byte b ->
  exists h1 h0,
    padStart (toString16 b) 2 "0"%char = String h1 (String h0 EmptyString) /\
    toUint8 (parseInt16 (String h1 (String h0 EmptyString))) = b.
Proof.
  intros Hb. pose proof (hex_pair_ok_all b Hb) as H. unfold hex_pair_ok in H.
  destruct (padStart (toString16 b) 2 "0"%char) as [|h1 [|h0 [|? ?]]];
    try discriminate.
  exists h1, h0. split; [reflexivity|apply Z.eqb_eq, H].
Qed.

Lemma hexToBytes_cons2 (h1 h0 : ascii) (hex : string) :
  hexToBytes (String h1 (String h0 hex))
  = toUint8 (parseInt16 (String h1 (String h0 EmptyString))) :: hexToBytes hex.
Proof.
  unfold hexToBytes.
  change (String.length (String h1 (String h0 hex)))
    with (2 + String.length hex)%nat.
  replace ((2 + String.length hex) / 2)%nat with (S (String.length hex / 2)).
  2:{ replace (2 + String.length hex)%nat with (1 * 2 + String.length hex)%nat by lia.
      rewrite Nat.div_add_l by lia. lia. }
  cbn [seq map]. f_equal.
  - cbn. destruct hex; reflexivity.
  - rewrite <- seq_shift, map_map. apply map_ext. intros i.
    replace (2 * S i)%nat with (S (S (2 * i))) by lia. reflexivity.
Qed.

Lemma hexToBytes_bytesToHex (bytes : list Z) :
  Forall is_byte bytes -> hexToBytes (bytesToHex bytes) = bytes.
Proof.
  induction 1 as [|b rest Hb Hrest IH]; [reflexivity|].
  destruct (hex_pair b Hb) as (h1 & h0 & Hpad & Hval).
  assert (E : bytesToHex (b :: rest) = String h1 (String h0 (bytesToHex rest))).
  { unfold bytesToHex. cbn [map]. rewrite Hpad.
    destruct rest as [|b' rest']; cbn; reflexivity. }
  rewrite E, hexToBytes_cons2, Hval, IH. reflexivity.
Qed.

(** C9: for every byte array [b], [base64ToBytes (bytesToBase64 b)] returns
    [b] and [hexToBytes (bytesToHex b)] is [b]. *)
Theorem encoding_round_trip (b : list Z) :
  Forall is_byte b ->
  base64ToBytes (bytesToBase64 b) = Some b /\ hexToBytes (bytesToHex b) = b.
Proof.
  intros Hb. split.
  - apply base64ToBytes_bytesToBase64, Hb.
  - apply hexToBytes_bytesToHex, Hb.
Qed.

Lemma encoding_round_trip_witness :
  base64ToBytes (bytesToBase64 [0; 1; 127; 128; 255]) = Some [0; 1; 127; 128; 255]
  /\ hexToBytes (bytesToHex [0; 1; 127; 128; 255]) = [0; 1; 127; 128; 255].
Proof.
  apply (encoding_round_trip [0; 1; 127; 128; 255]).
  repeat constructor; unfold is_byte; lia.
Defined.

End Encoding.

(** ** Results of calls that can throw *)

(** What a call settles with: its value, or the message of the error. *)
Inductive outcome (A : Type) : Type :=
| Returned (value : A)
| Thrown (message : string).
Arguments Returned {A} value.
Arguments Thrown {A} message.

(** ** Sizes (cipher/constants.ts) *)

Module BYTES.
(** Modelled from the spec: constants.ts is not part of the tree; the sizes
    are those of the spec's data model (64-byte key, 32-byte block and IV,
    16-byte nonce), which the comments of aead.test.ts repeat. *)
Definition KEY : nat := 64.
Definition BLOCK : nat := 32.
Definition IV : nat := 32.
Definition NONCE : nat := 16.
End BYTES.

(** ** Password-based entry points (cipher/index.ts, decryptWithPassword and
    decryptWithPasswordAEAD) *)

Module PasswordAPI.

Definition SALT_SIZE : nat := 16.

Inductive KDFLevel : Set := interactive | moderate | sensitive.

(** The steps of a call that the outside can tell apart. *)
Inductive event : Type :=
| SaltExtracted (salt : list Z)
| KeyDerived (password : string) (salt : list Z) (level : KDFLevel)
| CipherRun (key data : list Z).

(** An effectful computation appends its events to the log it is given. *)
Definition Async (A : Type) : Type := list event -> outcome A * list event.

Definition ret {A : Type} (a : A) : Async A := fun log => (Returned a, log).

Definition throw {A : Type} (message : string) : Async A :=
  fun log => (Thrown message, log).

Definition emit (e : event) : Async unit := fun log => (Returned tt, log ++ [e]).

Definition bind {A B : Type} (m : Async A) (k : A -> Async B) : Async B :=
  fun log =>
    match m log with
    | (Returned a, log') => k a log'
    | (Thrown message, log') => (Thrown message, log')
    end.

Definition lift {A : Type} (o : outcome A) : Async A := fun log => (o, log).

Notation "x <- m ;; k" := (bind m (fun x => k))
  (at level 61, m at next level, right associativity).
Notation "m ;;; k" := (bind m (fun _ => k))
  (at level 61, right associativity).

Section API.

(** Collaborators that live in other modules of the package. *)
Variable deriveKeyArgon2 : string -> list Z -> KDFLevel -> list Z.
Variable decryptCTR : list Z -> list Z -> outcome (list Z).
Variable aeadDecrypt : list Z -> list Z -> option (list Z) -> outcome (list Z).
Variable stringToBytes : string -> list Z.

(** [new RandomUniverseCipher(key)] with a byte-array key. *)
Definition new_cipher (key : list Z) : Async (list Z) :=
  if negb (length key =? BYTES.KEY)%nat
  then throw "Key must be 64 bytes (512 bits)"
  else ret key.

Definition fromPasswordAsync (password : string) (salt : list Z) (level : KDFLevel)
  : Async (list Z) :=
  emit (KeyDerived password salt level) ;;;
  new_cipher (deriveKeyArgon2 password salt level).

Definition cipher_decrypt (key ciphertext : list Z) : Async (list Z) :=
  emit (CipherRun key ciphertext) ;;;
  lift (decryptCTR ciphertext key).

(** [associatedData] is a byte array or a string; the empty string is falsy
    and counts as absent. *)
Definition normalise_ad (associatedData : option (list Z + string))
  : option (list Z) :=
  match associatedData with
  | None => None
  | Some (inl bytes) => Some bytes
  | Some (inr EmptyString) => None
  | Some (inr text) => Some (stringToBytes text)
  end.

Definition cipher_decryptAuthenticated (key ciphertext : list Z)
    (associatedData : option (list Z + string)) : Async (list Z) :=
  emit (CipherRun key ciphertext) ;;;
  lift (aeadDecrypt ciphertext key (normalise_ad associatedData)).

Definition subarray (bytes : list Z) (from to : nat) : list Z :=
  firstn (to - from) (skipn from bytes).

Definition decryptWithPassword (ciphertext : list Z) (password : string)
    (level : KDFLevel) : Async (list Z) :=
  if (length ciphertext <? SALT_SIZE + BYTES.NONCE + BYTES.BLOCK)%nat
  then throw "Ciphertext too short"
  else
    let salt := subarray ciphertext 0 SALT_SIZE in
    emit (SaltExtracted salt) ;;;
    let encrypted := skipn SALT_SIZE ciphertext in
    cipher <- fromPasswordAsync password salt level ;;
    cipher_decrypt cipher encrypted.

Definition decryptWithPasswordAEAD (ciphertext : list Z) (password : string)
    (associatedData : option (list Z + string)) (level : KDFLevel)
  : Async (list Z) :=
  if (length ciphertext <? SALT_SIZE + BYTES.NONCE + BYTES.BLOCK + 32)%nat
  then throw "Ciphertext too short"
  else
    let salt := subarray ciphertext 0 SALT_SIZE in
    emit (SaltExtracted salt) ;;;
    let encrypted := skipn SALT_SIZE ciphertext in
    cipher <- fromPasswordAsync password salt level ;;
    cipher_decryptAuthenticated cipher encrypted associatedData.

(** Past the guard, the salt is taken from the front of the input and the key
    derivation is run on it. *)
Lemma decryptWithPassword_long (ciphertext : list Z) (password : string)
    (level : KDFLevel) (log : list event) :
  (64 <= length ciphertext)%nat ->
  exists rest,
    snd (decryptWithPassword ciphertext password level log)
    = log ++ SaltExtracted (firstn 16 ciphertext)
          :: KeyDerived password (firstn 16 ciphertext) level :: rest.
Proof.
  intros Hlen. unfold decryptWithPassword.
  replace (length ciphertext <? SALT_SIZE + BYTES.NONCE + BYTES.BLOCK)%nat
    with false by (symmetry; apply Nat.ltb_ge; exact Hlen).
  unfold bind, emit, fromPasswordAsync, new_cipher, cipher_decrypt, bind, emit,
    throw, ret, lift, subarray.
  cbn [skipn SALT_SIZE Nat.sub].
  destruct (negb _); cbn [snd]; rewrite <- !app_assoc; cbn [app]; eauto.
Qed.

(** C10: an input shorter than 64 bytes makes [decryptWithPassword] throw
    'Ciphertext too short', and one shorter than 96 bytes makes
    [decryptWithPasswordAEAD] throw it, in both cases with nothing done
    before: no salt extracted, no key derived. *)
Theorem short_ciphertext_rejected
    (ct ct' : list Z) (password : string)
    (associatedData : option (list Z + string)) (level : KDFLevel)
    (log : list event) :
  (length ct < 64)%nat -> (length ct' < 96)%nat ->
  decryptWithPassword ct password level log
    = (Thrown "Ciphertext too short", log)
  /\ decryptWithPasswordAEAD ct' password associatedData level log
    = (Thrown "Ciphertext too short", log).
Proof.
  intros H H'. unfold decryptWithPassword, decryptWithPasswordAEAD.
  replace (length ct <? SALT_SIZE + BYTES.NONCE + BYTES.BLOCK)%nat with true
    by (symmetry; apply Nat.ltb_lt; exact H).
  replace (length ct' <? SALT_SIZE + BYTES.NONCE + BYTES.BLOCK + 32)%nat with true
    by (symmetry; apply Nat.ltb_lt; exact H').
  split; reflexivity.
Qed.

End API.

Lemma short_ciphertext_rejected_witness :
  decryptWithPassword (fun _ salt _ => salt) (fun ct _ => Returned ct)
      (repeat 0 63) "pw" interactive []
    = (Thrown "Ciphertext too short", [])
  /\ decryptWithPasswordAEAD (fun _ salt _ => salt) (fun ct _ _ => Returned ct)
      (fun _ => []) (repeat 0 95) "pw" None interactive []
    = (Thrown "Ciphertext too short", []).
Proof.
  apply (short_ciphertext_rejected (fun _ salt _ => salt) (fun ct _ => Returned ct)
           (fun ct _ _ => Returned ct) (fun _ => []));
    rewrite repeat_length; lia.
Defined.

End PasswordAPI.

(** ** Byte strings and big-endian integers (README, "Byte Ordering Convention") *)

Definition ascii_bytes (s : string) : list Z :=
  map (fun c => Z.of_N (N_of_ascii c)) (list_ascii_of_string s).

Definition bytes_to_int (b : list Z) : Z :=
  fold_left (fun acc x => acc * 256 + x) b 0.

Definition int_to_bytes (n : Z) (len : nat) : list Z :=
  map (fun i => Z.land (Z.shiftr n (8 * (Z.of_nat len - 1 - Z.of_nat i))) 0xFF)
      (seq 0 len).

(** Arrays are lists; a write outside the array does nothing. *)
Fixpoint upd {A : Type} (l : list A) (i : nat) (x : A) : list A :=
  match l, i with
  | [], _ => []
  | _ :: t, O => x :: t
  | h :: t, S i' => h :: upd t i' x
  end.

(** [temp = a[i]; a[i] = a[j]; a[j] = temp] *)
Definition swap (l : list Z) (i j : nat) : list Z :=
  let temp := nth i l 0 in
  let l := upd l i (nth j l 0) in
  upd l j temp.

Example int_to_bytes_be : int_to_bytes 0x0102030405060708 8 = [1; 2; 3; 4; 5; 6; 7; 8].
Proof. reflexivity. Qed.

Example bytes_to_int_be : bytes_to_int [1; 2; 3; 4; 5; 6; 7; 8] = 0x0102030405060708.
Proof. reflexivity. Qed.

Lemma upd_length {A : Type} (l : list A) (i : nat) (x : A) :
  length (upd l i x) = length l.
Proof.
  revert i. induction l as [|h t IH]; intros [|i]; cbn; auto.
Qed.

Lemma upd_upd_comm {A : Type} (l : list A) (i j : nat) (x y : A) :
  i <> j -> upd (upd l i x) j y = upd (upd l j y) i x.
Proof.
  revert i j. induction l as [|h t IH]; intros [|i] [|j] H; cbn; auto.
  - congruence.
  - rewrite IH; auto.
Qed.

Lemma upd_nth_same {A : Type} (l : list A) (i : nat) (d : A) :
  upd l i (nth i l d) = l.
Proof.
  revert i. induction l as [|h t IH]; intros [|i]; cbn; auto.
  rewrite IH. reflexivity.
Qed.

Lemma nth_upd_other {A : Type} (l : list A) (i j : nat) (x d : A) :
  i <> j -> nth j (upd l i x) d = nth j l d.
Proof.
  revert i j. induction l as [|h t IH]; intros [|i] [|j] H; cbn; auto.
  congruence.
Qed.

Lemma upd_Permutation (l : list Z) (j : nat) (a : Z) :
  (j < length l)%nat -> Permutation (nth j l 0 :: upd l j a) (a :: l).
Proof.
  revert j. induction l as [|b t IH]; intros [|j] H; cbn in *; try lia.
  - apply perm_swap.
  - eapply perm_trans; [apply perm_swap|].
    eapply perm_trans; [apply perm_skip, IH; lia|].
    apply perm_swap.
Qed.

Lemma swap_lt_Permutation (l : list Z) (i j : nat) :
  (i < j)%nat -> (j < length l)%nat ->
  Permutation (upd (upd l i (nth j l 0)) j (nth i l 0)) l.
Proof.
  revert i j. induction l as [|a t IH]; intros i j Hij Hj; cbn in Hj; [lia|].
  destruct j as [|j]; [lia|]. destruct i as [|i]; cbn.
  - apply upd_Permutation. lia.
  - apply perm_skip, IH; lia.
Qed.

Lemma swap_length (l : list Z) (i j : nat) : length (swap l i j) = length l.
Proof. unfold swap. rewrite !upd_length. reflexivity. Qed.

Lemma swap_Permutation (l : list Z) (i j : nat) :
  (i < length l)%nat -> (j < length l)%nat -> Permutation (swap l i j) l.
Proof.
  intros Hi Hj. unfold swap.
  destruct (Nat.lt_trichotomy i j) as [H|[H|H]].
  - apply swap_lt_Permutation; assumption.
  - subst j. rewrite !upd_nth_same. apply Permutation_refl.
  - rewrite upd_upd_comm by lia. apply swap_lt_Permutation; assumption.
Qed.

Lemma Zrange_length (lo : Z) (n : nat) : length (Zrange lo n) = n.
Proof. unfold Zrange. rewrite length_map, length_seq. reflexivity. Qed.

(** ** The external primitives: SHAKE256 (FIPS 202) and the ChaCha20 block
    function (RFC 8439) *)

Class Primitives : Type := {
  SHAKE256 : list Z -> nat -> list Z;
  SHAKE256_length : forall data len, length (SHAKE256 data len) = len;
  SHAKE256_bytes : forall data len, Forall is_byte (SHAKE256 data len);
  ChaCha20_Block : list Z -> list Z -> Z -> list Z
}.

(** ** ChaCha20 as a byte stream (README, "Algorithm: ChaCha20 PRNG") *)

Module PRNG.

Record state : Type := {
  key : list Z;
  nonce : list Z;
  counter : Z;
  buffer : list Z;
  buffer_pos : nat
}.

Section WithPrimitives.
Context {prims : Primitives}.

Definition ChaCha20_Init (key nonce : list Z) : state :=
  {| key := key; nonce := nonce; counter := 0; buffer := []; buffer_pos := 64 |}.

Definition refill (st : state) : state :=
  {| key := key st; nonce := nonce st;
     counter := counter st + 1;
     buffer := ChaCha20_Block (key st) (nonce st) (counter st);
     buffer_pos := 0 |}.

(** The [WHILE count > 0] loop; every pass takes at least one byte, so
    [count] passes are enough. *)
Fixpoint NextBytes_loop (fuel : nat) (st : state) (count : nat) (result : list Z)
  : list Z * state :=
  match fuel with
  | O => (result, st)
  | S fuel' =>
      if (count =? 0)%nat then (result, st)
      else
        let st := if (64 <=? buffer_pos st)%nat then refill st else st in
        let available := (64 - buffer_pos st)%nat in
        let take := Nat.min available count in
        let chunk := firstn take (skipn (buffer_pos st) (buffer st)) in
        let st := {| key := key st; nonce := nonce st; counter := counter st;
                     buffer := buffer st;
                     buffer_pos := (buffer_pos st + take)%nat |} in
        NextBytes_loop fuel' st (count - take) (result ++ chunk)
  end.

Definition ChaCha20_NextBytes (st : state) (count : nat) : list Z * state :=
  NextBytes_loop count st count [].

(** More passes than [count] change nothing: the loop has ended by then. *)
Lemma NextBytes_loop_fuel (fuel fuel' : nat) (st : state) (count : nat)
    (result : list Z) :
  (count <= fuel)%nat -> (count <= fuel')%nat ->
  NextBytes_loop fuel st count result = NextBytes_loop fuel' st count result.
Proof.
  revert fuel' st count result.
  induction fuel as [|fuel IH]; intros fuel' st count result H H'.
  - assert (count = 0%nat) by lia. subst count.
    destruct fuel'; reflexivity.
  - destruct fuel' as [|fuel'].
    + assert (count = 0%nat) by lia. subst count. reflexivity.
    + cbn [NextBytes_loop].
      destruct (count =? 0)%nat eqn:E; [reflexivity|].
      apply Nat.eqb_neq in E.
      set (st1 := if (64 <=? buffer_pos st)%nat then refill st else st).
      assert (P : (buffer_pos st1 < 64)%nat).
      { subst st1. destruct (64 <=? buffer_pos st)%nat eqn:F.
        - cbn. lia.
        - apply Nat.leb_gt in F. exact F. }
      apply IH; lia.
Qed.

End WithPrimitives.
End PRNG.

(** ** S-boxes (README, "Algorithm: S-Box Generation with Verification" and
    the property computations that follow it) *)

Module SBox.

Fixpoint pop_pos (p : positive) : Z :=
  match p with
  | xH => 1
  | xO q => pop_pos q
  | xI q => 1 + pop_pos q
  end.

Definition popcount (z : Z) : Z :=
  match z with
  | Zpos p => pop_pos p
  | _ => 0
  end.

Definition identity_permutation : list Z := Zrange 0 256.

(** [FOR i FROM 255 DOWN TO 1]: the call with [i] runs the passes
    [i, i-1, .., 1]. *)
Fixpoint fisher_yates (shuffle_seed : list Z) (i : nat) (sbox : list Z) : list Z :=
  match i with
  | O => sbox
  | S i' =>
      let idx := (2 * (255 - i))%nat in
      let rand_val :=
        Z.lor (Z.shiftl (nth idx shuffle_seed 0) 8) (nth (idx + 1) shuffle_seed 0) in
      let j := Z.to_nat (rand_val mod (Z.of_nat i + 1)) in
      fisher_yates shuffle_seed i' (swap sbox i j)
  end.

(** Property 1: the [seen] array. *)
Fixpoint bijective_loop (sbox : list Z) (seen : list bool) : bool :=
  match sbox with
  | [] => true
  | v :: rest =>
      if nth (Z.to_nat v) seen false then false
      else bijective_loop rest (upd seen (Z.to_nat v) true)
  end.

Definition isBijective (sbox : list Z) : bool :=
  bijective_loop sbox (repeat false 256).

(** Fast Walsh-Hadamard transform, in place. *)
Definition butterfly (wht : list Z) (j h : nat) : list Z :=
  let x := nth j wht 0 in
  let y := nth (j + h) wht 0 in
  upd (upd wht j (x + y)) (j + h) (x - y).

Definition wht_stage (wht : list Z) (h : nat) : list Z :=
  fold_left
    (fun wht k =>
       let i := (k * (2 * h))%nat in
       fold_left (fun wht j => butterfly wht j h) (seq i h) wht)
    (seq 0 (256 / (2 * h)))
    wht.

Definition walsh_hadamard_transform (f : list Z) : list Z :=
  let wht := map (fun fi => 1 - 2 * fi) f in
  fold_left wht_stage [1; 2; 4; 8; 16; 32; 64; 128]%nat wht.

Definition fold_max (l : list Z) (m : Z) : Z :=
  fold_left (fun m c => if c >? m then c else m) l m.

Definition compute_nonlinearity (sbox : list Z) : Z :=
  let max_walsh :=
    fold_left
      (fun max_walsh output_mask =>
         let truth_table :=
           map (fun x => popcount (Z.land (nth (Z.to_nat x) sbox 0) output_mask) mod 2)
               (Zrange 0 256) in
         let wht := walsh_hadamard_transform truth_table in
         fold_max (map Z.abs wht) max_walsh)
      (Zrange 1 255) 0 in
  128 - max_walsh / 2.

(** One row of the difference distribution table. *)
Definition ddt_row (sbox : list Z) (input_diff : Z) : list Z :=
  fold_left
    (fun counts x =>
       let output_diff :=
         Z.lxor (nth (Z.to_nat x) sbox 0)
                (nth (Z.to_nat (Z.lxor x input_diff)) sbox 0) in
       upd counts (Z.to_nat output_diff) (nth (Z.to_nat output_diff) counts 0 + 1))
    (Zrange 0 256) (repeat 0 256).

Definition compute_differential_uniformity (sbox : list Z) : Z :=
  fold_left
    (fun max_count input_diff => fold_max (ddt_row sbox input_diff) max_count)
    (Zrange 1 255) 0.

Definition mobius_transform (f : list Z) : list Z :=
  fold_left
    (fun anf i =>
       let step := Z.shiftl 1 i in
       fold_left
         (fun anf j =>
            if Z.land j step =? 0 then anf
            else upd anf (Z.to_nat j)
                     (Z.lxor (nth (Z.to_nat j) anf 0)
                             (nth (Z.to_nat (Z.lxor j step)) anf 0)))
         (Zrange 0 256) anf)
    (Zrange 0 8) f.

Definition compute_algebraic_degree (sbox : list Z) : Z :=
  fold_left
    (fun max_degree output_bit =>
       let truth_table :=
         map (fun x => Z.land (Z.shiftr (nth (Z.to_nat x) sbox 0) output_bit) 1)
             (Zrange 0 256) in
       let anf := mobius_transform truth_table in
       fold_left
         (fun max_degree i =>
            if nth (Z.to_nat i) anf 0 =? 0 then max_degree
            else
              let hw := popcount i in
              if hw >? max_degree then hw else max_degree)
         (Zrange 0 256) max_degree)
    (Zrange 0 8) 0.

Definition verify_sbox_properties (sbox : list Z) : bool :=
  if negb (isBijective sbox) then false
  else if compute_nonlinearity sbox <? 100 then false
  else if compute_differential_uniformity sbox >? 4 then false
  else if compute_algebraic_degree sbox <? 7 then false
  else true.

(** *** The shuffle yields a permutation *)

Lemma fisher_yates_Permutation (shuffle_seed : list Z) (i : nat) (sbox : list Z) :
  (i < length sbox)%nat -> Permutation (fisher_yates shuffle_seed i sbox) sbox.
Proof.
  revert sbox. induction i as [|i IH]; intros sbox Hi; cbn [fisher_yates].
  - apply Permutation_refl.
  - set (j := Z.to_nat (_ mod _)).
    assert (Hj : (j < length sbox)%nat).
    { subst j.
      match goal with
      | |- (Z.to_nat (?r mod ?m) < _)%nat =>
          pose proof (Z.mod_pos_bound r m ltac:(lia))
      end. lia. }
    eapply perm_trans.
    + apply IH. rewrite swap_length. lia.
    + apply swap_Permutation; assumption.
Qed.

(** *** A row of the difference table bounds the uniformity from below *)

Lemma fold_max_ge (l : list Z) (m : Z) : m <= fold_max l m.
Proof.
  revert m. unfold fold_max. induction l as [|c l IH]; intros m; cbn; [lia|].
  destruct (c >? m) eqn:E; [|apply IH].
  apply Z.gtb_lt in E. specialize (IH c). lia.
Qed.

Lemma fold_max_mono (l : list Z) (m m' : Z) :
  m <= m' -> fold_max l m <= fold_max l m'.
Proof.
  revert m m'. unfold fold_max. induction l as [|c l IH]; intros m m' H; cbn; [lia|].
  apply IH.
  destruct (c >? m) eqn:E; destruct (c >? m') eqn:E';
    rewrite ?Z.gtb_lt, ?Z.gtb_ltb, ?Z.ltb_ge in *; lia.
Qed.

Lemma fold_rows_ge (F : Z -> list Z) (rows : list Z) (m : Z) :
  m <= fold_left (fun max_count a => fold_max (F a) max_count) rows m.
Proof.
  revert m. induction rows as [|a rows IH]; intros m; cbn; [lia|].
  specialize (IH (fold_max (F a) m)). pose proof (fold_max_ge (F a) m). lia.
Qed.

Lemma fold_rows_In (F : Z -> list Z) (rows : list Z) (m a : Z) :
  In a rows ->
  fold_max (F a) m <= fold_left (fun max_count a => fold_max (F a) max_count) rows m.
Proof.
  revert m. induction rows as [|b rows IH]; intros m H; [destruct H|].
  destruct H as [H|H]; cbn.
  - subst b. apply fold_rows_ge.
  - specialize (IH (fold_max (F b) m) H).
    pose proof (fold_max_mono (F a) m (fold_max (F b) m) (fold_max_ge (F b) m)).
    lia.
Qed.

Lemma ddt_row_le_uniformity (sbox : list Z) (a : Z) :
  1 <= a <= 255 ->
  fold_max (ddt_row sbox a) 0 <= compute_differential_uniformity sbox.
Proof.
  intros Ha. unfold compute_differential_uniformity.
  apply (fold_rows_In (ddt_row sbox)). apply Zrange_In. lia.
Qed.

Lemma verify_sbox_properties_uniformity (sbox : list Z) :
  verify_sbox_properties sbox = true ->
  isBijective sbox = true /\ 100 <= compute_nonlinearity sbox /\
  compute_differential_uniformity sbox <= 4 /\ 7 <= compute_algebraic_degree sbox.
Proof.
  unfold verify_sbox_properties.
  destruct (isBijective sbox); cbn [negb]; [|discriminate].
  destruct (compute_nonlinearity sbox <? 100) eqn:N; [discriminate|].
  destruct (compute_differential_uniformity sbox >? 4) eqn:D; [discriminate|].
  destruct (compute_algebraic_degree sbox <? 7) eqn:G; [discriminate|].
  intros _. rewrite Z.gtb_ltb in D.
  apply Z.ltb_ge in N, D, G. auto.
Qed.

(** One component function bounds the non-linearity from above. *)
Definition component_walsh (sbox : list Z) (output_mask : Z) : list Z :=
  let truth_table :=
    map (fun x => popcount (Z.land (nth (Z.to_nat x) sbox 0) output_mask) mod 2)
        (Zrange 0 256) in
  map Z.abs (walsh_hadamard_transform truth_table).

Lemma walsh_bounds_nonlinearity (sbox : list Z) (output_mask : Z) :
  1 <= output_mask <= 255 ->
  compute_nonlinearity sbox <= 128 - fold_max (component_walsh sbox output_mask) 0 / 2.
Proof.
  intros Hm. unfold compute_nonlinearity.
  pose proof (fold_rows_In (component_walsh sbox) (Zrange 1 255) 0 output_mask
                ltac:(apply Zrange_In; lia)) as H.
  revert H. unfold component_walsh at 2. cbv zeta.
  generalize (fold_max (component_walsh sbox output_mask) 0).
  match goal with
  | |- forall z, z <= ?m -> _ => generalize m
  end.
  intros m w H. apply Z.sub_le_mono_l. apply Z.div_le_mono; lia.
Qed.

(** A row of the table with an entry above 4 is enough to reject. *)
Lemma row_rejects (sbox : list Z) (a : Z) :
  1 <= a <= 255 -> (4 <? fold_max (ddt_row sbox a) 0) = true ->
  4 < compute_differential_uniformity sbox /\ verify_sbox_properties sbox = false.
Proof.
  intros Ha H. apply Z.ltb_lt in H.
  pose proof (ddt_row_le_uniformity sbox a Ha) as L.
  assert (D : 4 < compute_differential_uniformity sbox).
  { revert H L. generalize (fold_max (ddt_row sbox a) 0).
    generalize (compute_differential_uniformity sbox). intros; lia. }
  split; [exact D|].
  destruct (verify_sbox_properties sbox) eqn:V; [|reflexivity].
  apply verify_sbox_properties_uniformity in V.
  destruct V as (_ & _ & V & _). revert D V.
  generalize (compute_differential_uniformity sbox). intros; lia.
Qed.

(** *** The property computations on a known S-box *)

(** The AES S-box: the inverse in the field followed by the affine map. *)
Definition rotl8 (x n : Z) : Z :=
  Z.land (Z.lor (Z.shiftl x n) (Z.shiftr x (8 - n))) 0xFF.

Definition aes_sbox : list Z :=
  Eval vm_compute in
    map (fun a =>
           let b := GF.gf_pow a 254 in
           Z.lxor (Z.lxor (Z.lxor (Z.lxor (Z.lxor b (rotl8 b 1)) (rotl8 b 2))
                                  (rotl8 b 3)) (rotl8 b 4)) 0x63)
        (Zrange 0 256).

Example aes_sbox_head : firstn 4 aes_sbox = [0x63; 0x7c; 0x77; 0x7b].
Proof. reflexivity. Qed.

(** It is a bijection with differential uniformity 4 and algebraic degree 7,
    the values the literature gives. *)
Example aes_sbox_properties :
  isBijective aes_sbox = true
  /\ compute_differential_uniformity aes_sbox = 4
  /\ compute_algebraic_degree aes_sbox = 7.
Proof.
  split; [vm_compute; reflexivity|].
  split; vm_compute; reflexivity.
Qed.

Section WithPrimitives.
Context {prims : Primitives}.

(** Steps 1 and 2 for one domain separator. *)
Definition shuffled_permutation (K domain_sep : list Z) : list Z :=
  let shuffle_seed := SHAKE256 (K ++ domain_sep) 512 in
  fisher_yates shuffle_seed 255 identity_permutation.

Definition first_domain (round : Z) : list Z :=
  ascii_bytes "RUC-SBOX" ++ int_to_bytes round 2.

Definition retry_domain (round retry : Z) : list Z :=
  ascii_bytes "RUC-SBOX" ++ int_to_bytes round 2 ++ int_to_bytes retry 2.

(** Modelled from the spec: README calls [regenerate_with_new_seed] without
    defining it; by section 4.3 step 4 of the spec a retry restarts from the
    SHAKE256 request with the extended domain separator. *)
Definition regenerate_with_new_seed (K domain_sep : list Z) : list Z :=
  shuffled_permutation K domain_sep.

(** [FOR retry FROM 1 TO 100] with its [BREAK]: [n] passes are left, the next
    one uses the counter [retry]; [sbox] is the variable the loop assigns. *)
Fixpoint retry_loop (K : list Z) (round : Z) (n : nat) (retry : Z) (sbox : list Z)
  : list Z :=
  match n with
  | O => sbox
  | S n' =>
      let sbox := regenerate_with_new_seed K (retry_domain round retry) in
      if verify_sbox_properties sbox then sbox
      else retry_loop K round n' (retry + 1) sbox
  end.

Definition generate_sbox (K : list Z) (round : Z) : list Z :=
  let sbox := shuffled_permutation K (first_domain round) in
  if negb (verify_sbox_properties sbox) then retry_loop K round 100 1 sbox
  else sbox.

(** The candidate of attempt [k]: the first request for [k = 0], the retry
    with counter [k] afterwards. *)
Definition candidate (K : list Z) (round : Z) (k : Z) : list Z :=
  if k =? 0 then shuffled_permutation K (first_domain round)
  else regenerate_with_new_seed K (retry_domain round k).

Lemma candidate_first (K : list Z) (round : Z) :
  candidate K round 0 = shuffled_permutation K (first_domain round).
Proof. unfold candidate. change (0 =? 0) with true. cbv iota. reflexivity. Qed.

Lemma candidate_retry (K : list Z) (round k : Z) :
  1 <= k ->
  candidate K round k = regenerate_with_new_seed K (retry_domain round k).
Proof.
  intros Hk. unfold candidate.
  replace (k =? 0) with false by (symmetry; apply Z.eqb_neq; lia).
  cbv iota. reflexivity.
Qed.

Lemma candidate_Permutation (K : list Z) (round k : Z) :
  Permutation (candidate K round k) identity_permutation.
Proof.
  unfold candidate, regenerate_with_new_seed, shuffled_permutation.
  destruct (k =? 0); apply fisher_yates_Permutation;
    unfold identity_permutation; rewrite Zrange_length; lia.
Qed.

Lemma retry_loop_S (K : list Z) (round : Z) (n : nat) (retry : Z) (sbox : list Z) :
  retry_loop K round (S n) retry sbox
  = if verify_sbox_properties (regenerate_with_new_seed K (retry_domain round retry))
    then regenerate_with_new_seed K (retry_domain round retry)
    else retry_loop K round n (retry + 1)
           (regenerate_with_new_seed K (retry_domain round retry)).
Proof. reflexivity. Qed.

Lemma retry_loop_cases (K : list Z) (round : Z) (n : nat) (retry : Z) (sbox : list Z) :
  1 <= retry ->
  retry_loop K round n retry sbox = sbox
  \/ exists k, retry <= k < retry + Z.of_nat n /\
               retry_loop K round n retry sbox = candidate K round k.
Proof.
  revert retry sbox. induction n as [|n IH]; intros retry sbox Hr; cbn [retry_loop].
  - left. reflexivity.
  - right. rewrite <- (candidate_retry K round retry Hr).
    destruct (verify_sbox_properties _).
    + exists retry. split; [lia|reflexivity].
    + destruct (IH (retry + 1) (candidate K round retry) ltac:(lia))
        as [E|(k & Hk & E)].
      * exists retry. split; [lia|exact E].
      * exists k. split; [lia|exact E].
Qed.

Lemma generate_sbox_candidate (K : list Z) (round : Z) :
  exists k, 0 <= k <= 100 /\ generate_sbox K round = candidate K round k.
Proof.
  unfold generate_sbox. rewrite <- (candidate_first K round).
  destruct (verify_sbox_properties (candidate K round 0)); cbn [negb].
  - exists 0. split; [lia|reflexivity].
  - destruct (retry_loop_cases K round 100 1 (candidate K round 0) ltac:(lia))
      as [E|(k & Hk & E)].
    + exists 0. split; [lia|exact E].
    + exists k. split; [lia|exact E].
Qed.

(** Whatever the key, the generator returns a permutation of 0..255. *)
Lemma generate_sbox_Permutation (K : list Z) (round : Z) :
  Permutation (generate_sbox K round) identity_permutation.
Proof.
  destruct (generate_sbox_candidate K round) as (k & _ & E).
  rewrite E. apply candidate_Permutation.
Qed.

(** When every attempt is rejected the loop runs out and the generator
    returns the candidate of the last retry. *)
Lemma retry_loop_exhausted (K : list Z) (round : Z) (n : nat) (retry : Z)
    (sbox : list Z) :
  1 <= retry ->
  (forall k, retry <= k < retry + Z.of_nat (S n) ->
             verify_sbox_properties (candidate K round k) = false) ->
  retry_loop K round (S n) retry sbox = candidate K round (retry + Z.of_nat n).
Proof.
  revert retry sbox. induction n as [|n IH]; intros retry sbox Hr Hall.
  - cbn [retry_loop]. rewrite <- (candidate_retry K round retry Hr).
    replace (retry + Z.of_nat 0) with retry by lia.
    destruct (verify_sbox_properties _); reflexivity.
  - rewrite retry_loop_S, <- (candidate_retry K round retry Hr).
    rewrite (Hall retry ltac:(lia)).
    rewrite IH; [f_equal; lia|lia|].
    intros k Hk. apply Hall. lia.
Qed.

Lemma generate_sbox_exhausted (K : list Z) (round : Z) :
  (forall k, 0 <= k <= 100 -> verify_sbox_properties (candidate K round k) = false) ->
  generate_sbox K round = candidate K round 100
  /\ verify_sbox_properties (generate_sbox K round) = false.
Proof.
  intros Hall.
  assert (E : generate_sbox K round = candidate K round 100).
  { unfold generate_sbox. rewrite <- (candidate_first K round).
    rewrite (Hall 0 ltac:(lia)). cbn [negb].
    rewrite (retry_loop_exhausted K round 99 1); [reflexivity|lia|].
    intros k Hk. apply Hall. lia. }
  split; [exact E|]. rewrite E. apply Hall. lia.
Qed.

(** When an attempt is accepted, the generator returns an accepted S-box. *)
Lemma retry_loop_accepted (K : list Z) (round : Z) (n : nat) (retry : Z)
    (sbox : list Z) (k : Z) :
  1 <= retry -> retry <= k < retry + Z.of_nat n ->
  verify_sbox_properties (candidate K round k) = true ->
  verify_sbox_properties (retry_loop K round n retry sbox) = true.
Proof.
  revert retry sbox. induction n as [|n IH]; intros retry sbox Hr Hk V; [lia|].
  cbn [retry_loop]. rewrite <- (candidate_retry K round retry Hr).
  destruct (verify_sbox_properties (candidate K round retry)) eqn:E; [exact E|].
  apply IH; [lia| |exact V].
  destruct (Z.eq_dec k retry) as [->|N]; [congruence|lia].
Qed.

Lemma generate_sbox_accepted (K : list Z) (round k : Z) :
  0 <= k <= 100 ->
  verify_sbox_properties (candidate K round k) = true ->
  verify_sbox_properties (generate_sbox K round) = true.
Proof.
  intros Hk V. unfold generate_sbox. rewrite <- (candidate_first K round).
  destruct (verify_sbox_properties (candidate K round 0)) eqn:E; cbn [negb];
    [exact E|].
  apply (retry_loop_accepted K round 100 1 _ k); [lia| |exact V].
  destruct (Z.eq_dec k 0) as [->|N]; [congruence|lia].
Qed.

End WithPrimitives.
End SBox.

(** ** SHAKE256 (FIPS 202): Keccak-f[1600] with rate 136 and suffix 1111 *)

Module Keccak.

Definition mask64 : Z := 0xFFFFFFFFFFFFFFFF.

Definition rotl64 (x : Z) (n : Z) : Z :=
  Z.land (Z.lor (Z.shiftl x n) (Z.shiftr x (64 - n))) mask64.

Definition lane (A : list Z) (x y : nat) : Z := nth (x mod 5 + 5 * y) A 0.

Definition xs : list nat := [0; 1; 2; 3; 4]%nat.

Definition round_constants : list Z :=
  [0x0000000000000001; 0x0000000000008082; 0x800000000000808A; 0x8000000080008000;
   0x000000000000808B; 0x0000000080000001; 0x8000000080008081; 0x8000000000008009;
   0x000000000000008A; 0x0000000000000088; 0x0000000080008009; 0x000000008000000A;
   0x000000008000808B; 0x800000000000008B; 0x8000000000008089; 0x8000000000008003;
   0x8000000000008002; 0x8000000000000080; 0x000000000000800A; 0x800000008000000A;
   0x8000000080008081; 0x8000000000008080; 0x0000000080000001; 0x8000000080008008].

(** Rotation offsets, indexed by [x + 5 * y]. *)
Definition rotation_offsets : list Z :=
  [ 0;  1; 62; 28; 27;
   36; 44;  6; 55; 20;
    3; 10; 43; 25; 39;
   41; 45; 15; 21;  8;
   18;  2; 61; 56; 14].

Definition theta (A : list Z) : list Z :=
  let C := map (fun x => fold_left Z.lxor (map (lane A x) xs) 0) xs in
  let D := map (fun x => Z.lxor (nth ((x + 4) mod 5) C 0)
                                (rotl64 (nth ((x + 1) mod 5) C 0) 1)) xs in
  map (fun i => Z.lxor (nth i A 0) (nth (i mod 5) D 0)) (seq 0 25).

(** The lane written at [(x, y)] comes from [(x', y')] with
    [x = y'] and [y = 2 x' + 3 y']. *)
Definition rho_pi (A : list Z) : list Z :=
  map (fun i =>
         let x := (i mod 5)%nat in
         let y := (i / 5)%nat in
         let x' := ((x + 3 * y) mod 5)%nat in
         let y' := x in
         rotl64 (lane A x' y') (nth (x' + 5 * y') rotation_offsets 0))
      (seq 0 25).

Definition chi (B : list Z) : list Z :=
  map (fun i =>
         let x := (i mod 5)%nat in
         let y := (i / 5)%nat in
         Z.lxor (lane B x y)
                (Z.land (Z.lxor (lane B (x + 1) y) mask64) (lane B (x + 2) y)))
      (seq 0 25).

Definition iota (rc : Z) (A : list Z) : list Z :=
  match A with
  | a :: rest => Z.lxor a rc :: rest
  | [] => []
  end.

Definition keccak_round (A : list Z) (rc : Z) : list Z :=
  iota rc (chi (rho_pi (theta A))).

Definition keccak_f (A : list Z) : list Z :=
  fold_left keccak_round round_constants A.

Definition rate : nat := 136.

(** Little-endian lanes. *)
Definition lane_of_bytes (b : list Z) : Z :=
  fold_right (fun x acc => x + 256 * acc) 0 b.

Fixpoint lanes_of_block (n : nat) (block : list Z) : list Z :=
  match n with
  | O => []
  | S n' => lane_of_bytes (firstn 8 block) :: lanes_of_block n' (skipn 8 block)
  end.

Definition absorb_block (A block : list Z) : list Z :=
  let lanes := lanes_of_block 25 block in
  map (fun i => Z.lxor (nth i A 0) (nth i lanes 0)) (seq 0 25).

Definition state_bytes (A : list Z) : list Z :=
  map (fun k => Z.land (Z.shiftr (nth (k / 8) A 0) (8 * Z.of_nat (k mod 8))) 0xFF)
      (seq 0 rate).

(** SHAKE padding: suffix 1111, then pad10*1. *)
Definition pad (data : list Z) : list Z :=
  let q := (rate - length data mod rate)%nat in
  if (q =? 1)%nat then data ++ [0x9F]
  else data ++ [0x1F] ++ repeat 0 (q - 2) ++ [0x80].

Fixpoint absorb (nblocks : nat) (A : list Z) (message : list Z) : list Z :=
  match nblocks with
  | O => A
  | S n' =>
      absorb n' (keccak_f (absorb_block A (firstn rate message))) (skipn rate message)
  end.

Fixpoint squeeze (nblocks : nat) (A : list Z) : list Z :=
  match nblocks with
  | O => []
  | S n' => state_bytes A ++ squeeze n' (keccak_f A)
  end.

Definition shake256 (data : list Z) (len : nat) : list Z :=
  let message := pad data in
  let A := absorb (length message / rate) (repeat 0 25) message in
  firstn len (squeeze (len / rate + 1) A).

Lemma state_bytes_length (A : list Z) : length (state_bytes A) = rate.
Proof. unfold state_bytes. rewrite length_map, length_seq. reflexivity. Qed.

Lemma state_bytes_bytes (A : list Z) : Forall is_byte (state_bytes A).
Proof.
  unfold state_bytes. apply Forall_forall. intros b Hb.
  apply in_map_iff in Hb. destruct Hb as (k & <- & _).
  change 0xFF with (Z.ones 8). rewrite Z.land_ones by lia.
  unfold is_byte. change 256 with (2 ^ 8). apply Z.mod_pos_bound. lia.
Qed.

Lemma squeeze_length (n : nat) (A : list Z) : length (squeeze n A) = (n * rate)%nat.
Proof.
  revert A. induction n as [|n IH]; intros A; cbn [squeeze]; [reflexivity|].
  rewrite length_app, state_bytes_length, IH. lia.
Qed.

Lemma squeeze_bytes (n : nat) (A : list Z) : Forall is_byte (squeeze n A).
Proof.
  revert A. induction n as [|n IH]; intros A; cbn [squeeze]; [constructor|].
  apply Forall_app. split; [apply state_bytes_bytes|apply IH].
Qed.

Lemma shake256_length (data : list Z) (len : nat) : length (shake256 data len) = len.
Proof.
  unfold shake256. rewrite length_firstn, squeeze_length.
  apply Nat.min_l.
  pose proof (Nat.div_mod_eq len rate) as E.
  pose proof (Nat.mod_upper_bound len rate ltac:(unfold rate; lia)) as U.
  lia.
Qed.

Lemma shake256_bytes (data : list Z) (len : nat) : Forall is_byte (shake256 data len).
Proof.
  unfold shake256.
  generalize (squeeze_bytes (len / rate + 1)
                (absorb (length (pad data) / rate) (repeat 0 25) (pad data))).
  generalize (squeeze (len / rate + 1)
                (absorb (length (pad data) / rate) (repeat 0 25) (pad data))).
  intros l H. rewrite <- (firstn_skipn len l) in H.
  apply Forall_app in H. apply H.
Qed.

(** FIPS 202 test vector: SHAKE256 of the empty message, first 32 bytes. *)
Example shake256_empty :
  shake256 [] 32
  = [0x46; 0xb9; 0xdd; 0x2b; 0x0b; 0xa8; 0x8d; 0x13;
     0x23; 0x3b; 0x3f; 0xeb; 0x74; 0x3e; 0xeb; 0x24;
     0x3f; 0xcd; 0x52; 0xea; 0x62; 0xb8; 0x1b; 0x82;
     0xb5; 0x0c; 0x27; 0x64; 0x6e; 0xd5; 0x76; 0x2f].
Proof. vm_compute. reflexivity. Qed.

End Keccak.

(** ** The ChaCha20 block function (RFC 8439, section 2.3) *)

Module ChaCha20.

Definition mask32 : Z := 0xFFFFFFFF.

Definition add32 (a b : Z) : Z := Z.land (a + b) mask32.

Definition rotl32 (x : Z) (n : Z) : Z :=
  Z.land (Z.lor (Z.shiftl x n) (Z.shiftr x (32 - n))) mask32.

Definition quarter_round (st : list Z) (a b c d : nat) : list Z :=
  let st := upd st a (add32 (nth a st 0) (nth b st 0)) in
  let st := upd st d (rotl32 (Z.lxor (nth d st 0) (nth a st 0)) 16) in
  let st := upd st c (add32 (nth c st 0) (nth d st 0)) in
  let st := upd st b (rotl32 (Z.lxor (nth b st 0) (nth c st 0)) 12) in
  let st := upd st a (add32 (nth a st 0) (nth b st 0)) in
  let st := upd st d (rotl32 (Z.lxor (nth d st 0) (nth a st 0)) 8) in
  let st := upd st c (add32 (nth c st 0) (nth d st 0)) in
  upd st b (rotl32 (Z.lxor (nth b st 0) (nth c st 0)) 7).

Definition double_round (st : list Z) : list Z :=
  let st := quarter_round st 0 4 8 12 in
  let st := quarter_round st 1 5 9 13 in
  let st := quarter_round st 2 6 10 14 in
  let st := quarter_round st 3 7 11 15 in
  let st := quarter_round st 0 5 10 15 in
  let st := quarter_round st 1 6 11 12 in
  let st := quarter_round st 2 7 8 13 in
  quarter_round st 3 4 9 14.

Definition word_le (b : list Z) : Z := fold_right (fun x acc => x + 256 * acc) 0 b.

Fixpoint words_le (n : nat) (b : list Z) : list Z :=
  match n with
  | O => []
  | S n' => word_le (firstn 4 b) :: words_le n' (skipn 4 b)
  end.

Definition bytes_le (w : Z) : list Z :=
  map (fun k => Z.land (Z.shiftr w (8 * Z.of_nat k)) 0xFF) (seq 0 4).

Definition block (key nonce : list Z) (counter : Z) : list Z :=
  let init :=
    [0x61707865; 0x3320646e; 0x79622d32; 0x6b206574]
    ++ words_le 8 key ++ [Z.land counter mask32] ++ words_le 3 nonce in
  let working := Nat.iter 10 double_round init in
  flat_map bytes_le (map (fun i => add32 (nth i working 0) (nth i init 0)) (seq 0 16)).

(** RFC 8439, section 2.3.2. *)
Example block_rfc8439 :
  firstn 16 (block (Zrange 0 32) [0; 0; 0; 9; 0; 0; 0; 0x4a; 0; 0; 0; 0] 1)
  = [0x10; 0xf1; 0xe7; 0xe4; 0xd1; 0x3b; 0x59; 0x15;
     0x50; 0x0f; 0xdd; 0x1f; 0xa3; 0x20; 0x71; 0xc4].
Proof. vm_compute. reflexivity. Qed.

End ChaCha20.

(** The primitives as the standards define them. *)
#[export] Instance reference_primitives : Primitives := {
  SHAKE256 := Keccak.shake256;
  SHAKE256_length := Keccak.shake256_length;
  SHAKE256_bytes := Keccak.shake256_bytes;
  ChaCha20_Block := ChaCha20.block
}.

(** ** Key expansion (README, "Algorithm: Key Expansion") *)

Module KeySchedule.

Record KeyMaterial : Type := {
  registers : list Z;
  selectors : list Z;
  sboxes : list (list Z);
  roundKeys : list Z
}.

Definition REGISTER_SIZE : nat := 64.
Definition ROUND_COUNT : nat := 24.

Section WithPrimitives.
Context {prims : Primitives}.

(** Step 1: [domain_sep = "RUC-REG" || byte(i)]. *)
Definition generate_registers (K : list Z) : list Z :=
  map (fun i =>
         bytes_to_int (SHAKE256 (K ++ ascii_bytes "RUC-REG" ++ [i]) REGISTER_SIZE))
      (Zrange 0 7).

(** Step 2 *)
Definition num_selectors (K : list Z) : Z := 16 + nth 1 K 0 mod 16.

(** Step 3, one pass of the loop. *)
Definition generate_selector (K : list Z) (i : Z) : Z :=
  let sel_bytes := SHAKE256 (K ++ ascii_bytes "RUC-SEL" ++ int_to_bytes i 2) 2 in
  let selector := bytes_to_int sel_bytes in
  let selector := if selector mod 2 =? 0 then selector + 1 else selector in
  let selector := if selector =? 0 then 1 else selector in
  selector.

Definition generate_selectors (K : list Z) : list Z :=
  map (generate_selector K) (Zrange 0 (Z.to_nat (num_selectors K))).

(** Step 4: [FOR i FROM num_selectors - 1 DOWN TO 1]; the call with [i] runs
    the passes [i, i-1, .., 1]. *)
Fixpoint permute_selectors (i : nat) (SEL : list Z) (prng_state : PRNG.state)
  : list Z :=
  match i with
  | O => SEL
  | S i' =>
      let '(rand_bytes, prng_state) := PRNG.ChaCha20_NextBytes prng_state 4 in
      let rand_int := bytes_to_int rand_bytes in
      let j := Z.to_nat (rand_int mod (Z.of_nat i + 1)) in
      permute_selectors i' (swap SEL i j) prng_state
  end.

(** Step 5 *)
Definition generate_round_keys (K : list Z) : list Z :=
  map (fun r =>
         bytes_to_int
           (SHAKE256 (K ++ ascii_bytes "RUC-RK" ++ int_to_bytes r 2) REGISTER_SIZE))
      (Zrange 0 ROUND_COUNT).

(** Step 6 *)
Definition generate_sboxes (K : list Z) : list (list Z) :=
  map (SBox.generate_sbox K) (Zrange 0 ROUND_COUNT).

(** Steps 2 to 4 *)
Definition shuffled_selectors (K : list Z) : list Z :=
  let SEL := generate_selectors K in
  let chacha_key := SHAKE256 (K ++ ascii_bytes "RUC-PERM") 32 in
  let chacha_nonce := repeat 0 12 in
  let prng_state := PRNG.ChaCha20_Init chacha_key chacha_nonce in
  permute_selectors (Z.to_nat (num_selectors K) - 1) SEL prng_state.

Definition key_expand (K : list Z) : KeyMaterial :=
  let R := generate_registers K in
  let SEL := shuffled_selectors K in
  let RK := generate_round_keys K in
  let S := generate_sboxes K in
  {| registers := R; selectors := SEL; sboxes := S; roundKeys := RK |}.

(** *** The selectors *)

Definition selector_ok (s : Z) : Prop := Z.odd s = true /\ s <> 0 /\ 0 <= s < 65536.

Lemma num_selectors_range (K : list Z) : 16 <= num_selectors K <= 31.
Proof.
  unfold num_selectors. pose proof (Z.mod_pos_bound (nth 1 K 0) 16 ltac:(lia)). lia.
Qed.

Lemma bytes_to_int_two (b : list Z) :
  length b = 2%nat -> Forall is_byte b -> 0 <= bytes_to_int b < 65536.
Proof.
  intros Hl Hb. destruct b as [|x [|y [|? ?]]]; try discriminate.
  inversion_clear Hb as [|? ? Hx Hb']. inversion_clear Hb' as [|? ? Hy _].
  unfold bytes_to_int, is_byte in *. cbn. lia.
Qed.

Lemma generate_selector_ok (K : list Z) (i : Z) : selector_ok (generate_selector K i).
Proof.
  unfold generate_selector.
  set (sel_bytes := SHAKE256 _ 2).
  pose proof (bytes_to_int_two sel_bytes (SHAKE256_length _ _) (SHAKE256_bytes _ _))
    as B.
  generalize dependent (bytes_to_int sel_bytes). clear sel_bytes. intros v B.
  cbv zeta. unfold selector_ok.
  destruct (v mod 2 =? 0) eqn:E.
  - apply Z.eqb_eq in E.
    assert (O : Z.odd (v + 1) = true).
    { rewrite Z.odd_add. rewrite <- Z.negb_even.
      replace (Z.even v) with true; [reflexivity|].
      symmetry. apply Z.even_spec. exists (v / 2).
      pose proof (Z.div_mod v 2 ltac:(lia)). lia. }
    assert (N : v + 1 <> 0) by lia.
    replace (v + 1 =? 0) with false by (symmetry; apply Z.eqb_neq; exact N).
    assert (v <> 65535).
    { intros ->. discriminate E. }
    repeat split; try assumption; lia.
  - apply Z.eqb_neq in E.
    assert (O : Z.odd v = true).
    { rewrite <- Z.negb_even. destruct (Z.even v) eqn:Ev; [|reflexivity].
      apply Z.even_spec in Ev. destruct Ev as [q ->]. exfalso. apply E.
      rewrite Z.mul_comm. apply Z.mod_mul. lia. }
    assert (N : v <> 0) by (intros ->; discriminate O).
    replace (v =? 0) with false by (symmetry; apply Z.eqb_neq; exact N).
    repeat split; try assumption; lia.
Qed.

Lemma generate_selectors_length (K : list Z) :
  length (generate_selectors K) = Z.to_nat (num_selectors K).
Proof. unfold generate_selectors. rewrite length_map, Zrange_length. reflexivity. Qed.

Lemma generate_selectors_ok (K : list Z) : Forall selector_ok (generate_selectors K).
Proof.
  unfold generate_selectors. apply Forall_forall. intros s Hs.
  apply in_map_iff in Hs. destruct Hs as (i & <- & _). apply generate_selector_ok.
Qed.

Lemma permute_selectors_Permutation (i : nat) (SEL : list Z) (st : PRNG.state) :
  (i < length SEL)%nat -> Permutation (permute_selectors i SEL st) SEL.
Proof.
  revert SEL st. induction i as [|i IH]; intros SEL st Hi; cbn [permute_selectors].
  - apply Permutation_refl.
  - destruct (PRNG.ChaCha20_NextBytes st 4) as [rand_bytes st'].
    set (j := Z.to_nat (_ mod _)).
    assert (Hj : (j < length SEL)%nat).
    { subst j.
      match goal with
      | |- (Z.to_nat (?r mod ?m) < _)%nat =>
          pose proof (Z.mod_pos_bound r m ltac:(lia))
      end. lia. }
    eapply perm_trans.
    + apply IH. rewrite swap_length. lia.
    + apply swap_Permutation; assumption.
Qed.

Lemma selectors_Permutation (K : list Z) :
  Permutation (selectors (key_expand K)) (generate_selectors K).
Proof.
  unfold key_expand. cbn [selectors]. unfold shuffled_selectors.
  apply permute_selectors_Permutation.
  rewrite generate_selectors_length.
  pose proof (num_selectors_range K). lia.
Qed.

(** C8: for a 64-byte key the selector sequence of the key material has
    N = 16 + (K[1] mod 16) elements, between 16 and 31; each is odd, non-zero
    and fits 16 bits; and the sequence is a permutation of the selectors as
    SHAKE256 produced them before the shuffle. *)
Theorem selectors_invariant (K : list Z) :
  length K = 64%nat ->
  Z.of_nat (length (selectors (key_expand K))) = 16 + nth 1 K 0 mod 16
  /\ 16 <= Z.of_nat (length (selectors (key_expand K))) <= 31
  /\ Forall selector_ok (selectors (key_expand K))
  /\ Permutation (selectors (key_expand K)) (generate_selectors K).
Proof.
  intros _.
  pose proof (selectors_Permutation K) as P.
  pose proof (num_selectors_range K) as R.
  assert (L : Z.of_nat (length (selectors (key_expand K))) = num_selectors K).
  { rewrite (Permutation_length P), generate_selectors_length. lia. }
  split; [exact L|]. split; [lia|]. split; [|exact P].
  eapply Permutation_Forall; [apply Permutation_sym, P|apply generate_selectors_ok].
Qed.

End WithPrimitives.

(** The key of README's test vector 1 has 17 selectors. *)
Definition test_vector_key : list Z :=
  let pattern := [0x00; 0x11; 0x22; 0x33; 0x44; 0x55; 0x66; 0x77;
                  0x88; 0x99; 0xaa; 0xbb; 0xcc; 0xdd; 0xee; 0xff] in
  pattern ++ pattern ++ pattern ++ pattern.

Example test_vector_selectors :
  generate_selectors test_vector_key
  = [37547; 10733; 22913; 47733; 3819; 29325; 52803; 21539; 60441; 60331;
     12931; 43161; 32911; 38531; 35913; 14485; 57617]
  /\ shuffled_selectors test_vector_key
  = [3819; 60331; 22913; 38531; 35913; 29325; 60441; 14485; 47733; 21539;
     52803; 32911; 12931; 37547; 43161; 57617; 10733].
Proof. split; vm_compute; reflexivity. Qed.

Lemma selectors_invariant_witness :
  Z.of_nat (length (selectors (key_expand test_vector_key)))
    = 16 + nth 1 test_vector_key 0 mod 16
  /\ 16 <= Z.of_nat (length (selectors (key_expand test_vector_key))) <= 31
  /\ Forall selector_ok (selectors (key_expand test_vector_key))
  /\ Permutation (selectors (key_expand test_vector_key))
                 (generate_selectors test_vector_key).
Proof. apply (selectors_invariant test_vector_key). reflexivity. Defined.

End KeySchedule.

(** ** State initialisation and the round engine (README, "Algorithm: IV
    Mixing", "Algorithm: Encrypt Block", "Algorithm: Decrypt Block") *)

Module Engine.

Import KeySchedule.

Definition REGISTER_BITS : Z := 512.
Definition ACCUMULATOR_SIZE : Z := 1024.
Definition ROUNDS : nat := 24.

(** Rotation of a 512-bit register. *)
Definition ROL (x n : Z) : Z :=
  Z.land (Z.lor (Z.shiftl x n) (Z.shiftr x (REGISTER_BITS - n)))
         (2 ^ REGISTER_BITS - 1).

(** [R[i] = R[i] XOR v], in place. *)
Definition xor_into (R : list Z) (i : nat) (v : Z) : list Z :=
  upd R i (Z.lxor (nth i R 0) v).

Definition reg (R : list Z) (i : nat) : Z := nth i R 0.

(** [stable_sort(priorities, key = lambda x: x[1])] *)
Fixpoint insert_by_priority (x : Z * Z * Z) (l : list (Z * Z * Z))
  : list (Z * Z * Z) :=
  match l with
  | [] => [x]
  | y :: l' =>
      if snd (fst x) <=? snd (fst y) then x :: l
      else y :: insert_by_priority x l'
  end.

Definition stable_sort (l : list (Z * Z * Z)) : list (Z * Z * Z) :=
  fold_right insert_by_priority [] l.

Example stable_sort_keeps_ties :
  stable_sort [(10, 3, 0); (11, 1, 1); (12, 3, 2); (13, 1, 3); (14, 0, 4)]
  = [(14, 0, 4); (11, 1, 1); (13, 1, 3); (10, 3, 0); (12, 3, 2)].
Proof. reflexivity. Qed.

Section WithPrimitives.
Context {prims : Primitives}.

Definition mix_iv_into_state (R : list Z) (IV : list Z) : list Z :=
  let iv_expanded := SHAKE256 (IV ++ ascii_bytes "RUC-IV-EXPAND") 64 in
  let iv_int := bytes_to_int iv_expanded in
  let R :=
    fold_left
      (fun R i =>
         let rotation := (Z.of_nat i * 73) mod 512 in
         let rotated_iv := ROL iv_int rotation in
         xor_into R i rotated_iv)
      (seq 0 7) R in
  fold_left
    (fun R _round =>
       fold_left
         (fun R i =>
            let R := xor_into R i (ROL (reg R ((i + 1) mod 7)) 17) in
            xor_into R i (ROL (reg R ((i + 3) mod 7)) 41))
         (seq 0 7) R)
    (seq 0 3) R.

(** Step 1: the selectors in priority order for this block. *)
Fixpoint draw_priorities (SEL : list Z) (j : Z) (priority_prng : PRNG.state)
  : list (Z * Z * Z) :=
  match SEL with
  | [] => []
  | sel :: rest =>
      let '(prio_bytes, priority_prng) := PRNG.ChaCha20_NextBytes priority_prng 4 in
      let priority := bytes_to_int prio_bytes mod 7 in
      (sel, priority, j) :: draw_priorities rest (j + 1) priority_prng
  end.

Definition ordered_selectors (K IV : list Z) (n : Z) (SEL : list Z) : list Z :=
  let priority_seed :=
    SHAKE256 (K ++ IV ++ int_to_bytes n 8 ++ ascii_bytes "RUC-PRIO") 32 in
  let priority_prng := PRNG.ChaCha20_Init priority_seed (repeat 0 12) in
  let priorities := draw_priorities SEL 0 priority_prng in
  let priorities := stable_sort priorities in
  map (fun p => fst (fst p)) priorities.

(** Step 3a: one selector; the state is the registers and the accumulator. *)
Definition process_selector (K : list Z) (Sr : list Z) (RKr : Z)
    (st : list Z * Z) (sel : Z) : list Z * Z :=
  let '(R, ACC) := st in
  let dest_val := Z.lxor (Z.lxor (Z.land (reg R 0) 0xFFFFFFFF) sel)
                         (Z.land RKr 0xFFFFFFFF) in
  let place_idx := Z.to_nat (dest_val mod 7) in
  let temp := Z.land (sel * 2) 0xFFFF in
  let state_byte := Z.land (Z.shiftr (reg R place_idx) 504) 0xFF in
  let gf_result := GF.GF_MUL (Z.land temp 0xFF) state_byte in
  let const_seed := SHAKE256 (K ++ ascii_bytes "RUC-CONST" ++ int_to_bytes sel 2) 1 in
  let key_const := nth 0 const_seed 0 in
  let gf_result := Z.lxor gf_result key_const in
  let result := nth (Z.to_nat gf_result) Sr 0 in
  let R := upd R place_idx (GF.GF_MUL_REGISTER (reg R place_idx) result) in
  let shift_amount := sel mod 16 in
  let R := xor_into R place_idx (Z.shiftl result shift_amount) in
  let low_byte := Z.land (reg R place_idx) 0xFF in
  let sbox_result := nth (Z.to_nat low_byte) Sr 0 in
  let R := xor_into R place_idx sbox_result in
  let R := upd R place_idx (ROL (reg R place_idx) 1) in
  let R := xor_into R place_idx (reg R ((place_idx + 1) mod 7)) in
  let ACC := (ACC + result) mod 2 ^ ACCUMULATOR_SIZE in
  (R, ACC).

(** Step 3b *)
Definition inter_round_mixing (R : list Z) : list Z :=
  fold_left
    (fun R i =>
       let R := xor_into R i (reg R ((i + 1) mod 7)) in
       xor_into R i (reg R ((i + 2) mod 7)))
    (seq 0 7) R.

Definition run_round (K : list Z) (ordered : list Z) (S : list (list Z)) (RK : list Z)
    (st : list Z * Z) (r : nat) : list Z * Z :=
  let '(R, ACC) :=
    fold_left (process_selector K (nth r S []) (nth r RK 0)) ordered st in
  (inter_round_mixing R, ACC).

(** Steps 1 to 4, which encryption and decryption share: the registers after
    the rounds and the keystream of the block. *)
Definition block_keystream (K IV : list Z) (n : Z) (R SEL : list Z)
    (S : list (list Z)) (RK : list Z) : list Z * list Z :=
  let ordered := ordered_selectors K IV n SEL in
  let '(R, ACC) := fold_left (run_round K ordered S RK) (seq 0 ROUNDS) (R, 0) in
  let combined :=
    int_to_bytes ACC 128 ++ flat_map (fun i => int_to_bytes (reg R i) 64) (seq 0 7) in
  let keystream :=
    SHAKE256 (combined ++ ascii_bytes "RUC-KS" ++ int_to_bytes n 8) 32 in
  (R, keystream).

(** [FOR i FROM 0 TO 31: out[i] = in[i] XOR keystream[i]] *)
Definition xor_block (input keystream : list Z) : list Z :=
  map (fun i => Z.lxor (nth i input 0) (nth i keystream 0)) (seq 0 32).

(** Step 6 *)
Definition ciphertext_feedback (R : list Z) (C : list Z) : list Z :=
  let C_int := bytes_to_int C in
  fold_left
    (fun R i =>
       let feedback_shift := (Z.of_nat i * 37) mod 256 in
       xor_into R i (Z.shiftl C_int feedback_shift))
    (seq 0 7) R.

(** The registers are modified in place: the result carries them. *)
Definition encrypt_block (P K IV : list Z) (n : Z) (R SEL : list Z)
    (S : list (list Z)) (RK : list Z) : list Z * list Z :=
  let '(R, keystream) := block_keystream K IV n R SEL S RK in
  let C := xor_block P keystream in
  let R := ciphertext_feedback R C in
  (C, R).

Definition decrypt_block (C K IV : list Z) (n : Z) (R SEL : list Z)
    (S : list (list Z)) (RK : list Z) : list Z * list Z :=
  let '(R, keystream) := block_keystream K IV n R SEL S RK in
  let P := xor_block C keystream in
  let R := ciphertext_feedback R C in
  (P, R).

(** *** Decryption undoes encryption *)

Lemma xor_block_length (a b : list Z) : length (xor_block a b) = 32%nat.
Proof. unfold xor_block. rewrite length_map, length_seq. reflexivity. Qed.

Lemma nth_map_seq {A : Type} (f : nat -> A) (n i : nat) (d : A) :
  (i < n)%nat -> nth i (map f (seq 0 n)) d = f i.
Proof.
  intros Hi. rewrite (nth_indep _ d (f 0%nat)) by (rewrite length_map, length_seq; lia).
  rewrite (map_nth f (seq 0 n) 0%nat i), seq_nth by lia. reflexivity.
Qed.

Lemma map_nth_seq (l : list Z) (n : nat) :
  length l = n -> map (fun i => nth i l 0) (seq 0 n) = l.
Proof.
  intros <-. induction l as [|x l IH]; [reflexivity|].
  cbn [length seq map nth]. f_equal.
  rewrite <- seq_shift, map_map. exact IH.
Qed.

Lemma xor_block_involutive (P keystream : list Z) :
  length P = 32%nat -> xor_block (xor_block P keystream) keystream = P.
Proof.
  intros HP. unfold xor_block at 1.
  transitivity (map (fun i => nth i P 0) (seq 0 32)); [|apply map_nth_seq, HP].
  apply map_ext_in. intros i Hi. apply in_seq in Hi.
  unfold xor_block. rewrite nth_map_seq by lia.
  rewrite Z.lxor_assoc, Z.lxor_nilpotent, Z.lxor_0_r. reflexivity.
Qed.

(** From equal registers, decrypting the ciphertext block of [P] gives [P]
    back and leaves the registers as encryption left them. *)
Lemma decrypt_encrypt_block (P K IV : list Z) (n : Z) (R SEL : list Z)
    (S : list (list Z)) (RK : list Z) :
  length P = 32%nat ->
  decrypt_block (fst (encrypt_block P K IV n R SEL S RK)) K IV n R SEL S RK
  = (P, snd (encrypt_block P K IV n R SEL S RK)).
Proof.
  intros HP. unfold encrypt_block, decrypt_block.
  destruct (block_keystream K IV n R SEL S RK) as [R' keystream].
  cbn [fst snd]. rewrite xor_block_involutive by exact HP. reflexivity.
Qed.

Lemma encrypt_block_length (P K IV : list Z) (n : Z) (R SEL : list Z)
    (S : list (list Z)) (RK : list Z) :
  length (fst (encrypt_block P K IV n R SEL S RK)) = 32%nat.
Proof.
  unfold encrypt_block.
  destruct (block_keystream K IV n R SEL S RK) as [R' keystream].
  cbn [fst]. apply xor_block_length.
Qed.

End WithPrimitives.
End Engine.

(** ** Padding and block modes (README, "Block Cipher Modes" and "Padding:
    PKCS#7") *)

Module Modes.

Import KeySchedule Engine.

Definition pkcs7_pad (data : list Z) (block_size : nat) : list Z :=
  let padding_len := (block_size - length data mod block_size)%nat in
  let padding_len := if (padding_len =? 0)%nat then block_size else padding_len in
  data ++ repeat (Z.of_nat padding_len) padding_len.

Definition pkcs7_unpad (data : list Z) : outcome (list Z) :=
  if (length data =? 0)%nat then Thrown "Empty data"
  else
    let padding_len := nth (length data - 1) data 0 in
    if (padding_len =? 0) || (padding_len >? Z.of_nat (length data))
    then Thrown "Invalid padding"
    else
      let start := (length data - Z.to_nat padding_len)%nat in
      if forallb (fun i => nth i data 0 =? padding_len)
                 (seq start (Z.to_nat padding_len))
      then Returned (firstn start data)
      else Thrown "Invalid padding".

(** [data[n*32 : (n+1)*32]] *)
Definition block_at (data : list Z) (n : nat) : list Z :=
  firstn 32 (skipn (n * 32) data).

Example pkcs7_pad_full_block : length (pkcs7_pad (repeat 7 32) 32) = 64%nat.
Proof. reflexivity. Qed.

Example pkcs7_unpad_bad : pkcs7_unpad [1; 2; 3; 2] = Thrown "Invalid padding".
Proof. reflexivity. Qed.

Section WithPrimitives.
Context {prims : Primitives}.

(** [R = deep_copy(R_init)] followed by the counter fold into [R[0]]. *)
Definition counter_state (R_init : list Z) (n : nat) : list Z :=
  let counter_bytes := int_to_bytes (Z.of_nat n) 8 in
  xor_into R_init 0
    (bytes_to_int (SHAKE256 (counter_bytes ++ ascii_bytes "CTR") 64)).

(** The block loop of RUC-CTR: [count] passes starting at block [n]. *)
Fixpoint ctr_encrypt_loop (count n : nat) (padded K IV : list Z) (R_init : list Z)
    (km : KeyMaterial) : list Z :=
  match count with
  | O => []
  | S count' =>
      let R := counter_state R_init n in
      let P := block_at padded n in
      let '(C, _) :=
        encrypt_block P K IV (Z.of_nat n) R (selectors km) (sboxes km) (roundKeys km) in
      C ++ ctr_encrypt_loop count' (S n) padded K IV R_init km
  end.

(** RUC-CTR after the derivation of the IV; RUC-GCM calls it
    [RUC_CTR_Encrypt_NoNonce]. *)
Definition RUC_CTR_Encrypt_NoNonce (plaintext K IV : list Z) : list Z :=
  let km := key_expand K in
  let R_init := mix_iv_into_state (registers km) IV in
  let padded := pkcs7_pad plaintext 32 in
  let num_blocks := (length padded / 32)%nat in
  ctr_encrypt_loop num_blocks 0 padded K IV R_init km.

Definition RUC_CTR_Encrypt (plaintext K nonce : list Z) : list Z :=
  let IV := SHAKE256 (nonce ++ ascii_bytes "RUC-CTR-IV") 32 in
  nonce ++ RUC_CTR_Encrypt_NoNonce plaintext K IV.

(** The block loop of RUC-CBC; the registers and the previous ciphertext
    block pass from one block to the next. *)
Fixpoint cbc_encrypt_loop (count n : nat) (padded K IV : list Z) (prev_C R : list Z)
    (km : KeyMaterial) : list Z :=
  match count with
  | O => []
  | S count' =>
      let P := block_at padded n in
      let P_xor := xor_block P prev_C in
      let '(C, R) :=
        encrypt_block P_xor K IV (Z.of_nat n) R
                      (selectors km) (sboxes km) (roundKeys km) in
      C ++ cbc_encrypt_loop count' (S n) padded K IV C R km
  end.

Definition RUC_CBC_Encrypt (plaintext K IV : list Z) : list Z :=
  let km := key_expand K in
  let R := mix_iv_into_state (registers km) IV in
  let padded := pkcs7_pad plaintext 32 in
  let num_blocks := (length padded / 32)%nat in
  IV ++ cbc_encrypt_loop num_blocks 0 padded K IV IV R km.

(** *** Decryption *)

(** Modelled from the spec: the block loop of counter-mode decryption, the
    loop of RUC-CTR with [decrypt_block] in place of [encrypt_block]. *)
Fixpoint ctr_decrypt_loop (count n : nat) (body K IV : list Z) (R_init : list Z)
    (km : KeyMaterial) : list Z :=
  match count with
  | O => []
  | S count' =>
      let R := counter_state R_init n in
      let C := block_at body n in
      let '(P, _) :=
        decrypt_block C K IV (Z.of_nat n) R (selectors km) (sboxes km) (roundKeys km) in
      P ++ ctr_decrypt_loop count' (S n) body K IV R_init km
  end.

(** Modelled from the spec: README gives no decryption for the modes and
    modes.ts is not part of the tree.  By sections 4.6 and 4.7 of the spec
    decryption reuses the block transform on the same per-block state, and the
    PKCS#7 padding is removed at the end. *)
Definition RUC_CTR_Decrypt_NoNonce (body K IV : list Z) : outcome (list Z) :=
  let km := key_expand K in
  let R_init := mix_iv_into_state (registers km) IV in
  let num_blocks := (length body / 32)%nat in
  pkcs7_unpad (ctr_decrypt_loop num_blocks 0 body K IV R_init km).

(** Modelled from the spec: the envelope is [nonce (16) || ciphertext
    (multiple of 32)]; one shorter than the header and one block, or with a
    ragged body, is rejected before any work (sections 6 and 7). *)
Definition RUC_CTR_Decrypt (envelope K : list Z) : outcome (list Z) :=
  if (length envelope <? BYTES.NONCE + BYTES.BLOCK)%nat
     || negb ((length envelope - BYTES.NONCE) mod BYTES.BLOCK =? 0)%nat
  then Thrown "InvalidCiphertextLength"
  else
    let nonce := firstn BYTES.NONCE envelope in
    let body := skipn BYTES.NONCE envelope in
    let IV := SHAKE256 (nonce ++ ascii_bytes "RUC-CTR-IV") 32 in
    RUC_CTR_Decrypt_NoNonce body K IV.

(** Modelled from the spec: the block loop of CBC decryption; each block is
    decrypted from the registers the previous one left, then XORed with the
    previous ciphertext block. *)
Fixpoint cbc_decrypt_loop (count n : nat) (body K IV : list Z) (prev_C R : list Z)
    (km : KeyMaterial) : list Z :=
  match count with
  | O => []
  | S count' =>
      let C := block_at body n in
      let '(P_xor, R) :=
        decrypt_block C K IV (Z.of_nat n) R
                      (selectors km) (sboxes km) (roundKeys km) in
      let P := xor_block P_xor prev_C in
      P ++ cbc_decrypt_loop count' (S n) body K IV C R km
  end.

(** Modelled from the spec: the envelope is [IV (32) || ciphertext (multiple
    of 32)]; the registers are fed back across blocks as in encryption. *)
Definition RUC_CBC_Decrypt (envelope K : list Z) : outcome (list Z) :=
  if (length envelope <? BYTES.IV + BYTES.BLOCK)%nat
     || negb ((length envelope - BYTES.IV) mod BYTES.BLOCK =? 0)%nat
  then Thrown "InvalidCiphertextLength"
  else
    let IV := firstn BYTES.IV envelope in
    let body := skipn BYTES.IV envelope in
    let km := key_expand K in
    let R := mix_iv_into_state (registers km) IV in
    let num_blocks := (length body / 32)%nat in
    pkcs7_unpad (cbc_decrypt_loop num_blocks 0 body K IV IV R km).

(** *** Padding *)

Lemma padding_len_range (len : nat) :
  let padding_len := (32 - len mod 32)%nat in
  (1 <= padding_len <= 32)%nat.
Proof.
  cbv zeta. pose proof (Nat.mod_upper_bound len 32 ltac:(lia)). lia.
Qed.

Lemma pkcs7_pad_eq (data : list Z) :
  pkcs7_pad data 32
  = data ++ repeat (Z.of_nat (32 - length data mod 32)) (32 - length data mod 32).
Proof.
  unfold pkcs7_pad. pose proof (padding_len_range (length data)) as H.
  cbv zeta in H.
  replace (32 - length data mod 32 =? 0)%nat with false
    by (symmetry; apply Nat.eqb_neq; lia).
  reflexivity.
Qed.

Lemma pkcs7_pad_length (data : list Z) :
  length (pkcs7_pad data 32) = (32 * (length data / 32 + 1))%nat.
Proof.
  rewrite pkcs7_pad_eq, length_app, repeat_length.
  pose proof (Nat.div_mod_eq (length data) 32).
  pose proof (Nat.mod_upper_bound (length data) 32 ltac:(lia)). lia.
Qed.

Lemma pkcs7_unpad_pad (data : list Z) :
  pkcs7_unpad (pkcs7_pad data 32) = Returned data.
Proof.
  rewrite pkcs7_pad_eq.
  pose proof (padding_len_range (length data)) as H. cbv zeta in H.
  set (p := (32 - length data mod 32)%nat) in *.
  unfold pkcs7_unpad. rewrite length_app, repeat_length.
  replace (length data + p =? 0)%nat with false
    by (symmetry; apply Nat.eqb_neq; lia).
  assert (N : forall i, (length data <= i < length data + p)%nat ->
                        nth i (data ++ repeat (Z.of_nat p) p) 0 = Z.of_nat p).
  { intros i Hi. rewrite app_nth2 by lia. apply nth_repeat_lt. lia. }
  rewrite (N (length data + p - 1)%nat) by lia.
  replace (Z.of_nat p =? 0) with false by (symmetry; apply Z.eqb_neq; lia).
  replace (Z.of_nat p >? Z.of_nat (length data + p)) with false
    by (symmetry; rewrite Z.gtb_ltb; apply Z.ltb_ge; lia).
  cbn [orb]. rewrite Nat2Z.id.
  replace (length data + p - p)%nat with (length data) by lia.
  replace (forallb _ _) with true.
  - rewrite firstn_app, Nat.sub_diag, firstn_all. cbn [firstn].
    rewrite app_nil_r. reflexivity.
  - symmetry. apply forallb_forall. intros i Hi. apply in_seq in Hi.
    apply Z.eqb_eq, N. lia.
Qed.

(** *** Blocks of a byte string *)

Lemma firstn_app_exact {A : Type} (a b : list A) (n : nat) :
  length a = n -> firstn n (a ++ b) = a.
Proof.
  intros <-. rewrite firstn_app, Nat.sub_diag, firstn_all. cbn [firstn].
  apply app_nil_r.
Qed.

Lemma skipn_app_exact {A : Type} (a b : list A) (n : nat) :
  length a = n -> skipn n (a ++ b) = b.
Proof.
  intros <-. rewrite skipn_app, Nat.sub_diag, skipn_all. reflexivity.
Qed.

Lemma block_at_app (prefix block tail : list Z) (n : nat) :
  length prefix = (n * 32)%nat -> length block = 32%nat ->
  block_at (prefix ++ block ++ tail) n = block.
Proof.
  intros Hp Hb. unfold block_at.
  rewrite (skipn_app_exact prefix _ _ Hp). apply firstn_app_exact, Hb.
Qed.

Lemma block_at_length (data : list Z) (n : nat) :
  ((n + 1) * 32 <= length data)%nat -> length (block_at data n) = 32%nat.
Proof.
  intros H. unfold block_at. rewrite length_firstn, length_skipn. lia.
Qed.

(** The blocks [n, n+1, .., n+count-1] of [data], end to end. *)
Fixpoint blocks_from (count n : nat) (data : list Z) : list Z :=
  match count with
  | O => []
  | S count' => block_at data n ++ blocks_from count' (S n) data
  end.

Lemma blocks_from_all (count n : nat) (data : list Z) :
  length data = ((n + count) * 32)%nat ->
  blocks_from count n data = skipn (n * 32) data.
Proof.
  revert n. induction count as [|count IH]; intros n Hl; cbn [blocks_from].
  - rewrite skipn_all2 by lia. reflexivity.
  - rewrite IH by lia. unfold block_at.
    replace (S n * 32)%nat with (32 + n * 32)%nat by lia.
    rewrite <- skipn_skipn. apply firstn_skipn.
Qed.

(** *** Round trips of the block loops *)

Lemma ctr_loop_round_trip (count n : nat) (padded K IV R_init : list Z)
    (km : KeyMaterial) (prefix : list Z) :
  length prefix = (n * 32)%nat ->
  ((n + count) * 32 <= length padded)%nat ->
  ctr_decrypt_loop count n
    (prefix ++ ctr_encrypt_loop count n padded K IV R_init km) K IV R_init km
  = blocks_from count n padded.
Proof.
  revert n prefix. induction count as [|count IH]; intros n prefix Hp Hl;
    [reflexivity|].
  cbn [ctr_encrypt_loop ctr_decrypt_loop blocks_from].
  pose proof (decrypt_encrypt_block (block_at padded n) K IV (Z.of_nat n)
                (counter_state R_init n) (selectors km) (sboxes km) (roundKeys km)
                ltac:(apply block_at_length; lia)) as D.
  pose proof (encrypt_block_length (block_at padded n) K IV (Z.of_nat n)
                (counter_state R_init n) (selectors km) (sboxes km) (roundKeys km))
    as L.
  destruct (encrypt_block (block_at padded n) K IV (Z.of_nat n)
              (counter_state R_init n) (selectors km) (sboxes km) (roundKeys km))
    as [C R']. cbn [fst snd] in D, L.
  rewrite block_at_app by assumption. rewrite D. f_equal.
  rewrite app_assoc. apply IH; [rewrite length_app; lia|lia].
Qed.

Lemma cbc_loop_round_trip (count n : nat) (padded K IV prev_C R : list Z)
    (km : KeyMaterial) (prefix : list Z) :
  length prefix = (n * 32)%nat ->
  ((n + count) * 32 <= length padded)%nat ->
  cbc_decrypt_loop count n
    (prefix ++ cbc_encrypt_loop count n padded K IV prev_C R km) K IV prev_C R km
  = blocks_from count n padded.
Proof.
  revert n prefix prev_C R. induction count as [|count IH];
    intros n prefix prev_C R Hp Hl; [reflexivity|].
  cbn [cbc_encrypt_loop cbc_decrypt_loop blocks_from].
  pose proof (decrypt_encrypt_block (xor_block (block_at padded n) prev_C) K IV
                (Z.of_nat n) R (selectors km) (sboxes km) (roundKeys km)
                (xor_block_length _ _)) as D.
  pose proof (encrypt_block_length (xor_block (block_at padded n) prev_C) K IV
                (Z.of_nat n) R (selectors km) (sboxes km) (roundKeys km)) as L.
  destruct (encrypt_block (xor_block (block_at padded n) prev_C) K IV (Z.of_nat n)
              R (selectors km) (sboxes km) (roundKeys km)) as [C R'].
  cbn [fst snd] in D, L.
  rewrite block_at_app by assumption. rewrite D.
  rewrite xor_block_involutive by (apply block_at_length; lia). f_equal.
  rewrite app_assoc. apply IH; [rewrite length_app; lia|lia].
Qed.

Lemma ctr_loop_round_trip_all (count : nat) (padded K IV R_init : list Z)
    (km : KeyMaterial) :
  (count * 32 <= length padded)%nat ->
  ctr_decrypt_loop count 0 (ctr_encrypt_loop count 0 padded K IV R_init km)
    K IV R_init km
  = blocks_from count 0 padded.
Proof.
  intros H. apply (ctr_loop_round_trip count 0 padded K IV R_init km []);
    [reflexivity|lia].
Qed.

Lemma cbc_loop_round_trip_all (count : nat) (padded K IV prev_C R : list Z)
    (km : KeyMaterial) :
  (count * 32 <= length padded)%nat ->
  cbc_decrypt_loop count 0 (cbc_encrypt_loop count 0 padded K IV prev_C R km)
    K IV prev_C R km
  = blocks_from count 0 padded.
Proof.
  intros H. apply (cbc_loop_round_trip count 0 padded K IV prev_C R km []);
    [reflexivity|lia].
Qed.

Lemma ctr_encrypt_loop_length (count n : nat) (padded K IV R_init : list Z)
    (km : KeyMaterial) :
  length (ctr_encrypt_loop count n padded K IV R_init km) = (count * 32)%nat.
Proof.
  revert n. induction count as [|count IH]; intros n; [reflexivity|].
  cbn [ctr_encrypt_loop].
  pose proof (encrypt_block_length (block_at padded n) K IV (Z.of_nat n)
                (counter_state R_init n) (selectors km) (sboxes km) (roundKeys km))
    as L.
  destruct (encrypt_block _ _ _ _ _ _ _ _) as [C R']. cbn [fst] in L.
  rewrite length_app, L, IH. lia.
Qed.

Lemma cbc_encrypt_loop_length (count n : nat) (padded K IV prev_C R : list Z)
    (km : KeyMaterial) :
  length (cbc_encrypt_loop count n padded K IV prev_C R km) = (count * 32)%nat.
Proof.
  revert n prev_C R. induction count as [|count IH]; intros n prev_C R;
    [reflexivity|].
  cbn [cbc_encrypt_loop].
  pose proof (encrypt_block_length (xor_block (block_at padded n) prev_C) K IV
                (Z.of_nat n) R (selectors km) (sboxes km) (roundKeys km)) as L.
  destruct (encrypt_block _ _ _ _ _ _ _ _) as [C R']. cbn [fst] in L.
  rewrite length_app, L, IH. lia.
Qed.

Lemma padded_blocks (plaintext : list Z) :
  (length (pkcs7_pad plaintext 32) / 32)%nat = (length plaintext / 32 + 1)%nat.
Proof.
  rewrite pkcs7_pad_length, Nat.mul_comm. apply Nat.div_mul. lia.
Qed.

Lemma RUC_CTR_Encrypt_NoNonce_length (plaintext K IV : list Z) :
  length (RUC_CTR_Encrypt_NoNonce plaintext K IV)
  = (32 * (length plaintext / 32 + 1))%nat.
Proof.
  unfold RUC_CTR_Encrypt_NoNonce.
  rewrite ctr_encrypt_loop_length, padded_blocks. lia.
Qed.

Lemma RUC_CTR_NoNonce_round_trip (plaintext K IV : list Z) :
  RUC_CTR_Decrypt_NoNonce (RUC_CTR_Encrypt_NoNonce plaintext K IV) K IV
  = Returned plaintext.
Proof.
  unfold RUC_CTR_Decrypt_NoNonce.
  rewrite RUC_CTR_Encrypt_NoNonce_length.
  replace (32 * (length plaintext / 32 + 1) / 32)%nat
    with (length plaintext / 32 + 1)%nat
    by (rewrite Nat.mul_comm, Nat.div_mul; lia).
  unfold RUC_CTR_Encrypt_NoNonce. rewrite padded_blocks.
  rewrite ctr_loop_round_trip_all by (rewrite pkcs7_pad_length; lia).
  rewrite blocks_from_all by (rewrite pkcs7_pad_length; lia).
  cbn [Nat.mul skipn]. apply pkcs7_unpad_pad.
Qed.

Lemma RUC_CTR_round_trip (plaintext K nonce : list Z) :
  length nonce = 16%nat ->
  RUC_CTR_Decrypt (RUC_CTR_Encrypt plaintext K nonce) K = Returned plaintext.
Proof.
  intros Hn. unfold RUC_CTR_Decrypt, RUC_CTR_Encrypt.
  rewrite length_app, RUC_CTR_Encrypt_NoNonce_length, Hn.
  unfold BYTES.NONCE, BYTES.BLOCK.
  replace (16 + 32 * (length plaintext / 32 + 1) <? 16 + 32)%nat with false
    by (symmetry; apply Nat.ltb_ge; lia).
  replace ((16 + 32 * (length plaintext / 32 + 1) - 16) mod 32 =? 0)%nat with true.
  2:{ symmetry. apply Nat.eqb_eq.
      replace (16 + 32 * (length plaintext / 32 + 1) - 16)%nat
        with ((length plaintext / 32 + 1) * 32)%nat by lia.
      apply Nat.Div0.mod_mul. }
  cbn [orb negb].
  rewrite (firstn_app_exact nonce _ 16 Hn), (skipn_app_exact nonce _ 16 Hn).
  apply RUC_CTR_NoNonce_round_trip.
Qed.

Lemma RUC_CBC_round_trip (plaintext K IV : list Z) :
  length IV = 32%nat ->
  RUC_CBC_Decrypt (RUC_CBC_Encrypt plaintext K IV) K = Returned plaintext.
Proof.
  intros Hi. unfold RUC_CBC_Decrypt, RUC_CBC_Encrypt.
  rewrite length_app, cbc_encrypt_loop_length, padded_blocks, Hi.
  unfold BYTES.IV, BYTES.BLOCK.
  replace (32 + (length plaintext / 32 + 1) * 32 <? 32 + 32)%nat with false
    by (symmetry; apply Nat.ltb_ge; lia).
  replace ((32 + (length plaintext / 32 + 1) * 32 - 32) mod 32 =? 0)%nat with true.
  2:{ symmetry. apply Nat.eqb_eq.
      replace (32 + (length plaintext / 32 + 1) * 32 - 32)%nat
        with ((length plaintext / 32 + 1) * 32)%nat by lia.
      apply Nat.Div0.mod_mul. }
  cbn [orb negb].
  rewrite (firstn_app_exact IV _ 32 Hi), (skipn_app_exact IV _ 32 Hi).
  rewrite cbc_encrypt_loop_length, Nat.div_mul by lia.
  rewrite cbc_loop_round_trip_all by (rewrite pkcs7_pad_length; lia).
  rewrite blocks_from_all by (rewrite pkcs7_pad_length; lia).
  cbn [Nat.mul skipn]. apply pkcs7_unpad_pad.
Qed.

End WithPrimitives.
End Modes.

(** ** Authenticated encryption (README, "RUC-GCM") *)

Module AEAD.

Import KeySchedule Engine Modes.

(** The width of the tag: RUC_GCM_Encrypt of README returns
    [tag: bytes[16]].  aead.ts is not part of the tree; the comments of
    encryptWithPasswordAEAD and of aead.test.ts, which speak of a 32-byte
    tag, are about that file. *)
Definition TAG_BYTES : nat := 16.

(** Modelled from the spec: README calls [pad_to_128bit_boundary] without
    defining it; zero bytes up to the next multiple of 16 (pad16). *)
Definition pad_to_128bit_boundary (b : list Z) : list Z :=
  b ++ repeat 0 ((16 - length b mod 16) mod 16).

(** Modelled from the spec: the constant-time comparison of the tags,
    [diff |= a[i] ^ b[i]] over the whole length, then one test. *)
Definition constant_time_equal (a b : list Z) : bool :=
  (length a =? length b)%nat
  && (fold_left (fun diff xy => Z.lor diff (Z.lxor (fst xy) (snd xy)))
                (combine a b) 0 =? 0).

Section WithPrimitives.
Context {prims : Primitives}.

(** README calls [GHASH(H, ghash_input)] without defining it. *)
Variable GHASH : Z -> list Z -> Z.

(** Modelled from the spec: README calls [encrypt_single_block_ctr] without
    defining it; "the encryption of the zero-counter block" is the block
    transform applied to a zero block under the state of counter [n]. *)
Definition encrypt_single_block_ctr (enc_key nonce : list Z) (n : nat) : list Z :=
  let IV := SHAKE256 (nonce ++ ascii_bytes "RUC-GCM-IV") 32 in
  let km := key_expand enc_key in
  let R_init := mix_iv_into_state (registers km) IV in
  fst (encrypt_block (repeat 0 32) enc_key IV (Z.of_nat n) (counter_state R_init n)
                     (selectors km) (sboxes km) (roundKeys km)).

Definition authentication_tag (enc_key auth_key nonce aad ciphertext : list Z)
  : list Z :=
  let H := bytes_to_int auth_key in
  let ghash_input :=
    pad_to_128bit_boundary aad ++ pad_to_128bit_boundary ciphertext in
  let ghash_input :=
    ghash_input ++ int_to_bytes (Z.of_nat (length aad) * 8) 8
                ++ int_to_bytes (Z.of_nat (length ciphertext) * 8) 8 in
  let ghash_result := GHASH H ghash_input in
  let counter0_block := encrypt_single_block_ctr enc_key nonce 0 in
  int_to_bytes (Z.lxor ghash_result (bytes_to_int (firstn 16 counter0_block))) 16.

(** The envelope is the two results of README's RUC_GCM_Encrypt end to end.
    README declares the nonce as 12 bytes and uses it as a byte string only;
    [aeadEncrypt] passes the 16 bytes of [BYTES.NONCE]. *)
Definition RUC_GCM_Encrypt (plaintext K nonce aad : list Z) : list Z :=
  let enc_key := SHAKE256 (K ++ ascii_bytes "RUC-GCM-ENC") 64 in
  let auth_key := SHAKE256 (K ++ ascii_bytes "RUC-GCM-AUTH") 32 in
  let IV := SHAKE256 (nonce ++ ascii_bytes "RUC-GCM-IV") 32 in
  let ciphertext := RUC_CTR_Encrypt_NoNonce plaintext enc_key IV in
  let tag := authentication_tag enc_key auth_key nonce aad ciphertext in
  (nonce ++ ciphertext) ++ tag.

(** Modelled from the spec: the tag is computed first and compared in
    constant time; a mismatch fails before anything is decrypted. *)
Definition RUC_GCM_Decrypt (envelope K aad : list Z) : outcome (list Z) :=
  if (length envelope <? BYTES.NONCE + BYTES.BLOCK + TAG_BYTES)%nat
     || negb ((length envelope - BYTES.NONCE - TAG_BYTES) mod BYTES.BLOCK =? 0)%nat
  then Thrown "InvalidCiphertextLength"
  else
    let nonce := firstn BYTES.NONCE envelope in
    let ciphertext :=
      firstn (length envelope - BYTES.NONCE - TAG_BYTES)
             (skipn BYTES.NONCE envelope) in
    let tag := skipn (length envelope - TAG_BYTES) envelope in
    let enc_key := SHAKE256 (K ++ ascii_bytes "RUC-GCM-ENC") 64 in
    let auth_key := SHAKE256 (K ++ ascii_bytes "RUC-GCM-AUTH") 32 in
    let IV := SHAKE256 (nonce ++ ascii_bytes "RUC-GCM-IV") 32 in
    let expected := authentication_tag enc_key auth_key nonce aad ciphertext in
    if negb (constant_time_equal expected tag)
    then Thrown "Authentication failed"
    else RUC_CTR_Decrypt_NoNonce ciphertext enc_key IV.

Lemma int_to_bytes_length (n : Z) (len : nat) : length (int_to_bytes n len) = len.
Proof. unfold int_to_bytes. rewrite length_map, length_seq. reflexivity. Qed.

Lemma authentication_tag_length (enc_key auth_key nonce aad ciphertext : list Z) :
  length (authentication_tag enc_key auth_key nonce aad ciphertext) = TAG_BYTES.
Proof. unfold authentication_tag. apply int_to_bytes_length. Qed.

Lemma constant_time_equal_refl (a : list Z) : constant_time_equal a a = true.
Proof.
  unfold constant_time_equal. rewrite Nat.eqb_refl. cbn [andb].
  assert (H : forall d, fold_left (fun diff xy => Z.lor diff (Z.lxor (fst xy) (snd xy)))
                                  (combine a a) d = d).
  { induction a as [|x a IH]; intros d; cbn; [reflexivity|].
    rewrite Z.lxor_nilpotent, Z.lor_0_r. apply IH. }
  rewrite H. reflexivity.
Qed.

Lemma constant_time_equal_eq (a b : list Z) :
  constant_time_equal a b = true -> a = b.
Proof.
  unfold constant_time_equal. intros H. apply andb_prop in H.
  destruct H as [Hl Hd]. apply Nat.eqb_eq in Hl. apply Z.eqb_eq in Hd.
  assert (G : forall d, fold_left (fun diff xy => Z.lor diff (Z.lxor (fst xy) (snd xy)))
                                  (combine a b) d = 0 -> d = 0 /\ a = b).
  { clear Hd. revert b Hl. induction a as [|x a IH]; intros [|y b] Hl d Hd;
      try discriminate; cbn in *; [auto|].
    destruct (IH b ltac:(lia) _ Hd) as [E ->].
    apply Z.lor_eq_0_iff in E. destruct E as [-> E].
    apply Z.lxor_eq in E. subst. auto. }
  apply (G 0 Hd).
Qed.

Lemma RUC_GCM_Encrypt_length (plaintext K nonce aad : list Z) :
  length (RUC_GCM_Encrypt plaintext K nonce aad)
  = (length nonce + 32 * (length plaintext / 32 + 1) + TAG_BYTES)%nat.
Proof.
  unfold RUC_GCM_Encrypt.
  rewrite !length_app, RUC_CTR_Encrypt_NoNonce_length, authentication_tag_length.
  reflexivity.
Qed.

Lemma RUC_GCM_round_trip (plaintext K nonce aad : list Z) :
  length nonce = 16%nat ->
  RUC_GCM_Decrypt (RUC_GCM_Encrypt plaintext K nonce aad) K aad = Returned plaintext.
Proof.
  intros Hn. unfold RUC_GCM_Decrypt.
  rewrite RUC_GCM_Encrypt_length, Hn.
  unfold BYTES.NONCE, BYTES.BLOCK, TAG_BYTES.
  set (b := (length plaintext / 32 + 1)%nat).
  replace (16 + 32 * b + 16 <? 16 + 32 + 16)%nat with false
    by (symmetry; apply Nat.ltb_ge; lia).
  replace ((16 + 32 * b + 16 - 16 - 16) mod 32 =? 0)%nat with true.
  2:{ symmetry. apply Nat.eqb_eq.
      replace (16 + 32 * b + 16 - 16 - 16)%nat with (b * 32)%nat by lia.
      apply Nat.Div0.mod_mul. }
  cbn [orb negb].
  replace (16 + 32 * b + 16 - 16 - 16)%nat with (32 * b)%nat by lia.
  replace (16 + 32 * b + 16 - 16)%nat with (16 + 32 * b)%nat by lia.
  unfold RUC_GCM_Encrypt.
  set (enc_key := SHAKE256 (K ++ ascii_bytes "RUC-GCM-ENC") 64).
  set (auth_key := SHAKE256 (K ++ ascii_bytes "RUC-GCM-AUTH") 32).
  set (IV := SHAKE256 (nonce ++ ascii_bytes "RUC-GCM-IV") 32).
  set (ciphertext := RUC_CTR_Encrypt_NoNonce plaintext enc_key IV).
  set (tag := authentication_tag enc_key auth_key nonce aad ciphertext).
  assert (Lc : length ciphertext = (32 * b)%nat)
    by apply RUC_CTR_Encrypt_NoNonce_length.
  rewrite <- (app_assoc nonce ciphertext tag).
  rewrite (firstn_app_exact nonce _ 16 Hn), (skipn_app_exact nonce _ 16 Hn).
  rewrite (firstn_app_exact ciphertext _ _ Lc).
  rewrite (app_assoc nonce ciphertext tag).
  rewrite (skipn_app_exact (nonce ++ ciphertext) tag)
    by (rewrite length_app; lia).
  fold IV. fold tag. rewrite constant_time_equal_refl. cbn [negb].
  apply RUC_CTR_NoNonce_round_trip.
Qed.

(** A tag other than the recomputed one is refused. *)
Lemma RUC_GCM_Decrypt_tag_mismatch (nonce ciphertext tag tag' K aad : list Z) :
  length nonce = 16%nat -> length tag = TAG_BYTES -> length tag' = TAG_BYTES ->
  (32 <= length ciphertext)%nat -> (length ciphertext mod 32 = 0)%nat ->
  RUC_GCM_Decrypt (nonce ++ ciphertext ++ tag) K aad <> Thrown "Authentication failed" ->
  tag' <> tag ->
  RUC_GCM_Decrypt (nonce ++ ciphertext ++ tag') K aad = Thrown "Authentication failed".
Proof.
  intros Hn Ht Ht' Hc Hm Hok Hne.
  assert (P : forall t, length t = TAG_BYTES ->
    RUC_GCM_Decrypt (nonce ++ ciphertext ++ t) K aad
    = let enc_key := SHAKE256 (K ++ ascii_bytes "RUC-GCM-ENC") 64 in
      let auth_key := SHAKE256 (K ++ ascii_bytes "RUC-GCM-AUTH") 32 in
      let IV := SHAKE256 (nonce ++ ascii_bytes "RUC-GCM-IV") 32 in
      if negb (constant_time_equal
                 (authentication_tag enc_key auth_key nonce aad ciphertext) t)
      then Thrown "Authentication failed"
      else RUC_CTR_Decrypt_NoNonce ciphertext enc_key IV).
  { intros t Hl. unfold RUC_GCM_Decrypt.
    rewrite !length_app, Hn, Hl. unfold BYTES.NONCE, BYTES.BLOCK, TAG_BYTES.
    replace (16 + (length ciphertext + 16) <? 16 + 32 + 16)%nat with false
      by (symmetry; apply Nat.ltb_ge; lia).
    replace (16 + (length ciphertext + 16) - 16 - 16)%nat
      with (length ciphertext) by lia.
    rewrite Hm. cbn [Nat.eqb orb negb].
    rewrite (firstn_app_exact nonce _ 16 Hn), (skipn_app_exact nonce _ 16 Hn).
    rewrite (firstn_app_exact ciphertext _ _ eq_refl).
    rewrite (app_assoc nonce ciphertext t).
    rewrite (skipn_app_exact (nonce ++ ciphertext) t)
      by (rewrite length_app; lia).
    reflexivity. }
  rewrite (P tag Ht) in Hok. rewrite (P tag' Ht'). cbv zeta in *.
  destruct (constant_time_equal _ tag) eqn:E; cbn [negb] in Hok; [|congruence].
  destruct (constant_time_equal _ tag') eqn:E'; cbn [negb]; [|reflexivity].
  apply constant_time_equal_eq in E, E'. congruence.
Qed.

End WithPrimitives.
End AEAD.

(** ** The entry points of the modes (encryptCTR .. aeadDecrypt, as the tests
    and cipher/index.ts call them) *)

Module API.

Import KeySchedule Engine Modes AEAD.

(** The platform's random source: an endless supply of bytes and how far it
    has been read. *)
Record entropy : Type := {
  source : nat -> Z;
  cursor : nat
}.

Definition randomBytes (n : nat) (e : entropy) : list Z * entropy :=
  (map (fun i => source e i mod 256) (seq (cursor e) n),
   {| source := source e; cursor := (cursor e + n)%nat |}).

Lemma randomBytes_length (n : nat) (e : entropy) : length (fst (randomBytes n e)) = n.
Proof. unfold randomBytes. cbn [fst]. rewrite length_map, length_seq. reflexivity. Qed.

Section WithPrimitives.
Context {prims : Primitives}.
Variable GHASH : Z -> list Z -> Z.

(** Modelled from the spec: modes.ts and aead.ts are not part of the tree.
    Each entry point rejects a key or a nonce of the wrong length first
    (section 7); an omitted nonce or IV is drawn at random, as the doc comment
    of [RandomUniverseCipher.encrypt] says. *)
Definition encryptCTR (plaintext key : list Z) (nonce : option (list Z))
    (e : entropy) : outcome (list Z) * entropy :=
  if negb (length key =? BYTES.KEY)%nat then (Thrown "InvalidKeyLength", e)
  else
    match nonce with
    | Some nonce =>
        if negb (length nonce =? BYTES.NONCE)%nat
        then (Thrown "InvalidNonceLength", e)
        else (Returned (RUC_CTR_Encrypt plaintext key nonce), e)
    | None =>
        let '(nonce, e) := randomBytes BYTES.NONCE e in
        (Returned (RUC_CTR_Encrypt plaintext key nonce), e)
    end.

(** Modelled from the spec: decryptCTR of modes.ts, the counterpart of
    [encryptCTR] on the envelope [nonce || ciphertext]. *)
Definition decryptCTR (ciphertext key : list Z) : outcome (list Z) :=
  if negb (length key =? BYTES.KEY)%nat then Thrown "InvalidKeyLength"
  else RUC_CTR_Decrypt ciphertext key.

(** Modelled from the spec: encryptCBC of modes.ts, with the 32-byte IV
    given or drawn at random. *)
Definition encryptCBC (plaintext key : list Z) (iv : option (list Z))
    (e : entropy) : outcome (list Z) * entropy :=
  if negb (length key =? BYTES.KEY)%nat then (Thrown "InvalidKeyLength", e)
  else
    match iv with
    | Some iv =>
        if negb (length iv =? BYTES.IV)%nat
        then (Thrown "InvalidIVLength", e)
        else (Returned (RUC_CBC_Encrypt plaintext key iv), e)
    | None =>
        let '(iv, e) := randomBytes BYTES.IV e in
        (Returned (RUC_CBC_Encrypt plaintext key iv), e)
    end.

(** Modelled from the spec: decryptCBC of modes.ts, on the envelope
    [IV || ciphertext]. *)
Definition decryptCBC (ciphertext key : list Z) : outcome (list Z) :=
  if negb (length key =? BYTES.KEY)%nat then Thrown "InvalidKeyLength"
  else RUC_CBC_Decrypt ciphertext key.

Definition ad_bytes (associatedData : option (list Z)) : list Z :=
  match associatedData with
  | Some ad => ad
  | None => []
  end.

(** Modelled from the spec: aeadEncrypt of aead.ts; the nonce is drawn at
    random and absent associated data counts as empty. *)
Definition aeadEncrypt (plaintext key : list Z) (associatedData : option (list Z))
    (e : entropy) : outcome (list Z) * entropy :=
  if negb (length key =? BYTES.KEY)%nat then (Thrown "InvalidKeyLength", e)
  else
    let '(nonce, e) := randomBytes BYTES.NONCE e in
    (Returned (RUC_GCM_Encrypt GHASH plaintext key nonce (ad_bytes associatedData)), e).

(** Modelled from the spec: aeadDecrypt of aead.ts. *)
Definition aeadDecrypt (ciphertext key : list Z) (associatedData : option (list Z))
  : outcome (list Z) :=
  if negb (length key =? BYTES.KEY)%nat then Thrown "InvalidKeyLength"
  else RUC_GCM_Decrypt GHASH ciphertext key (ad_bytes associatedData).

(** *** Round trip *)

Definition nonce_ok (size : nat) (nonce : option (list Z)) : Prop :=
  match nonce with
  | Some nonce => length nonce = size
  | None => True
  end.

Lemma encryptCTR_decryptCTR (K message : list Z) (nonce : option (list Z))
    (e : entropy) :
  length K = 64%nat -> nonce_ok 16 nonce ->
  exists envelope e',
    encryptCTR message K nonce e = (Returned envelope, e')
    /\ decryptCTR envelope K = Returned message.
Proof.
  intros HK Hn. unfold encryptCTR, decryptCTR. rewrite HK. cbn [Nat.eqb negb BYTES.KEY].
  destruct nonce as [nonce|]; cbn [nonce_ok] in Hn.
  - rewrite Hn. cbn [Nat.eqb negb BYTES.NONCE].
    eexists. eexists. split; [reflexivity|]. apply RUC_CTR_round_trip, Hn.
  - pose proof (randomBytes_length BYTES.NONCE e) as L.
    destruct (randomBytes BYTES.NONCE e) as [nonce e']. cbn [fst] in L.
    eexists. eexists. split; [reflexivity|]. apply RUC_CTR_round_trip, L.
Qed.

Lemma encryptCBC_decryptCBC (K message : list Z) (iv : option (list Z))
    (e : entropy) :
  length K = 64%nat -> nonce_ok 32 iv ->
  exists envelope e',
    encryptCBC message K iv e = (Returned envelope, e')
    /\ decryptCBC envelope K = Returned message.
Proof.
  intros HK Hn. unfold encryptCBC, decryptCBC. rewrite HK. cbn [Nat.eqb negb BYTES.KEY].
  destruct iv as [iv|]; cbn [nonce_ok] in Hn.
  - rewrite Hn. cbn [Nat.eqb negb BYTES.IV].
    eexists. eexists. split; [reflexivity|]. apply RUC_CBC_round_trip, Hn.
  - pose proof (randomBytes_length BYTES.IV e) as L.
    destruct (randomBytes BYTES.IV e) as [iv e']. cbn [fst] in L.
    eexists. eexists. split; [reflexivity|]. apply RUC_CBC_round_trip, L.
Qed.

(** The envelope of [aeadEncrypt]: the nonce, the padded ciphertext and the
    tag. *)
Lemma aeadEncrypt_envelope (K message : list Z) (associatedData : option (list Z))
    (e : entropy) :
  length K = 64%nat ->
  exists nonce ciphertext tag e',
    aeadEncrypt message K associatedData e
      = (Returned (nonce ++ ciphertext ++ tag), e')
    /\ length nonce = 16%nat
    /\ length ciphertext = (32 * (length message / 32 + 1))%nat
    /\ length tag = 16%nat
    /\ aeadDecrypt (nonce ++ ciphertext ++ tag) K associatedData = Returned message.
Proof.
  intros HK. unfold aeadEncrypt, aeadDecrypt. rewrite HK.
  cbn [Nat.eqb negb BYTES.KEY].
  pose proof (randomBytes_length BYTES.NONCE e) as L.
  destruct (randomBytes BYTES.NONCE e) as [nonce e']. cbn [fst] in L.
  pose proof (RUC_GCM_round_trip GHASH message K nonce (ad_bytes associatedData) L)
    as RT.
  unfold RUC_GCM_Encrypt in *. rewrite <- app_assoc in *.
  eexists. eexists. eexists. eexists.
  split; [reflexivity|]. split; [exact L|].
  split; [apply RUC_CTR_Encrypt_NoNonce_length|].
  split; [apply authentication_tag_length|exact RT].
Qed.

(** C2: with a 64-byte key and a message of at most 10*32+17 bytes, each of
    CTR, CBC and AEAD encryption returns an envelope, and decrypting that
    envelope with the same key (and, for AEAD, the same associated data) returns
    the message. *)
Theorem decrypt_after_encrypt (K message : list Z) (nonce iv : option (list Z))
    (associatedData : option (list Z)) (e : entropy) :
  length K = 64%nat -> (length message <= 10 * 32 + 17)%nat ->
  nonce_ok 16 nonce -> nonce_ok 32 iv ->
  (exists envelope e',
      encryptCTR message K nonce e = (Returned envelope, e')
      /\ decryptCTR envelope K = Returned message)
  /\ (exists envelope e',
      encryptCBC message K iv e = (Returned envelope, e')
      /\ decryptCBC envelope K = Returned message)
  /\ (exists envelope e',
      aeadEncrypt message K associatedData e = (Returned envelope, e')
      /\ aeadDecrypt envelope K associatedData = Returned message).
Proof.
  intros HK _ Hn Hi.
  split; [apply encryptCTR_decryptCTR; assumption|].
  split; [apply encryptCBC_decryptCBC; assumption|].
  destruct (aeadEncrypt_envelope K message associatedData e HK)
    as (n & c & t & e' & E & _ & _ & _ & D).
  exists (n ++ c ++ t), e'. split; assumption.
Qed.


(** *** The keystream of counter mode *)



End WithPrimitives.

(** The random source that only ever yields zero bytes. *)
Definition zero_entropy : entropy := {| source := fun _ => 0; cursor := 0 |}.

(** The plaintext of the envelope test of aead.test.ts. *)
Definition Test_bytes : list Z := ascii_bytes "Test".

Lemma decrypt_after_encrypt_witness :
  (exists envelope e',
      encryptCTR Test_bytes test_vector_key None zero_entropy = (Returned envelope, e')
      /\ decryptCTR envelope test_vector_key = Returned Test_bytes)
  /\ (exists envelope e',
      encryptCBC Test_bytes test_vector_key None zero_entropy = (Returned envelope, e')
      /\ decryptCBC envelope test_vector_key = Returned Test_bytes)
  /\ (exists envelope e',
      aeadEncrypt (fun _ _ => 0) Test_bytes test_vector_key None zero_entropy
        = (Returned envelope, e')
      /\ aeadDecrypt (fun _ _ => 0) envelope test_vector_key None = Returned Test_bytes).
Proof.
  apply (decrypt_after_encrypt (fun _ _ => 0) test_vector_key Test_bytes None None
           None zero_entropy); cbn; auto; lia.
Defined.


End API.

(** ** The register arrays as objects (README: "State registers (modified in
    place)", [deep_copy]) *)

Module InPlace.

Import KeySchedule.

(** README hands the register array [R] to [mix_iv_into_state] and to
    [encrypt_block] by reference, both modify it in place, and counter mode
    works on a [deep_copy] of [R_init] for every block.  Here the arrays live
    in a store and a reference is the position of its array; what a call finds
    in the store is whatever earlier calls have left there. *)
Definition ref : Type := nat.
Definition store : Type := list (list Z).

Definition deref (h : store) (r : ref) : list Z := nth r h [].

Definition assign (h : store) (r : ref) (R : list Z) : store := upd h r R.

Definition new_array (R : list Z) (h : store) : ref * store := (length h, h ++ [R]).

Definition deep_copy (r : ref) (h : store) : ref * store := new_array (deref h r) h.


Section WithPrimitives.
Context {prims : Primitives}.

(** [(R, SEL, S, RK) = key_expand(K)]: the registers are a new array. *)
Definition key_expand (K : list Z) (h : store) : ref * KeyMaterial * store :=
  let km := KeySchedule.key_expand K in
  let '(R, h) := new_array (registers km) h in
  (R, km, h).

(** [mix_iv_into_state(R, IV)], on the array [R] refers to. *)
Definition mix_iv_into_state (R : ref) (IV : list Z) (h : store) : store :=
  assign h R (Engine.mix_iv_into_state (deref h R) IV).

(** [encrypt_block(P, K, IV, n, R, SEL, S, RK)]: the ciphertext block is
    returned and the array [R] refers to holds the registers after Step 6. *)
Definition encrypt_block (P K IV : list Z) (n : Z) (R : ref) (SEL : list Z)
    (S : list (list Z)) (RK : list Z) (h : store) : list Z * store :=
  let '(C, R') := Engine.encrypt_block P K IV n (deref h R) SEL S RK in
  (C, assign h R R').

(** The block loop of RUC-CTR. *)
Fixpoint ctr_encrypt_loop (count n : nat) (padded K IV : list Z) (R_init : ref)
    (km : KeyMaterial) (h : store) : list Z * store :=
  match count with
  | O => ([], h)
  | S count' =>
      let '(R, h) := deep_copy R_init h in
      let counter_bytes := int_to_bytes (Z.of_nat n) 8 in
      let h :=
        assign h R
          (Engine.xor_into (deref h R) 0
             (bytes_to_int (SHAKE256 (counter_bytes ++ ascii_bytes "CTR") 64))) in
      let P := Modes.block_at padded n in
      let '(C, h) :=
        encrypt_block P K IV (Z.of_nat n) R (selectors km) (sboxes km) (roundKeys km) h in
      let '(ciphertext, h) := ctr_encrypt_loop count' (S n) padded K IV R_init km h in
      (C ++ ciphertext, h)
  end.

Definition RUC_CTR_Encrypt (plaintext K nonce : list Z) (h : store)
  : list Z * store :=
  let IV := SHAKE256 (nonce ++ ascii_bytes "RUC-CTR-IV") 32 in
  let '(R_init, km, h) := key_expand K h in
  let h := mix_iv_into_state R_init IV h in
  let padded := Modes.pkcs7_pad plaintext 32 in
  let num_blocks := (length padded / 32)%nat in
  let '(ciphertext, h) := ctr_encrypt_loop num_blocks 0 padded K IV R_init km h in
  (nonce ++ ciphertext, h).

(** The block loop of RUC-CBC: every block works on the one array [R]. *)
Fixpoint cbc_encrypt_loop (count n : nat) (padded K IV : list Z) (prev_C : list Z)
    (R : ref) (km : KeyMaterial) (h : store) : list Z * store :=
  match count with
  | O => ([], h)
  | S count' =>
      let P := Modes.block_at padded n in
      let P_xor := Engine.xor_block P prev_C in
      let '(C, h) :=
        encrypt_block P_xor K IV (Z.of_nat n) R (selectors km) (sboxes km)
                      (roundKeys km) h in
      let '(ciphertext, h) := cbc_encrypt_loop count' (S n) padded K IV C R km h in
      (C ++ ciphertext, h)
  end.

Definition RUC_CBC_Encrypt (plaintext K IV : list Z) (h : store) : list Z * store :=
  let '(R, km, h) := key_expand K h in
  let h := mix_iv_into_state R IV h in
  let padded := Modes.pkcs7_pad plaintext 32 in
  let num_blocks := (length padded / 32)%nat in
  let '(ciphertext, h) := cbc_encrypt_loop num_blocks 0 padded K IV IV R km h in
  (IV ++ ciphertext, h).

End WithPrimitives.

(** *** The store *)








Section Facts.
Context {prims : Primitives}.

(** *** Counter mode *)



(** *** Chaining mode *)








End Facts.



End InPlace.

(** ** The generator on the all-zero key *)

Module ZeroKey.

Import SBox.

Definition zero_key : list Z := repeat 0 64.

(** Row 1 or, failing that, row 2 of the difference table of every
    candidate has an entry above 4. *)
Lemma all_rejected_by_row :
  forallb
    (fun k =>
       let sbox := candidate zero_key 0 k in
       if 4 <? fold_max (ddt_row sbox 1) 0 then true
       else 4 <? fold_max (ddt_row sbox 2) 0)
    (Zrange 0 101) = true.
Proof. vm_compute. reflexivity. Qed.

Lemma every_attempt_rejected (k : Z) :
  0 <= k <= 100 -> verify_sbox_properties (candidate zero_key 0 k) = false.
Proof.
  intros Hk.
  pose proof (Zrange_forallb _ 0 101 all_rejected_by_row k ltac:(lia)) as H.
  cbv beta zeta in H.
  destruct (4 <? fold_max (ddt_row (candidate zero_key 0 k) 1) 0) eqn:E.
  - eapply row_rejects; [|exact E]. lia.
  - eapply row_rejects; [|exact H]. lia.
Qed.

Lemma generate_sbox_last_candidate :
  generate_sbox zero_key 0 = candidate zero_key 0 100.
Proof. apply generate_sbox_exhausted, every_attempt_rejected. Qed.

Definition last_candidate : list Z := Eval vm_compute in candidate zero_key 0 100.

Lemma last_candidate_eq : candidate zero_key 0 100 = last_candidate.
Proof. vm_compute. reflexivity. Qed.

Example last_candidate_head : firstn 4 last_candidate = [149; 56; 121; 87].
Proof. vm_compute. reflexivity. Qed.

(** C3: on the all-zero key and round 0 each of the 101 attempts (the first
    request and the retries 1..100) is rejected by the acceptance tests, and
    the generator still returns an S-box: the candidate of retry 100. *)
Theorem generate_sbox_returns_on_exhaustion :
  Forall (fun k => verify_sbox_properties (candidate zero_key 0 k) = false)
         (Zrange 0 101)
  /\ generate_sbox zero_key 0 = last_candidate
  /\ length (generate_sbox zero_key 0) = 256%nat.
Proof.
  split; [|split].
  - apply Forall_forall. intros k Hk. apply every_attempt_rejected.
    unfold Zrange in Hk. apply in_map_iff in Hk.
    destruct Hk as (i & <- & Hi). apply in_seq in Hi. lia.
  - rewrite generate_sbox_last_candidate. apply last_candidate_eq.
  - rewrite generate_sbox_last_candidate, last_candidate_eq.
    vm_compute. reflexivity.
Qed.

(** C4: the S-box the generator produces for the all-zero key and round 0 is
    a permutation of 0..255 whose differential uniformity is at least 10 (row
    51 of the difference table) and whose non-linearity is at most 94 (output
    mask 123), outside the strict bounds; the acceptance test rejects it. *)
Theorem generate_sbox_outside_strict_bounds :
  Permutation (generate_sbox zero_key 0) identity_permutation
  /\ 10 <= compute_differential_uniformity (generate_sbox zero_key 0)
  /\ compute_nonlinearity (generate_sbox zero_key 0) <= 94
  /\ verify_sbox_properties (generate_sbox zero_key 0) = false.
Proof.
  split; [apply generate_sbox_Permutation|].
  rewrite generate_sbox_last_candidate.
  split; [|split; [|apply every_attempt_rejected; lia]];
    rewrite last_candidate_eq.
  - eapply Z.le_trans; [|apply (ddt_row_le_uniformity last_candidate 51); lia].
    apply Z.leb_le. vm_compute. reflexivity.
  - eapply Z.le_trans; [apply (walsh_bounds_nonlinearity last_candidate 123); lia|].
    apply Z.leb_le. vm_compute. reflexivity.
Qed.

End ZeroKey.

(** * The code around the algorithms: helpers, the worker, the file reader and
    the demo page; what the acceptance tests of an S-box measure; invariants
    of the block transform *)

From Stdlib Require Import Sorted.

(** ** Lists, ranges and bytes: facts shared by the sections below *)

Module Basics.

Lemma Zrange_S (lo : Z) (n : nat) : Zrange lo (S n) = lo :: Zrange (lo + 1) n.
Proof.
  unfold Zrange. cbn [seq map]. f_equal; [lia|].
  rewrite <- seq_shift, map_map. apply map_ext. intros k. lia.
Qed.

Lemma Zrange_spec (lo : Z) (n : nat) (x : Z) :
  In x (Zrange lo n) <-> lo <= x < lo + Z.of_nat n.
Proof.
  split; [|apply Zrange_In].
  unfold Zrange. intros H. apply in_map_iff in H. destruct H as (k & <- & Hk).
  apply in_seq in Hk. lia.
Qed.

Lemma NoDup_Zrange (lo : Z) (n : nat) : NoDup (Zrange lo n).
Proof.
  revert lo. induction n as [|n IH]; intros lo; [constructor|].
  rewrite Zrange_S. constructor; [|apply IH].
  intros H. apply Zrange_spec in H. lia.
Qed.

Lemma nth_upd_same {A : Type} (l : list A) (i : nat) (x d : A) :
  (i < length l)%nat -> nth i (upd l i x) d = x.
Proof.
  revert i. induction l as [|h t IH]; intros [|i] H; cbn in *; try lia; auto.
  apply IH. lia.
Qed.

Lemma firstn_split {A : Type} (l : list A) (a b : nat) :
  firstn (a + b) l = firstn a l ++ firstn b (skipn a l).
Proof.
  revert l. induction a as [|a IH]; intros l; [reflexivity|].
  destruct l as [|x l]; cbn [firstn skipn Nat.add app].
  - rewrite firstn_nil. reflexivity.
  - rewrite IH. reflexivity.
Qed.

Lemma Forall_firstn {A : Type} (P : A -> Prop) (n : nat) (l : list A) :
  Forall P l -> Forall P (firstn n l).
Proof.
  intros H. rewrite <- (firstn_skipn n l) in H. apply Forall_app in H. apply H.
Qed.

Lemma Forall_skipn {A : Type} (P : A -> Prop) (n : nat) (l : list A) :
  Forall P l -> Forall P (skipn n l).
Proof.
  intros H. rewrite <- (firstn_skipn n l) in H. apply Forall_app in H. apply H.
Qed.

Lemma lxor_byte (a b : Z) : is_byte a -> is_byte b -> is_byte (Z.lxor a b).
Proof.
  intros Ha Hb.
  assert (H : ((0 <=? Z.lxor a b) && (Z.lxor a b <? 256))%bool = true).
  { apply (all_bytes_forallb2
             (fun a b => ((0 <=? Z.lxor a b) && (Z.lxor a b <? 256))%bool));
      [vm_compute; reflexivity|assumption|assumption]. }
  apply andb_prop in H. unfold is_byte. lia.
Qed.

Lemma nth_byte (l : list Z) (i : nat) : Forall is_byte l -> is_byte (nth i l 0).
Proof.
  intros H. destruct (nth_in_or_default i l 0) as [I|E].
  - rewrite Forall_forall in H. apply H, I.
  - rewrite E. unfold is_byte. lia.
Qed.

Lemma identity_bytes : Forall is_byte (Zrange 0 256).
Proof.
  apply Forall_forall. intros v I. apply Zrange_spec in I. unfold is_byte. lia.
Qed.

End Basics.

(** ** Big-endian conversions (README, "Byte Ordering Convention") *)

Module ByteOrder.

Lemma int_to_bytes_S (n : Z) (len : nat) :
  int_to_bytes n (S len) = int_to_bytes (Z.shiftr n 8) len ++ [Z.land n 0xFF].
Proof.
  unfold int_to_bytes. rewrite seq_S, map_app. cbn [map Nat.add]. f_equal.
  - apply map_ext_in. intros i Hi. apply in_seq in Hi.
    rewrite Z.shiftr_shiftr by lia. f_equal. f_equal. lia.
  - f_equal. f_equal. replace (8 * (Z.of_nat (S len) - 1 - Z.of_nat len)) with 0 by lia.
    apply Z.shiftr_0_r.
Qed.

Lemma bytes_to_int_snoc (l : list Z) (x : Z) :
  bytes_to_int (l ++ [x]) = bytes_to_int l * 256 + x.
Proof. unfold bytes_to_int. rewrite fold_left_app. reflexivity. Qed.

Lemma bytes_to_int_int_to_bytes (n : Z) (len : nat) :
  bytes_to_int (int_to_bytes n len) = n mod 2 ^ (8 * Z.of_nat len).
Proof.
  revert n. induction len as [|len IH]; intros n.
  - cbn. rewrite Z.mod_1_r. reflexivity.
  - rewrite int_to_bytes_S, bytes_to_int_snoc, IH.
    change 0xFF with (Z.ones 8). rewrite Z.land_ones, Z.shiftr_div_pow2 by lia.
    replace (8 * Z.of_nat (S len)) with (8 + 8 * Z.of_nat len) by lia.
    rewrite Z.pow_add_r by lia.
    rewrite Z.rem_mul_r by lia. lia.
Qed.

Lemma bytes_to_int_range (b : list Z) :
  Forall is_byte b -> 0 <= bytes_to_int b < 2 ^ (8 * Z.of_nat (length b)).
Proof.
  induction b as [|x l IH] using rev_ind; intros H.
  - cbn. lia.
  - apply Forall_app in H. destruct H as [Hl Hx]. inversion_clear Hx as [|? ? Hx' _].
    specialize (IH Hl). unfold is_byte in Hx'.
    rewrite bytes_to_int_snoc, length_app. cbn [length].
    replace (8 * Z.of_nat (length l + 1)) with (8 * Z.of_nat (length l) + 8) by lia.
    rewrite Z.pow_add_r by lia. change (2 ^ 8) with 256. nia.
Qed.

Lemma int_to_bytes_bytes_to_int (b : list Z) :
  Forall is_byte b -> int_to_bytes (bytes_to_int b) (length b) = b.
Proof.
  induction b as [|x l IH] using rev_ind; intros H; [reflexivity|].
  apply Forall_app in H. destruct H as [Hl Hx]. inversion_clear Hx as [|? ? Hx' _].
  unfold is_byte in Hx'.
  rewrite length_app. cbn [length]. rewrite Nat.add_1_r.
  rewrite int_to_bytes_S, bytes_to_int_snoc.
  change 0xFF with (Z.ones 8). rewrite Z.land_ones, Z.shiftr_div_pow2 by lia.
  change (2 ^ 8) with 256.
  replace ((bytes_to_int l * 256 + x) / 256) with (bytes_to_int l)
    by (apply (Z.div_unique _ _ _ x); lia).
  replace ((bytes_to_int l * 256 + x) mod 256) with x
    by (apply (Z.mod_unique _ _ (bytes_to_int l)); lia).
  rewrite (IH Hl). reflexivity.
Qed.

Lemma int_to_bytes_bytes (n : Z) (len : nat) : Forall is_byte (int_to_bytes n len).
Proof.
  unfold int_to_bytes. apply Forall_forall. intros x Hx.
  apply in_map_iff in Hx. destruct Hx as (i & <- & _).
  change 0xFF with (Z.ones 8). rewrite Z.land_ones by lia.
  unfold is_byte. change 256 with (2 ^ 8). apply Z.mod_pos_bound. lia.
Qed.

(** X1: The two conversions undo each other: writing an integer on [len] bytes
    and reading it back keeps its low 8 * len bits, and reading a byte string
    and writing it on as many bytes gives the string back. *)
Theorem byte_order_round_trip (n : Z) (len : nat) (b : list Z) :
  length (int_to_bytes n len) = len
  /\ Forall is_byte (int_to_bytes n len)
  /\ bytes_to_int (int_to_bytes n len) = n mod 2 ^ (8 * Z.of_nat len)
  /\ (Forall is_byte b ->
      0 <= bytes_to_int b < 2 ^ (8 * Z.of_nat (length b))
      /\ int_to_bytes (bytes_to_int b) (length b) = b).
Proof.
  split; [apply AEAD.int_to_bytes_length|].
  split; [apply int_to_bytes_bytes|].
  split; [apply bytes_to_int_int_to_bytes|].
  intros H. split; [apply bytes_to_int_range, H|apply int_to_bytes_bytes_to_int, H].
Qed.

End ByteOrder.

(** ** The SHAKE256 wrapper (cipher/shake256.ts) *)

Module Shake256Wrapper.

Section WithPrimitives.
Context {prims : Primitives}.

(** [stringToBytes] of bigint-utils.ts. *)
Variable stringToBytes : string -> list Z.

(** Modelled from the spec: bigint-utils.ts is not part of the tree;
    [concatBytes] joins its arguments end to end, the [||] of the spec's
    SHAKE256 inputs. *)
Definition concatBytes (arrays : list (list Z)) : list Z := concat arrays.

Definition shake256Hash (data : list Z) (outputLength : nat) : list Z :=
  SHAKE256 data outputLength.

(** [for (let i = 7; i >= 0; i--) { indexBytes[i] = Number(value & 0xffn);
    value >>= 8n; }] on [indexBytes = new Uint8Array(8)], [value = index]. *)
Definition index_bytes (index : Z) : list Z :=
  fst (fold_left
         (fun (st : list Z * Z) i =>
            let '(indexBytes, value) := st in
            (upd indexBytes i (Z.land value 0xff), Z.shiftr value 8))
         [7; 6; 5; 4; 3; 2; 1; 0]%nat
         (repeat 0 8, index)).

Definition shake256WithDomainBigInt (key : list Z) (domain : string) (index : Z)
    (outputLength : nat) : list Z :=
  let domainBytes := stringToBytes domain in
  let indexBytes := index_bytes index in
  let input := concatBytes [key; domainBytes; indexBytes] in
  SHAKE256 input outputLength.

Definition shake256Multi (components : list (list Z)) (outputLength : nat) : list Z :=
  let input := concatBytes components in
  SHAKE256 input outputLength.

Definition deriveKey (password : string + list Z) (salt : list Z) (outputLength : nat)
  : list Z :=
  let passwordBytes :=
    match password with
    | inl text => stringToBytes text
    | inr bytes => bytes
    end in
  let input := concatBytes [passwordBytes; salt] in
  SHAKE256 input outputLength.

Lemma index_bytes_int_to_bytes (index : Z) : index_bytes index = int_to_bytes index 8.
Proof.
  unfold index_bytes, int_to_bytes. cbn [fold_left upd repeat fst seq map].
  rewrite !Z.shiftr_shiftr by lia. cbn [Z.of_nat Pos.of_succ_nat Pos.succ].
  rewrite Z.shiftr_0_r. reflexivity.
Qed.

(** X2: The index enters the hash input as the 8 big-endian bytes of
    [index mod 2^64]: indices below 2^64 give different inputs, and an index
    2^64 higher gives the same digest. *)
Theorem shake256WithDomainBigInt_index (key : list Z) (domain : string)
    (index other : Z) (outputLength : nat) :
  shake256WithDomainBigInt key domain index outputLength
  = SHAKE256 (key ++ stringToBytes domain ++ int_to_bytes index 8) outputLength
  /\ bytes_to_int (index_bytes index) = index mod 2 ^ 64
  /\ (0 <= index < 2 ^ 64 -> 0 <= other < 2 ^ 64 ->
      index_bytes index = index_bytes other -> index = other)
  /\ shake256WithDomainBigInt key domain (index + 2 ^ 64) outputLength
     = shake256WithDomainBigInt key domain index outputLength.
Proof.
  assert (B : forall i, bytes_to_int (index_bytes i) = i mod 2 ^ 64).
  { intros i. rewrite index_bytes_int_to_bytes.
    apply (ByteOrder.bytes_to_int_int_to_bytes i 8). }
  split; [|split; [apply B|split]].
  - unfold shake256WithDomainBigInt, concatBytes. cbn [concat].
    rewrite app_nil_r, index_bytes_int_to_bytes. reflexivity.
  - intros Hi Ho E. apply (f_equal bytes_to_int) in E. rewrite !B in E.
    rewrite !Z.mod_small in E by assumption. exact E.
  - unfold shake256WithDomainBigInt. f_equal. f_equal. f_equal. f_equal.
    rewrite <- (ByteOrder.int_to_bytes_bytes_to_int (index_bytes (index + 2 ^ 64))),
            <- (ByteOrder.int_to_bytes_bytes_to_int (index_bytes index)).
    + rewrite !B. rewrite !index_bytes_int_to_bytes, !AEAD.int_to_bytes_length.
      f_equal. rewrite <- Z.add_mod_idemp_r, Z.mod_same, Z.add_0_r by lia. reflexivity.
    + rewrite index_bytes_int_to_bytes. apply ByteOrder.int_to_bytes_bytes.
    + rewrite index_bytes_int_to_bytes. apply ByteOrder.int_to_bytes_bytes.
Qed.

(** The pieces of a hash input are joined end to end with nothing between
    them and no lengths: bytes moved from the end of the password to the front
    of the salt leave the derived key unchanged, and so do bytes moved from
    one component of [shake256Multi] to the next. *)
Lemma hash_inputs_are_not_framed (password moved salt : list Z)
    (before after : list (list Z)) (outputLength : nat) :
  deriveKey (inr (password ++ moved)) salt outputLength
  = deriveKey (inr password) (moved ++ salt) outputLength
  /\ shake256Multi (before ++ [password ++ moved; salt] ++ after) outputLength
     = shake256Multi (before ++ [password; moved ++ salt] ++ after) outputLength.
Proof.
  unfold deriveKey, shake256Multi, concatBytes. split.
  - cbn [concat]. rewrite !app_nil_r, app_assoc. reflexivity.
  - rewrite !concat_app. cbn [concat]. rewrite <- !app_assoc. reflexivity.
Qed.

End WithPrimitives.
End Shake256Wrapper.

(** ** Ciphertexts are byte strings *)

Module Octets.

Import KeySchedule Engine Modes AEAD API Basics.

Lemma xor_block_bytes (a b : list Z) :
  Forall is_byte a -> Forall is_byte b -> Forall is_byte (xor_block a b).
Proof.
  intros Ha Hb. unfold xor_block. apply Forall_forall. intros x Hx.
  apply in_map_iff in Hx. destruct Hx as (i & <- & _).
  apply lxor_byte; apply nth_byte; assumption.
Qed.

Lemma pkcs7_pad_bytes (data : list Z) :
  Forall is_byte data -> Forall is_byte (pkcs7_pad data 32).
Proof.
  intros H. rewrite pkcs7_pad_eq. apply Forall_app. split; [exact H|].
  pose proof (padding_len_range (length data)) as R. cbv zeta in R.
  apply Forall_forall. intros x Hx. apply repeat_spec in Hx. subst x.
  unfold is_byte. lia.
Qed.

Lemma randomBytes_bytes (n : nat) (e : entropy) : Forall is_byte (fst (randomBytes n e)).
Proof.
  unfold randomBytes. cbn [fst]. apply Forall_forall. intros x Hx.
  apply in_map_iff in Hx. destruct Hx as (i & <- & _).
  unfold is_byte. apply Z.mod_pos_bound. lia.
Qed.

Section WithPrimitives.
Context {prims : Primitives}.
Variable GHASH : Z -> list Z -> Z.

Lemma encrypt_block_bytes (P K IV : list Z) (n : Z) (R SEL : list Z)
    (S : list (list Z)) (RK : list Z) :
  Forall is_byte P -> Forall is_byte (fst (encrypt_block P K IV n R SEL S RK)).
Proof.
  intros HP. unfold encrypt_block, block_keystream.
  destruct (fold_left _ _ _) as [R' ACC]. cbn [fst].
  apply xor_block_bytes; [exact HP|apply SHAKE256_bytes].
Qed.

Lemma ctr_encrypt_loop_bytes (count n : nat) (padded K IV R_init : list Z)
    (km : KeyMaterial) :
  Forall is_byte padded ->
  Forall is_byte (ctr_encrypt_loop count n padded K IV R_init km).
Proof.
  intros HP. revert n. induction count as [|count IH]; intros n; [constructor|].
  cbn [ctr_encrypt_loop].
  pose proof (encrypt_block_bytes (block_at padded n) K IV (Z.of_nat n)
                (counter_state R_init n) (selectors km) (sboxes km) (roundKeys km)
                ltac:(apply Forall_firstn, Forall_skipn, HP)) as B.
  destruct (encrypt_block _ _ _ _ _ _ _ _) as [C R']. cbn [fst] in B.
  apply Forall_app. split; [exact B|apply IH].
Qed.

Lemma RUC_GCM_Encrypt_bytes (plaintext K nonce aad : list Z) :
  Forall is_byte plaintext -> Forall is_byte nonce ->
  Forall is_byte (RUC_GCM_Encrypt GHASH plaintext K nonce aad).
Proof.
  intros HP HN. unfold RUC_GCM_Encrypt.
  apply Forall_app. split; [apply Forall_app; split; [exact HN|]|].
  - unfold RUC_CTR_Encrypt_NoNonce. apply ctr_encrypt_loop_bytes, pkcs7_pad_bytes, HP.
  - unfold authentication_tag. apply ByteOrder.int_to_bytes_bytes.
Qed.

(** What the password functions rely on, for the modes as modelled. *)
Lemma encryptCTR_contract (data key : list Z) (e : entropy) :
  length key = 64%nat ->
  exists envelope e',
    encryptCTR data key None e = (Returned envelope, e')
    /\ (48 <= length envelope)%nat
    /\ decryptCTR envelope key = Returned data.
Proof.
  intros HK.
  destruct (encryptCTR_decryptCTR key data None e HK I) as (envelope & e' & E & D).
  exists envelope, e'. split; [exact E|]. split; [|exact D].
  revert E. unfold encryptCTR. rewrite HK. cbn [Nat.eqb negb BYTES.KEY].
  pose proof (randomBytes_length BYTES.NONCE e) as L.
  destruct (randomBytes BYTES.NONCE e) as [nonce e1]. cbn [fst] in L.
  intros E. inversion E. unfold RUC_CTR_Encrypt.
  rewrite length_app, RUC_CTR_Encrypt_NoNonce_length, L. unfold BYTES.NONCE. lia.
Qed.

Lemma encryptCTR_bytes (data key : list Z) (e : entropy) (envelope : list Z)
    (e' : entropy) :
  Forall is_byte data -> encryptCTR data key None e = (Returned envelope, e') ->
  Forall is_byte envelope.
Proof.
  intros HD. unfold encryptCTR.
  destruct (negb (length key =? BYTES.KEY)%nat); [discriminate|].
  pose proof (randomBytes_bytes BYTES.NONCE e) as B.
  destruct (randomBytes BYTES.NONCE e) as [nonce e1]. cbn [fst] in B.
  intros E. inversion E. unfold RUC_CTR_Encrypt, RUC_CTR_Encrypt_NoNonce.
  apply Forall_app. split; [exact B|].
  apply ctr_encrypt_loop_bytes, pkcs7_pad_bytes, HD.
Qed.

(** With the 16-byte tag of README the envelope of [aeadEncrypt] has 64 bytes
    for a plaintext of fewer than 32: fewer than the nonce (16), one block
    (32) and 32 more that the guard of decryptWithPasswordAEAD asks for after
    the salt. *)
Lemma aeadEncrypt_contract (data key : list Z) (ad : option (list Z)) (e : entropy) :
  length key = 64%nat ->
  exists envelope e',
    aeadEncrypt GHASH data key ad e = (Returned envelope, e')
    /\ (64 <= length envelope)%nat
    /\ ((length data < 32)%nat -> length envelope = 64%nat)
    /\ aeadDecrypt GHASH envelope key ad = Returned data.
Proof.
  intros HK.
  destruct (aeadEncrypt_envelope GHASH key data ad e HK)
    as (n & c & t & e' & E & Ln & Lc & Lt & D).
  exists (n ++ c ++ t), e'. split; [exact E|].
  split; [rewrite !length_app, Ln, Lc, Lt; lia|]. split; [|exact D].
  intros Hd. rewrite !length_app, Ln, Lc, Lt, (Nat.div_small _ 32 Hd). reflexivity.
Qed.

Lemma aeadEncrypt_bytes (data key : list Z) (ad : option (list Z)) (e : entropy)
    (envelope : list Z) (e' : entropy) :
  Forall is_byte data -> aeadEncrypt GHASH data key ad e = (Returned envelope, e') ->
  Forall is_byte envelope.
Proof.
  intros HD. unfold aeadEncrypt.
  destruct (negb (length key =? BYTES.KEY)%nat); [discriminate|].
  pose proof (randomBytes_bytes BYTES.NONCE e) as B.
  destruct (randomBytes BYTES.NONCE e) as [nonce e1]. cbn [fst] in B.
  intros E. inversion E. apply RUC_GCM_Encrypt_bytes; assumption.
Qed.

End WithPrimitives.

Lemma bytes_of_binary_bytes (s : string) : Forall is_byte (Encoding.bytes_of_binary s).
Proof.
  induction s as [|c s IH]; cbn; constructor; [|exact IH].
  unfold Encoding.charCode, is_byte. pose proof (N_ascii_bounded c). lia.
Qed.

Lemma binary_of_bytes_of_binary (s : string) :
  Encoding.binary_of_bytes (Encoding.bytes_of_binary s) = s.
Proof.
  induction s as [|c s IH]; cbn; [reflexivity|]. rewrite IH. f_equal.
  unfold Encoding.fromCharCode, Encoding.charCode.
  rewrite N2Z.id. apply ascii_N_embedding.
Qed.

End Octets.

(** ** Reading a file in chunks (utils/file-reader.ts) *)

Module FileReader.

(** [Blob.slice(start, end)] of the File API on the bytes of the file: a
    negative bound counts from the end, both bounds are clamped to the size,
    and the span is empty when the end is not after the start. *)
Definition blob_slice (file : list Z) (start end_ : Z) : list Z :=
  let size := Z.of_nat (length file) in
  let relativeStart := if start <? 0 then Z.max (size + start) 0 else Z.min start size in
  let relativeEnd := if end_ <? 0 then Z.max (size + end_) 0 else Z.min end_ size in
  let span := Z.max (relativeEnd - relativeStart) 0 in
  firstn (Z.to_nat span) (skipn (Z.to_nat relativeStart) file).

(** The calls made on the two callbacks, in order. *)
Inductive call : Type :=
| OnChunk (chunk : list Z) (offset totalSize : Z)
| OnProgress (progress : Z).

Definition chunks_of (calls : list call) : list (list Z) :=
  flat_map (fun c => match c with
                     | OnChunk chunk _ _ => [chunk]
                     | OnProgress _ => []
                     end) calls.

Section Reader.

(** [Math.floor((offset / totalSize) * 100)], computed in double precision. *)
Variable percent : Z -> Z -> Z.

(** The [while (offset < totalSize)] loop; [None] when the passes allowed by
    [fuel] do not end it.  The callbacks are taken to return normally, and
    [report] tells whether [onProgress] was given.  [chunkSize] is a whole
    number, the "size of each chunk in bytes" of the doc comment: how [slice]
    turns a fractional or infinite bound into a position differs between
    platforms, and such sizes are left out. *)
Fixpoint read_loop (fuel : nat) (file : list Z) (chunkSize : Z) (report : bool)
    (offset : Z) (calls : list call) : option (list call) :=
  match fuel with
  | O => None
  | S fuel' =>
      let totalSize := Z.of_nat (length file) in
      if offset <? totalSize then
        let chunkData := blob_slice file offset (offset + chunkSize) in
        let calls := calls ++ [OnChunk chunkData offset totalSize] in
        let offset := offset + Z.of_nat (length chunkData) in
        let calls :=
          if report then calls ++ [OnProgress (percent offset totalSize)] else calls in
        read_loop fuel' file chunkSize report offset calls
      else Some calls
  end.

Definition readFileInChunks (fuel : nat) (file : list Z) (chunkSize : Z)
    (report : bool) : option (list call) :=
  read_loop fuel file chunkSize report 0 [].

End Reader.

Definition isLargeFile (size : Z) : bool := size >? 50 * 1024 * 1024.

Definition getRecommendedChunkSize (fileSize : Z) : Z :=
  if fileSize <? 1024 * 1024 then 64 * 1024
  else if fileSize <? 100 * 1024 * 1024 then 512 * 1024
  else 2 * 1024 * 1024.

(** *** File names *)

(** [String.prototype.toLowerCase] on the code units 0..255: the letters A..Z
    and the Latin-1 capitals 0xC0..0xDE other than the multiplication sign. *)
Definition lower_unit (c : ascii) : ascii :=
  let n := N_of_ascii c in
  if ((65 <=? n) && (n <=? 90) || (192 <=? n) && (n <=? 222) && negb (n =? 215))%N
  then ascii_of_N (n + 32)
  else c.

Fixpoint toLowerCase (s : string) : string :=
  match s with
  | EmptyString => EmptyString
  | String c s' => String (lower_unit c) (toLowerCase s')
  end.

(** [s.lastIndexOf(c)]: the scan keeps the last position seen, -1 at first. *)
Fixpoint lastIndexOf_from (c : ascii) (s : string) (i last : Z) : Z :=
  match s with
  | EmptyString => last
  | String d s' => lastIndexOf_from c s' (i + 1) (if Ascii.eqb d c then i else last)
  end.

Definition lastIndexOf (s : string) (c : ascii) : Z := lastIndexOf_from c s 0 (-1).

(** [s.substring(indexStart)]: a negative start counts as 0. *)
Definition substring_from (s : string) (indexStart : Z) : string :=
  let k := Z.to_nat (Z.max indexStart 0) in
  substring k (String.length s - k) s.

Definition videoExtensions : list string :=
  [".mp4"; ".avi"; ".mov"; ".wmv"; ".flv"; ".webm"; ".mkv";
   ".m4v"; ".3gp"; ".ogv"; ".ts"; ".mts"; ".m2ts"]%string.

Definition includes (l : list string) (x : string) : bool :=
  existsb (String.eqb x) l.

Definition isVideoFile (filename : string) : bool :=
  let ext := substring_from (toLowerCase filename) (lastIndexOf filename "."%char) in
  includes videoExtensions ext.

Example isVideoFile_upper : isVideoFile "Holiday.2024.MP4" = true.
Proof. reflexivity. Qed.

Example isVideoFile_inner : isVideoFile "clip.mp4.gz" = false.
Proof. reflexivity. Qed.

Example isVideoFile_no_dot : isVideoFile "mp4" = false.
Proof. reflexivity. Qed.

(** *** The chunks cover the file *)

Lemma blob_slice_forward (file : list Z) (offset chunkSize : Z) :
  0 <= offset -> 0 < chunkSize ->
  blob_slice file offset (offset + chunkSize)
  = firstn (Z.to_nat chunkSize) (skipn (Z.to_nat offset) file).
Proof.
  intros Ho Hc. unfold blob_slice.
  replace (offset <? 0) with false by (symmetry; apply Z.ltb_ge; lia).
  replace (offset + chunkSize <? 0) with false by (symmetry; apply Z.ltb_ge; lia).
  set (size := Z.of_nat (length file)).
  destruct (Z.le_gt_cases size offset) as [H|H].
  - rewrite Z.min_r by lia. rewrite !skipn_all2 by lia.
    rewrite !firstn_nil. reflexivity.
  - rewrite (Z.min_l offset) by lia.
    destruct (Z.le_gt_cases (offset + chunkSize) size) as [H'|H'].
    + rewrite Z.min_l by lia. f_equal. lia.
    + rewrite Z.min_r by lia.
      rewrite !firstn_all2; [reflexivity| |]; rewrite length_skipn; lia.
Qed.

Lemma chunks_of_app (a b : list call) : chunks_of (a ++ b) = chunks_of a ++ chunks_of b.
Proof. unfold chunks_of. apply flat_map_app. Qed.

Section ReaderFacts.
Variable percent : Z -> Z -> Z.

Lemma read_loop_spec (fuel : nat) (file : list Z) (chunkSize : Z) (report : bool)
    (offset : Z) (calls : list call) :
  0 < chunkSize ->
  0 <= offset <= Z.of_nat (length file) ->
  offset mod chunkSize = 0 \/ offset = Z.of_nat (length file) ->
  Z.of_nat (length file) - offset < Z.of_nat fuel ->
  exists rest,
    read_loop percent fuel file chunkSize report offset calls = Some (calls ++ rest)
    /\ concat (chunks_of rest) = skipn (Z.to_nat offset) file
    /\ (forall chunk o t, In (OnChunk chunk o t) rest ->
          t = Z.of_nat (length file) /\ offset <= o < t /\ o mod chunkSize = 0
          /\ chunk = firstn (Z.to_nat chunkSize) (skipn (Z.to_nat o) file))
    /\ Z.of_nat (length (chunks_of rest))
       = (Z.of_nat (length file) - offset + chunkSize - 1) / chunkSize.
Proof.
  intros Hc. revert offset calls.
  induction fuel as [|fuel IH]; intros offset calls Ho Hm Hf; [lia|].
  cbn [read_loop].
  destruct (offset <? Z.of_nat (length file)) eqn:E.
  - apply Z.ltb_lt in E.
    assert (M : offset mod chunkSize = 0) by (destruct Hm; [assumption|lia]).
    rewrite blob_slice_forward by lia.
    set (chunk := firstn (Z.to_nat chunkSize) (skipn (Z.to_nat offset) file)).
    assert (L : Z.of_nat (length chunk) = Z.min chunkSize (Z.of_nat (length file) - offset)).
    { subst chunk. rewrite length_firstn, length_skipn. lia. }
    set (offset' := offset + Z.of_nat (length chunk)).
    set (calls' := if report
                   then (calls ++ [OnChunk chunk offset (Z.of_nat (length file))])
                          ++ [OnProgress (percent offset' (Z.of_nat (length file)))]
                   else calls ++ [OnChunk chunk offset (Z.of_nat (length file))]).
    assert (Hm' : offset' mod chunkSize = 0 \/ offset' = Z.of_nat (length file)).
    { subst offset'. rewrite L.
      destruct (Z.le_gt_cases chunkSize (Z.of_nat (length file) - offset)) as [H|H].
      - left. rewrite Z.min_l by lia.
        rewrite <- Z.add_mod_idemp_l, M by lia. cbn [Z.add].
        apply Z.mod_same. lia.
      - right. rewrite Z.min_r by lia. lia. }
    destruct (IH offset' calls' ltac:(subst offset'; lia) Hm' ltac:(subst offset'; lia))
      as (rest & R & C & I & N).
    exists ((OnChunk chunk offset (Z.of_nat (length file))
             :: (if report
                 then [OnProgress (percent offset' (Z.of_nat (length file)))]
                 else [])) ++ rest).
    split; [|split; [|split]].
    + fold chunk. fold offset'. fold calls'. rewrite R. f_equal.
      subst calls'. destruct report; rewrite <- ?app_assoc; reflexivity.
    + rewrite chunks_of_app, concat_app, C.
      replace (chunks_of (OnChunk chunk offset (Z.of_nat (length file))
                          :: (if report
                              then [OnProgress (percent offset' (Z.of_nat (length file)))]
                              else [])))
        with [chunk] by (destruct report; reflexivity).
      cbn [concat]. rewrite app_nil_r.
      subst offset' chunk.
      rewrite <- (firstn_skipn (Z.to_nat chunkSize) (skipn (Z.to_nat offset) file)) at 3.
      f_equal. rewrite skipn_skipn. rewrite L.
      destruct (Z.le_gt_cases chunkSize (Z.of_nat (length file) - offset)) as [H|H].
      * rewrite Z.min_l by lia. f_equal. lia.
      * rewrite Z.min_r by lia. rewrite !skipn_all2 by lia. reflexivity.
    + intros ch o t Hin. apply in_app_or in Hin. destruct Hin as [Hin|Hin].
      * assert (Q : OnChunk ch o t = OnChunk chunk offset (Z.of_nat (length file))).
        { destruct report; cbn in Hin; intuition congruence. }
        inversion Q; subst ch o t. repeat split; try lia; try exact M.
      * destruct (I ch o t Hin) as (I1 & I2 & I3 & I4).
        repeat split; try assumption; subst offset'; lia.
    + rewrite chunks_of_app, length_app, Nat2Z.inj_add, N.
      replace (chunks_of (OnChunk chunk offset (Z.of_nat (length file))
                          :: (if report
                              then [OnProgress (percent offset' (Z.of_nat (length file)))]
                              else [])))
        with [chunk] by (destruct report; reflexivity).
      cbn [length]. subst offset'. rewrite L.
      destruct (Z.le_gt_cases chunkSize (Z.of_nat (length file) - offset)) as [H|H].
      * rewrite Z.min_l by lia.
        replace (Z.of_nat (length file) - offset + chunkSize - 1)
          with ((Z.of_nat (length file) - (offset + chunkSize) + chunkSize - 1)
                + 1 * chunkSize) by lia.
        rewrite Z.div_add by lia. lia.
      * rewrite Z.min_r by lia.
        replace (Z.of_nat (length file) - (offset + (Z.of_nat (length file) - offset))
                 + chunkSize - 1) with (chunkSize - 1) by lia.
        rewrite (Z.div_small (chunkSize - 1)) by lia.
        change (Z.of_nat 1 + 0) with 1.
        apply (Z.div_unique _ _ 1 (Z.of_nat (length file) - offset - 1)); lia.
  - apply Z.ltb_ge in E. exists []. rewrite app_nil_r.
    assert (offset = Z.of_nat (length file)) by lia. subst offset.
    split; [reflexivity|]. split; [|split].
    + rewrite Nat2Z.id, skipn_all. reflexivity.
    + intros ? ? ? [].
    + cbn [chunks_of flat_map length].
      replace (Z.of_nat (length file) - Z.of_nat (length file) + chunkSize - 1)
        with (chunkSize - 1) by lia.
      rewrite Z.div_small; lia.
Qed.

(** X3: With a chunk size that is a positive whole number of bytes, at most
    2^53 - 1 (Number.MAX_SAFE_INTEGER), the read settles; the chunks handed
    to [onChunk], put end to end, are the file; each chunk is the [chunkSize]
    bytes (fewer at the end) found at its offset, a multiple of [chunkSize];
    and there are ceil(size / chunkSize) of them.  Fractional and infinite
    sizes are outside the statement. *)
Theorem readFileInChunks_covers_file (file : list Z) (chunkSize : Z) (report : bool) :
  0 < chunkSize <= 2 ^ 53 - 1 ->
  exists calls,
    readFileInChunks percent (S (length file)) file chunkSize report = Some calls
    /\ concat (chunks_of calls) = file
    /\ (forall chunk offset totalSize, In (OnChunk chunk offset totalSize) calls ->
          totalSize = Z.of_nat (length file) /\ 0 <= offset < totalSize
          /\ offset mod chunkSize = 0
          /\ chunk = firstn (Z.to_nat chunkSize) (skipn (Z.to_nat offset) file))
    /\ Z.of_nat (length (chunks_of calls))
       = (Z.of_nat (length file) + chunkSize - 1) / chunkSize.
Proof.
  intros [Hc _]. unfold readFileInChunks.
  destruct (read_loop_spec (S (length file)) file chunkSize report 0 [] Hc
              ltac:(lia) ltac:(left; apply Z.mod_0_l; lia) ltac:(lia))
    as (rest & R & C & I & N).
  exists rest. cbn [app] in R. rewrite Z.sub_0_r in N.
  repeat split; try assumption; apply (I _ _ _ H).
Qed.

(** X4: A chunk size of zero or below never gets past the end of a file that has
    bytes: no number of passes ends the loop. *)
Theorem readFileInChunks_stalls (file : list Z) (chunkSize : Z) (report : bool)
    (fuel : nat) :
  chunkSize <= 0 -> file <> [] ->
  readFileInChunks percent fuel file chunkSize report = None.
Proof.
  intros Hc Hf. unfold readFileInChunks.
  assert (S : 0 < Z.of_nat (length file)) by (destruct file; [congruence|cbn; lia]).
  assert (G : forall offset calls, 0 <= offset < Z.of_nat (length file) ->
                read_loop percent fuel file chunkSize report offset calls = None).
  { induction fuel as [|fuel IH]; intros offset calls Ho; [reflexivity|].
    cbn [read_loop].
    replace (offset <? Z.of_nat (length file)) with true
      by (symmetry; apply Z.ltb_lt; lia).
    apply IH.
    unfold blob_slice.
    replace (offset <? 0) with false by (symmetry; apply Z.ltb_ge; lia).
    rewrite (Z.min_l offset) by lia.
    rewrite length_firstn, length_skipn.
    destruct (offset + chunkSize <? 0) eqn:E.
    - apply Z.ltb_lt in E. lia.
    - apply Z.ltb_ge in E. lia. }
  apply G. lia.
Qed.

End ReaderFacts.

Lemma readFileInChunks_covers_file_witness :
  exists calls,
    readFileInChunks (fun offset totalSize => offset * 100 / totalSize) 6
      [10; 20; 30; 40; 50] 2 true = Some calls
    /\ concat (chunks_of calls) = [10; 20; 30; 40; 50]
    /\ (forall chunk offset totalSize, In (OnChunk chunk offset totalSize) calls ->
          totalSize = Z.of_nat (length [10; 20; 30; 40; 50]) /\ 0 <= offset < totalSize
          /\ offset mod 2 = 0
          /\ chunk = firstn (Z.to_nat 2) (skipn (Z.to_nat offset) [10; 20; 30; 40; 50]))
    /\ Z.of_nat (length (chunks_of calls))
       = (Z.of_nat (length [10; 20; 30; 40; 50]) + 2 - 1) / 2.
Proof.
  apply (readFileInChunks_covers_file (fun offset totalSize => offset * 100 / totalSize)
           [10; 20; 30; 40; 50] 2 true).
  lia.
Defined.

Lemma readFileInChunks_stalls_witness :
  readFileInChunks (fun offset totalSize => offset * 100 / totalSize) 1000
    [10; 20; 30] 0 false = None.
Proof.
  apply (readFileInChunks_stalls (fun offset totalSize => offset * 100 / totalSize)
           [10; 20; 30] 0 false 1000); [lia|discriminate].
Defined.

(** *** The recommended chunk size *)

Lemma getRecommendedChunkSize_values (fileSize : Z) :
  getRecommendedChunkSize fileSize = 65536
  \/ getRecommendedChunkSize fileSize = 524288
  \/ getRecommendedChunkSize fileSize = 2097152.
Proof.
  unfold getRecommendedChunkSize.
  destruct (fileSize <? 1024 * 1024); [auto|].
  destruct (fileSize <? 100 * 1024 * 1024); auto.
Qed.

(** X5: The recommended chunk size grows with the file, is never zero, and reads
    every file to its end; a file that [isLargeFile] does not flag takes at
    most 100 chunks. *)
Theorem recommended_chunk_size_reads_file (percent : Z -> Z -> Z) (file : list Z)
    (report : bool) (smaller : Z) :
  let size := Z.of_nat (length file) in
  (smaller <= size -> getRecommendedChunkSize smaller <= getRecommendedChunkSize size)
  /\ exists calls,
       readFileInChunks percent (S (length file)) file (getRecommendedChunkSize size) report
       = Some calls
       /\ concat (chunks_of calls) = file
       /\ (isLargeFile size = false -> (length (chunks_of calls) <= 100)%nat).
Proof.
  intros size. split.
  - intros H. unfold getRecommendedChunkSize.
    destruct (smaller <? 1024 * 1024) eqn:A; destruct (size <? 1024 * 1024) eqn:B;
      destruct (smaller <? 100 * 1024 * 1024) eqn:C;
      destruct (size <? 100 * 1024 * 1024) eqn:D;
      rewrite ?Z.ltb_lt, ?Z.ltb_ge in *; lia.
  - assert (P : 0 < getRecommendedChunkSize size).
    { destruct (getRecommendedChunkSize_values size) as [E|[E|E]]; rewrite E; lia. }
    destruct (read_loop_spec percent (S (length file)) file _ report 0 [] P
                ltac:(lia) ltac:(left; apply Z.mod_0_l; lia) ltac:(lia))
      as (calls & R & C & _ & N).
    rewrite Z.sub_0_r in N.
    exists calls. split; [exact R|]. split; [exact C|].
    intros L. unfold isLargeFile in L. rewrite Z.gtb_ltb in L. apply Z.ltb_ge in L.
    fold size in N, L.
    assert (Z.of_nat (length (chunks_of calls)) <= 100); [|lia].
    rewrite N. unfold getRecommendedChunkSize.
    destruct (size <? 1024 * 1024) eqn:A; [|destruct (size <? 100 * 1024 * 1024) eqn:B];
      rewrite ?Z.ltb_lt, ?Z.ltb_ge in *.
    + apply Z.lt_succ_r. apply Z.div_lt_upper_bound; lia.
    + apply Z.lt_succ_r. apply Z.div_lt_upper_bound; lia.
    + lia.
Qed.

(** *** Video files by extension *)

Fixpoint no_dot (s : string) : bool :=
  match s with
  | EmptyString => true
  | String c s' => negb (Ascii.eqb c "."%char) && no_dot s'
  end.

Lemma lastIndexOf_from_no_dot (s : string) (i last : Z) :
  no_dot s = true -> lastIndexOf_from "."%char s i last = last.
Proof.
  revert i last. induction s as [|c s IH]; intros i last H; cbn in *; [reflexivity|].
  apply andb_prop in H. destruct H as [H1 H2].
  apply negb_true_iff in H1. rewrite H1. apply IH, H2.
Qed.

Lemma lastIndexOf_from_app (a b : string) (i last : Z) :
  no_dot b = true ->
  lastIndexOf_from "."%char (a ++ String "."%char b) i last
  = i + Z.of_nat (String.length a).
Proof.
  revert i last. induction a as [|c a IH]; intros i last H.
  - cbn [append lastIndexOf_from String.length]. rewrite Ascii.eqb_refl.
    rewrite lastIndexOf_from_no_dot by exact H. cbn. lia.
  - cbn [append lastIndexOf_from String.length]. rewrite IH by exact H. lia.
Qed.

(** Where the last dot is: nowhere, or in front of a dot-free tail. *)
Lemma lastIndexOf_from_cases (s : string) (i last : Z) :
  (lastIndexOf_from "."%char s i last = last /\ no_dot s = true)
  \/ exists a b, s = (a ++ String "."%char b)%string /\ no_dot b = true
                 /\ lastIndexOf_from "."%char s i last = i + Z.of_nat (String.length a).
Proof.
  revert i last. induction s as [|c s IH]; intros i last.
  - left. split; reflexivity.
  - cbn [lastIndexOf_from no_dot].
    destruct (IH (i + 1) (if Ascii.eqb c "."%char then i else last))
      as [[E N]|(a & b & -> & N & E)].
    + destruct (Ascii.eqb c "."%char) eqn:D.
      * right. apply Ascii.eqb_eq in D. subst c.
        exists EmptyString, s. cbn [append String.length].
        split; [reflexivity|]. split; [exact N|]. rewrite E. cbn. lia.
      * left. rewrite E, N. split; reflexivity.
    + right. exists (String c a), b. cbn [append String.length].
      split; [reflexivity|]. split; [exact N|]. rewrite E. lia.
Qed.

Lemma substring_all (s : string) : substring 0 (String.length s) s = s.
Proof. induction s as [|c s IH]; cbn; [reflexivity|]. rewrite IH. reflexivity. Qed.

Lemma substring_skip (a b : string) :
  substring (String.length a) (String.length (a ++ b) - String.length a) (a ++ b) = b.
Proof.
  induction a as [|c a IH]; cbn [append String.length].
  - rewrite Nat.sub_0_r. apply substring_all.
  - cbn [substring Nat.sub]. exact IH.
Qed.

Lemma extensions_shape (ext : string) :
  In ext videoExtensions ->
  exists rest, ext = String "."%char rest /\ no_dot rest = true.
Proof.
  intros H.
  assert (A : forallb (fun e => match e with
                                | String c rest => Ascii.eqb c "."%char && no_dot rest
                                | EmptyString => false
                                end) videoExtensions = true) by reflexivity.
  rewrite forallb_forall in A. specialize (A ext H).
  destruct ext as [|c rest]; [discriminate|].
  apply andb_prop in A. destruct A as [A1 A2].
  apply Ascii.eqb_eq in A1. subst c. eauto.
Qed.

Lemma lower_unit_dot (c : ascii) :
  Ascii.eqb (lower_unit c) "."%char = Ascii.eqb c "."%char.
Proof. destruct c as [[] [] [] [] [] [] [] []]; reflexivity. Qed.

(** Lower case moves no dot: the last dot of the name is the last dot of
    its lower case. *)
Lemma lastIndexOf_from_lower (s : string) (i last : Z) :
  lastIndexOf_from "."%char (toLowerCase s) i last = lastIndexOf_from "."%char s i last.
Proof.
  revert i last. induction s as [|c s IH]; intros i last; [reflexivity|].
  cbn [toLowerCase lastIndexOf_from]. rewrite lower_unit_dot. apply IH.
Qed.

(** X6: A file counts as a video exactly when its name, in lower case, ends with
    one of the listed extensions: only the text from the last dot on is
    compared, whatever stands before it. *)
Theorem isVideoFile_iff (filename : string) :
  isVideoFile filename = true
  <-> exists stem ext,
        In ext videoExtensions /\ toLowerCase filename = (stem ++ ext)%string.
Proof.
  unfold isVideoFile. cbv zeta. unfold lastIndexOf.
  rewrite <- lastIndexOf_from_lower. generalize (toLowerCase filename). intros s.
  unfold includes. rewrite existsb_exists. split.
  - intros (ext & Hin & E). apply String.eqb_eq in E.
    destruct (lastIndexOf_from_cases s 0 (-1)) as [[L N]|(a & b & -> & N & L)].
    + exists EmptyString, ext. split; [exact Hin|]. cbn [append].
      rewrite <- E, L. unfold substring_from. cbn. rewrite Nat.sub_0_r.
      symmetry. apply substring_all.
    + exists a, ext. split; [exact Hin|]. f_equal.
      rewrite <- E, L. unfold substring_from.
      replace (Z.to_nat (Z.max (0 + Z.of_nat (String.length a)) 0))
        with (String.length a) by lia.
      symmetry. apply substring_skip.
  - intros (stem & ext & Hin & ->). exists ext. split; [exact Hin|].
    apply String.eqb_eq.
    destruct (extensions_shape ext Hin) as (rest & -> & N).
    rewrite lastIndexOf_from_app by exact N. unfold substring_from.
    replace (Z.to_nat (Z.max (0 + Z.of_nat (String.length stem)) 0))
      with (String.length stem) by lia.
    apply substring_skip.
Qed.

End FileReader.

(** ** Password-based encryption with the salt bundled (cipher/index.ts,
    encryptWithPassword .. secureDecrypt) *)

Module PasswordEnvelope.

Import PasswordAPI.

(** [target.set(source, offset)] on typed arrays: a source that does not fit
    raises a RangeError, otherwise it overwrites the elements from [offset]. *)
Definition typed_array_set (target source : list Z) (offset : nat)
  : outcome (list Z) :=
  if (length target <? offset + length source)%nat
  then Thrown "offset is out of bounds"
  else Returned (firstn offset target ++ source
                 ++ skipn (offset + length source) target).

(** [result = new Uint8Array(SALT_SIZE + encrypted.length);
     result.set(salt, 0); result.set(encrypted, SALT_SIZE)] *)
Definition bundle (salt encrypted : list Z) : outcome (list Z) :=
  let result := repeat 0 (SALT_SIZE + length encrypted) in
  match typed_array_set result salt 0 with
  | Thrown message => Thrown message
  | Returned result => typed_array_set result encrypted SALT_SIZE
  end.

(** A computation that may draw on the platform's random source. *)
Definition Rand (A : Type) : Type := API.entropy -> outcome A * API.entropy.

Section Envelope.

(** Collaborators that live in other modules of the package. *)
Variable deriveKeyArgon2 : string -> list Z -> KDFLevel -> list Z.
Variable generateSalt : API.entropy -> list Z * API.entropy.
Variable encryptCTR : list Z -> list Z -> option (list Z) -> Rand (list Z).
Variable decryptCTR : list Z -> list Z -> outcome (list Z).
Variable aeadEncrypt : list Z -> list Z -> option (list Z) -> Rand (list Z).
Variable aeadDecrypt : list Z -> list Z -> option (list Z) -> outcome (list Z).
Variable stringToBytes : string -> list Z.
Variable bytesToString : list Z -> string.

(** Modelled from the spec: kdf.ts is not part of the tree.  Called without
    a salt, the key derivation draws one and returns it beside the key
    ("External KDF contract": password -> (K, salt)); with that salt given it
    derives the same key. *)
Definition fromPasswordAsync_fresh (password : string) (level : KDFLevel)
  : Rand (list Z * list Z) :=
  fun e =>
    let '(salt, e) := generateSalt e in
    let key := deriveKeyArgon2 password salt level in
    if negb (length key =? BYTES.KEY)%nat
    then (Thrown "Key must be 64 bytes (512 bits)", e)
    else (Returned (key, salt), e).

(** [typeof plaintext === 'string' ? stringToBytes(plaintext) : plaintext] *)
Definition to_bytes (plaintext : list Z + string) : list Z :=
  match plaintext with
  | inl bytes => bytes
  | inr text => stringToBytes text
  end.

Definition cipher_encrypt (key : list Z) (plaintext : list Z + string)
  : Rand (list Z) :=
  encryptCTR (to_bytes plaintext) key None.

Definition cipher_encryptAuthenticated (key : list Z) (plaintext : list Z + string)
    (associatedData : option (list Z + string)) : Rand (list Z) :=
  aeadEncrypt (to_bytes plaintext) key (normalise_ad stringToBytes associatedData).

Definition encryptWithPassword (plaintext : list Z + string) (password : string)
    (level : KDFLevel) : Rand (list Z) :=
  fun e =>
    match fromPasswordAsync_fresh password level e with
    | (Thrown message, e) => (Thrown message, e)
    | (Returned (cipher, salt), e) =>
        let data := to_bytes plaintext in
        match cipher_encrypt cipher (inl data) e with
        | (Thrown message, e) => (Thrown message, e)
        | (Returned encrypted, e) => (bundle salt encrypted, e)
        end
    end.

Definition encryptWithPasswordAEAD (plaintext : list Z + string) (password : string)
    (associatedData : option (list Z + string)) (level : KDFLevel) : Rand (list Z) :=
  fun e =>
    match fromPasswordAsync_fresh password level e with
    | (Thrown message, e) => (Thrown message, e)
    | (Returned (cipher, salt), e) =>
        match cipher_encryptAuthenticated cipher plaintext associatedData e with
        | (Thrown message, e) => (Thrown message, e)
        | (Returned encrypted, e) => (bundle salt encrypted, e)
        end
    end.

Definition decryptWithPasswordToString (ciphertext : list Z) (password : string)
    (level : KDFLevel) : Async string :=
  decrypted <- decryptWithPassword deriveKeyArgon2 decryptCTR ciphertext password level ;;
  ret (bytesToString decrypted).

Definition decryptWithPasswordAEADToString (ciphertext : list Z) (password : string)
    (associatedData : option (list Z + string)) (level : KDFLevel) : Async string :=
  decrypted <- decryptWithPasswordAEAD deriveKeyArgon2 aeadDecrypt stringToBytes
                 ciphertext password associatedData level ;;
  ret (bytesToString decrypted).

Definition secureEncrypt (plaintext password : string) (level : KDFLevel)
  : Rand string :=
  fun e =>
    match encryptWithPasswordAEAD (inr plaintext) password None level e with
    | (Thrown message, e) => (Thrown message, e)
    | (Returned encrypted, e) => (Returned (Encoding.bytesToBase64 encrypted), e)
    end.

(** [atob] raises an InvalidCharacterError on text that is not base64. *)
Definition secureDecrypt (ciphertext password : string) (level : KDFLevel)
  : Async string :=
  match Encoding.base64ToBytes ciphertext with
  | None => throw "InvalidCharacterError"
  | Some encrypted => decryptWithPasswordAEADToString encrypted password None level
  end.

(** *** The bundle *)

Lemma bundle_salt16 (salt encrypted : list Z) :
  length salt = 16%nat -> bundle salt encrypted = Returned (salt ++ encrypted).
Proof.
  intros Hs. unfold bundle, SALT_SIZE.
  assert (A : typed_array_set (repeat 0 (16 + length encrypted)) salt 0
              = Returned (salt ++ repeat 0 (length encrypted))).
  { unfold typed_array_set. rewrite repeat_length, Hs.
    replace (16 + length encrypted <? 0 + 16)%nat with false
      by (symmetry; apply Nat.ltb_ge; lia).
    rewrite Nat.add_0_l. cbn [firstn app]. rewrite repeat_app.
    rewrite Modes.skipn_app_exact by apply repeat_length. reflexivity. }
  rewrite A. unfold typed_array_set.
  rewrite length_app, repeat_length, Hs.
  replace (16 + length encrypted <? 16 + length encrypted)%nat with false
    by (symmetry; apply Nat.ltb_ge; lia).
  rewrite (Modes.firstn_app_exact salt _ 16 Hs).
  rewrite skipn_all2 by (rewrite length_app, repeat_length; lia).
  rewrite app_nil_r. reflexivity.
Qed.

(** *** What the collaborators are relied on for *)

Hypothesis salt_size : forall e, length (fst (generateSalt e)) = 16%nat.

Hypothesis key_size :
  forall password salt level, length (deriveKeyArgon2 password salt level) = 64%nat.

Hypothesis ctr_round_trip :
  forall data key e, length key = 64%nat ->
    exists envelope e',
      encryptCTR data key None e = (Returned envelope, e')
      /\ (48 <= length envelope)%nat
      /\ decryptCTR envelope key = Returned data.

Hypothesis aead_round_trip :
  forall data key ad e, length key = 64%nat ->
    exists envelope e',
      aeadEncrypt data key ad e = (Returned envelope, e')
      /\ (80 <= length envelope)%nat
      /\ aeadDecrypt envelope key ad = Returned data.

Hypothesis aead_bytes :
  forall data key ad e envelope e',
    Forall is_byte data -> aeadEncrypt data key ad e = (Returned envelope, e') ->
    Forall is_byte envelope.

Hypothesis salt_bytes : forall e, Forall is_byte (fst (generateSalt e)).

Hypothesis text_bytes : forall text, Forall is_byte (stringToBytes text).

Hypothesis text_round_trip : forall text, bytesToString (stringToBytes text) = text.

Lemma fromPasswordAsync_fresh_ok (password : string) (level : KDFLevel)
    (e : API.entropy) :
  fromPasswordAsync_fresh password level e
  = (Returned (deriveKeyArgon2 password (fst (generateSalt e)) level,
               fst (generateSalt e)),
     snd (generateSalt e)).
Proof.
  unfold fromPasswordAsync_fresh. destruct (generateSalt e) as [salt e1].
  cbn [fst snd]. rewrite key_size. reflexivity.
Qed.

(** X7: [encryptWithPassword] returns the 16-byte salt followed by what the
    cipher returned, and [decryptWithPassword] with the same password and
    level recovers the plaintext from it. *)
Theorem encryptWithPassword_round_trip (plaintext : list Z + string)
    (password : string) (level : KDFLevel) (e : API.entropy) (log : list event) :
  exists encrypted e',
    encryptWithPassword plaintext password level e
    = (Returned (fst (generateSalt e) ++ encrypted), e')
    /\ length (fst (generateSalt e)) = 16%nat
    /\ fst (encryptCTR (to_bytes plaintext)
              (deriveKeyArgon2 password (fst (generateSalt e)) level) None
              (snd (generateSalt e)))
       = Returned encrypted
    /\ fst (decryptWithPassword deriveKeyArgon2 decryptCTR
              (fst (generateSalt e) ++ encrypted) password level log)
       = Returned (to_bytes plaintext).
Proof.
  unfold encryptWithPassword. rewrite fromPasswordAsync_fresh_ok.
  set (salt := fst (generateSalt e)).
  set (key := deriveKeyArgon2 password salt level).
  destruct (ctr_round_trip (to_bytes plaintext) key (snd (generateSalt e))
              (key_size _ _ _)) as (encrypted & e' & E & L & D).
  exists encrypted, e'. unfold cipher_encrypt. cbn [to_bytes]. rewrite E.
  rewrite (bundle_salt16 salt encrypted (salt_size e)).
  split; [reflexivity|]. split; [apply salt_size|]. split; [reflexivity|].
  unfold decryptWithPassword.
  rewrite length_app, (salt_size e : length salt = 16%nat).
  unfold SALT_SIZE, BYTES.NONCE, BYTES.BLOCK.
  replace (16 + length encrypted <? 16 + 16 + 32)%nat with false
    by (symmetry; apply Nat.ltb_ge; lia).
  unfold subarray. cbn [Nat.sub]. rewrite skipn_O.
  rewrite (Modes.firstn_app_exact salt encrypted 16 (salt_size e)).
  rewrite (Modes.skipn_app_exact salt encrypted 16 (salt_size e)).
  unfold bind, emit, fromPasswordAsync, new_cipher, cipher_decrypt, bind, emit, lift, ret.
  fold key. rewrite (key_size password salt level : length key = 64%nat).
  cbn [BYTES.KEY Nat.eqb negb fst]. exact D.
Qed.

(** X8: The same for the authenticated variant, with the associated data given
    to both calls. *)
Theorem encryptWithPasswordAEAD_round_trip (plaintext : list Z + string)
    (password : string) (associatedData : option (list Z + string))
    (level : KDFLevel) (e : API.entropy) (log : list event) :
  exists encrypted e',
    encryptWithPasswordAEAD plaintext password associatedData level e
    = (Returned (fst (generateSalt e) ++ encrypted), e')
    /\ length (fst (generateSalt e)) = 16%nat
    /\ fst (aeadEncrypt (to_bytes plaintext)
              (deriveKeyArgon2 password (fst (generateSalt e)) level)
              (normalise_ad stringToBytes associatedData) (snd (generateSalt e)))
       = Returned encrypted
    /\ fst (decryptWithPasswordAEAD deriveKeyArgon2 aeadDecrypt stringToBytes
              (fst (generateSalt e) ++ encrypted) password associatedData level log)
       = Returned (to_bytes plaintext).
Proof.
  unfold encryptWithPasswordAEAD. rewrite fromPasswordAsync_fresh_ok.
  set (salt := fst (generateSalt e)).
  set (key := deriveKeyArgon2 password salt level).
  destruct (aead_round_trip (to_bytes plaintext) key
              (normalise_ad stringToBytes associatedData) (snd (generateSalt e))
              (key_size _ _ _)) as (encrypted & e' & E & L & D).
  exists encrypted, e'. unfold cipher_encryptAuthenticated. rewrite E.
  rewrite (bundle_salt16 salt encrypted (salt_size e)).
  split; [reflexivity|]. split; [apply salt_size|]. split; [reflexivity|].
  unfold decryptWithPasswordAEAD.
  rewrite length_app, (salt_size e : length salt = 16%nat).
  unfold SALT_SIZE, BYTES.NONCE, BYTES.BLOCK.
  replace (16 + length encrypted <? 16 + 16 + 32 + 32)%nat with false
    by (symmetry; apply Nat.ltb_ge; lia).
  unfold subarray. cbn [Nat.sub]. rewrite skipn_O.
  rewrite (Modes.firstn_app_exact salt encrypted 16 (salt_size e)).
  rewrite (Modes.skipn_app_exact salt encrypted 16 (salt_size e)).
  unfold bind, emit, fromPasswordAsync, new_cipher, cipher_decryptAuthenticated,
    bind, emit, lift, ret.
  fold key. rewrite (key_size password salt level : length key = 64%nat).
  cbn [BYTES.KEY Nat.eqb negb fst]. exact D.
Qed.

(** X9: [secureDecrypt] gives back the text that [secureEncrypt] was given: the
    base64 text decodes to the bundle, the salt in front of it yields the key
    again, and the bytes decode to the text. *)
Theorem secureEncrypt_round_trip (text password : string) (level : KDFLevel)
    (e : API.entropy) (log : list event) :
  exists encoded e',
    secureEncrypt text password level e = (Returned encoded, e')
    /\ fst (secureDecrypt encoded password level log) = Returned text.
Proof.
  unfold secureEncrypt, encryptWithPasswordAEAD.
  rewrite fromPasswordAsync_fresh_ok.
  set (salt := fst (generateSalt e)).
  set (key := deriveKeyArgon2 password salt level).
  unfold cipher_encryptAuthenticated. cbn [to_bytes normalise_ad].
  destruct (aead_round_trip (stringToBytes text) key None (snd (generateSalt e))
              (key_size _ _ _)) as (encrypted & e' & E & L & D).
  pose proof (aead_bytes _ _ _ _ _ _ (text_bytes text) E) as B.
  rewrite E, (bundle_salt16 salt encrypted (salt_size e)).
  eexists. eexists. split; [reflexivity|].
  unfold secureDecrypt.
  rewrite Encoding.base64ToBytes_bytesToBase64
    by (apply Forall_app; split; [apply salt_bytes|exact B]).
  unfold decryptWithPasswordAEADToString, decryptWithPasswordAEAD.
  rewrite length_app, (salt_size e : length salt = 16%nat).
  unfold SALT_SIZE, BYTES.NONCE, BYTES.BLOCK.
  replace (16 + length encrypted <? 16 + 16 + 32 + 32)%nat with false
    by (symmetry; apply Nat.ltb_ge; lia).
  unfold subarray. cbn [Nat.sub]. rewrite skipn_O.
  rewrite (Modes.firstn_app_exact salt encrypted 16 (salt_size e)).
  rewrite (Modes.skipn_app_exact salt encrypted 16 (salt_size e)).
  unfold bind, emit, fromPasswordAsync, new_cipher, cipher_decryptAuthenticated,
    bind, emit, lift, ret.
  fold key. rewrite (key_size password salt level : length key = 64%nat).
  cbn [BYTES.KEY Nat.eqb negb normalise_ad]. rewrite D. cbn [fst].
  rewrite text_round_trip. reflexivity.
Qed.

End Envelope.

End PasswordEnvelope.

(** ** The crypto worker (worker/crypto-worker.ts) *)

Module CryptoWorker.

Import PasswordAPI PasswordEnvelope.

(** What the worker posts back to the main thread. *)
Inductive WorkerResponse : Type :=
| progress (id message : string) (percent : Z)
| success (id : string) (data : list Z)
| error (id : string) (text : string).

Definition response_id (r : WorkerResponse) : string :=
  match r with
  | progress id _ _ => id
  | success id _ => id
  | error id _ => id
  end.

(** A response that settles the request on the main thread. *)
Definition settles (r : WorkerResponse) : bool :=
  match r with
  | progress _ _ _ => false
  | success _ _ => true
  | error _ _ => true
  end.

Definition postProgress (id message : string) (percent : Z) : WorkerResponse :=
  progress id message percent.

Section Worker.

Variable deriveKeyArgon2 : string -> list Z -> KDFLevel -> list Z.
Variable generateSalt : API.entropy -> list Z * API.entropy.
Variable aeadEncrypt : list Z -> list Z -> option (list Z) -> Rand (list Z).
Variable aeadDecrypt : list Z -> list Z -> option (list Z) -> outcome (list Z).
Variable stringToBytes : string -> list Z.

(** [String(error)] on the error thrown with the given message. *)
Variable String_of_error : string -> string.

(** [self.onmessage]: the responses posted for one message, with the random
    source and the log of the password functions after it. *)
Definition onmessage (type id : string) (data : list Z) (password : string)
    (e : API.entropy) (log : list event)
  : list WorkerResponse * API.entropy * list event :=
  let posted := [postProgress id "Deriving key with Argon2..." 20] in
  if String.eqb type "encrypt" then
    let posted := posted ++ [postProgress id "Encrypting..." 50] in
    match encryptWithPasswordAEAD deriveKeyArgon2 generateSalt aeadEncrypt
            stringToBytes (inl data) password None interactive e with
    | (Returned encrypted, e) =>
        (posted ++ [postProgress id "Complete!" 100; success id encrypted], e, log)
    | (Thrown message, e) =>
        (posted ++ [error id (String_of_error message)], e, log)
    end
  else if String.eqb type "decrypt" then
    let posted := posted ++ [postProgress id "Decrypting and verifying..." 50] in
    match decryptWithPasswordAEAD deriveKeyArgon2 aeadDecrypt stringToBytes
            data password None interactive log with
    | (Returned decrypted, log) =>
        (posted ++ [postProgress id "Complete!" 100; success id decrypted], e, log)
    | (Thrown message, log) =>
        (posted ++ [error id (String_of_error message)], e, log)
    end
  else (posted, e, log).

Definition responses (type id : string) (data : list Z) (password : string)
    (e : API.entropy) (log : list event) : list WorkerResponse :=
  fst (fst (onmessage type id data password e log)).

(** X10: Every response carries the id of the request.  A request of type
    'encrypt' or 'decrypt' is answered by the progress marks 20 and 50 and
    then either the mark 100 with one [success], or one [error] and no mark
    100; a request of any other type gets the mark 20 and is never settled.
    A 'decrypt' request with fewer than 96 bytes is answered with the error
    'Ciphertext too short' and derives no key. *)
Theorem worker_protocol (type id : string) (data : list Z) (password : string)
    (e : API.entropy) (log : list event) :
  let posted := responses type id data password e log in
  Forall (fun r => response_id r = id) posted
  /\ ((type = "encrypt"%string \/ type = "decrypt"%string) ->
      exists message,
        (exists result,
            posted = [progress id "Deriving key with Argon2..." 20;
                      progress id message 50;
                      progress id "Complete!" 100;
                      success id result])
        \/ (exists text,
            posted = [progress id "Deriving key with Argon2..." 20;
                      progress id message 50;
                      error id text]))
  /\ (type <> "encrypt"%string -> type <> "decrypt"%string ->
      posted = [progress id "Deriving key with Argon2..." 20]
      /\ existsb settles posted = false)
  /\ (type = "decrypt"%string -> (length data < 96)%nat ->
      onmessage type id data password e log
      = ([progress id "Deriving key with Argon2..." 20;
          progress id "Decrypting and verifying..." 50;
          error id (String_of_error "Ciphertext too short")], e, log)).
Proof.
  cbv zeta. unfold responses, onmessage.
  destruct (String.eqb type "encrypt") eqn:E1;
    [|destruct (String.eqb type "decrypt") eqn:E2].
  - apply String.eqb_eq in E1. subst type.
    destruct (encryptWithPasswordAEAD _ _ _ _ _ _ _ _ _) as [[encrypted|message] e'];
      cbn [fst app].
    + split; [repeat constructor|]. split; [|split]; [|congruence|discriminate].
      intros _. exists "Encrypting..."%string. left. eauto.
    + split; [repeat constructor|]. split; [|split]; [|congruence|discriminate].
      intros _. exists "Encrypting..."%string. right. eauto.
  - apply String.eqb_eq in E2. subst type.
    split; [|split; [|split]].
    + destruct (decryptWithPasswordAEAD _ _ _ _ _ _ _ _) as [[decrypted|message] log'];
        cbn [fst app]; repeat constructor.
    + intros _. exists "Decrypting and verifying..."%string.
      destruct (decryptWithPasswordAEAD _ _ _ _ _ _ _ _) as [[decrypted|message] log'];
        cbn [fst app]; [left|right]; eauto.
    + congruence.
    + intros _ H. unfold decryptWithPasswordAEAD.
      replace (length data <? SALT_SIZE + BYTES.NONCE + BYTES.BLOCK + 32)%nat
        with true by (symmetry; apply Nat.ltb_lt; exact H).
      reflexivity.
  - apply String.eqb_neq in E1, E2. cbn [fst].
    split; [repeat constructor|]. split; [intros [H|H]; congruence|].
    split; [intros _ _; split; reflexivity|congruence].
Qed.

End Worker.

End CryptoWorker.

Module PasswordWitness.

Import PasswordAPI PasswordEnvelope.

(** Stand-ins for the external key derivation: a fixed 64-byte key, and a
    salt of 16 bytes from the random source. *)
Definition fixed_key (password : string) (salt : list Z) (level : KDFLevel) : list Z :=
  KeySchedule.test_vector_key.

Definition salt16 (e : API.entropy) : list Z * API.entropy := API.randomBytes 16 e.

(** Stand-ins for aead.ts, which is not part of the tree, with the envelope
    the password functions count on (nonce (16), ciphertext, tag (32)): the
    counter-mode envelope followed by 32 bytes of SHAKE256 over the key, the
    associated data and that envelope, which decryption recomputes and
    compares before it decrypts. *)
Definition sealed_tag (key ad body : list Z) : list Z := SHAKE256 (key ++ ad ++ body) 32.

Definition sealed_encrypt (data key : list Z) (ad : option (list Z)) (e : API.entropy)
  : outcome (list Z) * API.entropy :=
  match API.encryptCTR data key None e with
  | (Returned body, e') => (Returned (body ++ sealed_tag key (API.ad_bytes ad) body), e')
  | (Thrown m, e') => (Thrown m, e')
  end.

Definition sealed_decrypt (envelope key : list Z) (ad : option (list Z))
  : outcome (list Z) :=
  let body := firstn (length envelope - 32) envelope in
  let tag := skipn (length envelope - 32) envelope in
  if AEAD.constant_time_equal (sealed_tag key (API.ad_bytes ad) body) tag
  then API.decryptCTR body key
  else Thrown "Authentication failed".

Lemma sealed_contract (data key : list Z) (ad : option (list Z)) (e : API.entropy) :
  length key = 64%nat ->
  exists envelope e',
    sealed_encrypt data key ad e = (Returned envelope, e')
    /\ (80 <= length envelope)%nat
    /\ sealed_decrypt envelope key ad = Returned data.
Proof.
  intros HK. unfold sealed_encrypt, sealed_decrypt.
  destruct (Octets.encryptCTR_contract data key e HK) as (body & e' & E & L & D).
  rewrite E. exists (body ++ sealed_tag key (API.ad_bytes ad) body), e'.
  assert (T : length (sealed_tag key (API.ad_bytes ad) body) = 32%nat)
    by apply SHAKE256_length.
  split; [reflexivity|]. split; [rewrite length_app; lia|].
  rewrite length_app, T.
  replace (length body + 32 - 32)%nat with (length body) by lia.
  rewrite (Modes.firstn_app_exact body _ _ eq_refl).
  rewrite (Modes.skipn_app_exact body _ _ eq_refl).
  rewrite AEAD.constant_time_equal_refl. exact D.
Qed.

Lemma sealed_bytes (data key : list Z) (ad : option (list Z)) (e : API.entropy)
    (envelope : list Z) (e' : API.entropy) :
  Forall is_byte data -> sealed_encrypt data key ad e = (Returned envelope, e') ->
  Forall is_byte envelope.
Proof.
  intros HD. unfold sealed_encrypt.
  destruct (API.encryptCTR data key None e) as [[body|m] e1] eqn:E; [|discriminate].
  intros X. inversion X. apply Forall_app. split.
  - exact (Octets.encryptCTR_bytes data key e body e1 HD E).
  - apply SHAKE256_bytes.
Qed.

Lemma encryptWithPassword_round_trip_witness :
  exists encrypted e',
    encryptWithPassword fixed_key salt16 API.encryptCTR Encoding.bytes_of_binary
      (inr "attack at dawn"%string) "pw" interactive API.zero_entropy
    = (Returned (fst (salt16 API.zero_entropy) ++ encrypted), e')
    /\ length (fst (salt16 API.zero_entropy)) = 16%nat
    /\ fst (API.encryptCTR
              (to_bytes Encoding.bytes_of_binary (inr "attack at dawn"%string))
              (fixed_key "pw" (fst (salt16 API.zero_entropy)) interactive) None
              (snd (salt16 API.zero_entropy)))
       = Returned encrypted
    /\ fst (decryptWithPassword fixed_key API.decryptCTR
              (fst (salt16 API.zero_entropy) ++ encrypted) "pw" interactive [])
       = Returned (to_bytes Encoding.bytes_of_binary (inr "attack at dawn"%string)).
Proof.
  apply (encryptWithPassword_round_trip fixed_key salt16 API.encryptCTR API.decryptCTR
           Encoding.bytes_of_binary).
  - intros e. apply API.randomBytes_length.
  - intros. reflexivity.
  - intros data key e. apply Octets.encryptCTR_contract.
Defined.

Lemma encryptWithPasswordAEAD_round_trip_witness :
  exists encrypted e',
    encryptWithPasswordAEAD fixed_key salt16 sealed_encrypt
      Encoding.bytes_of_binary (inl [1; 2; 3]) "pw" (Some (inr "header"%string))
      interactive API.zero_entropy
    = (Returned (fst (salt16 API.zero_entropy) ++ encrypted), e')
    /\ length (fst (salt16 API.zero_entropy)) = 16%nat
    /\ fst (sealed_encrypt (to_bytes Encoding.bytes_of_binary (inl [1; 2; 3]))
              (fixed_key "pw" (fst (salt16 API.zero_entropy)) interactive)
              (normalise_ad Encoding.bytes_of_binary (Some (inr "header"%string)))
              (snd (salt16 API.zero_entropy)))
       = Returned encrypted
    /\ fst (decryptWithPasswordAEAD fixed_key sealed_decrypt
              Encoding.bytes_of_binary
              (fst (salt16 API.zero_entropy) ++ encrypted) "pw"
              (Some (inr "header"%string)) interactive [])
       = Returned (to_bytes Encoding.bytes_of_binary (inl [1; 2; 3])).
Proof.
  apply (encryptWithPasswordAEAD_round_trip fixed_key salt16 sealed_encrypt
           sealed_decrypt Encoding.bytes_of_binary).
  - intros e. apply API.randomBytes_length.
  - intros. reflexivity.
  - intros data key ad e. apply sealed_contract.
Defined.

Lemma secureEncrypt_round_trip_witness :
  exists encoded e',
    secureEncrypt fixed_key salt16 sealed_encrypt Encoding.bytes_of_binary
      "attack at dawn" "pw" interactive API.zero_entropy
    = (Returned encoded, e')
    /\ fst (secureDecrypt fixed_key sealed_decrypt Encoding.bytes_of_binary
              Encoding.binary_of_bytes encoded "pw" interactive [])
       = Returned "attack at dawn"%string.
Proof.
  apply (secureEncrypt_round_trip fixed_key salt16 sealed_encrypt
           sealed_decrypt Encoding.bytes_of_binary
           Encoding.binary_of_bytes).
  - intros e. apply API.randomBytes_length.
  - intros. reflexivity.
  - intros data key ad e. apply sealed_contract.
  - intros data key ad e envelope e'. apply sealed_bytes.
  - intros e. apply Octets.randomBytes_bytes.
  - apply Octets.bytes_of_binary_bytes.
  - apply Octets.binary_of_bytes_of_binary.
Defined.

End PasswordWitness.

(** ** The byte-wise product of a register (README, "Algorithm: GF Multiply
    Register") *)

Module RegisterProduct.

Import GF Basics.

(** Bytes placed from the most significant end by [result | (byte << shift)]. *)
Fixpoint place (bytes : list Z) (result : Z) : Z :=
  match bytes with
  | [] => result
  | b :: rest => place rest (Z.lor result (Z.shiftl b (8 * Z.of_nat (length rest))))
  end.

Lemma fold_place (f : Z -> Z) (n : nat) (k : Z) (result : Z) (top : Z) :
  top = k + Z.of_nat n - 1 ->
  fold_left (fun result i => Z.lor result (Z.shiftl (f i) (8 * (top - i))))
            (Zrange k n) result
  = place (map f (Zrange k n)) result.
Proof.
  revert k result. induction n as [|n IH]; intros k result Ht; [reflexivity|].
  rewrite Zrange_S. cbn [fold_left map place].
  rewrite length_map, Zrange_length.
  replace (8 * (top - k)) with (8 * Z.of_nat n) by lia.
  apply IH. lia.
Qed.

Lemma land_disjoint (A b s : Z) :
  0 <= s -> 0 <= b < 256 -> Z.land (A * 2 ^ (s + 8)) (Z.shiftl b s) = 0.
Proof.
  intros Hs Hb. apply Z.bits_inj'. intros n Hn.
  rewrite Z.land_spec, Z.bits_0.
  destruct (Z.lt_ge_cases n (s + 8)) as [L|G].
  - rewrite Z.mul_pow2_bits_low by lia. reflexivity.
  - rewrite Z.shiftl_spec by lia.
    rewrite (Z.bits_above_log2 b (n - s)); [apply andb_false_r|lia|].
    destruct (Z.eq_dec b 0) as [->|N]; [cbn; lia|].
    apply Z.log2_lt_pow2; [lia|].
    apply Z.lt_le_trans with (2 ^ 8); [change (2 ^ 8) with 256; lia|].
    apply Z.pow_le_mono_r; lia.
Qed.

Lemma lor_disjoint (A b s : Z) :
  0 <= s -> 0 <= b < 256 ->
  Z.lor (A * 2 ^ (s + 8)) (Z.shiftl b s) = (A * 256 + b) * 2 ^ s.
Proof.
  intros Hs Hb.
  rewrite <- Z.lxor_lor, <- Z.add_nocarry_lxor by (apply land_disjoint; assumption).
  rewrite Z.shiftl_mul_pow2, Z.pow_add_r by lia. change (2 ^ 8) with 256. ring.
Qed.

Lemma place_bytes (bytes : list Z) (A : Z) :
  Forall is_byte bytes ->
  place bytes (A * 2 ^ (8 * Z.of_nat (length bytes)))
  = fold_left (fun acc x => acc * 256 + x) bytes A.
Proof.
  revert A. induction bytes as [|b rest IH]; intros A H.
  - cbn. lia.
  - inversion_clear H as [|? ? Hb Hrest]. cbn [place fold_left length].
    replace (8 * Z.of_nat (S (length rest))) with (8 * Z.of_nat (length rest) + 8) by lia.
    rewrite lor_disjoint by (unfold is_byte in Hb; lia).
    apply IH, Hrest.
Qed.

Lemma GF_MUL_REGISTER_bytes (R multiplier : Z) :
  is_byte multiplier ->
  GF_MUL_REGISTER R multiplier
  = bytes_to_int (map (fun b => GF_MUL b multiplier) (int_to_bytes R 64)).
Proof.
  intros Hm. unfold GF_MUL_REGISTER.
  rewrite (fold_place (fun i => GF_MUL (Z.land (Z.shiftr R (8 * (63 - i))) 0xFF) multiplier)
             64 0 0 63 eq_refl).
  replace (map _ (Zrange 0 64))
    with (map (fun b => GF_MUL b multiplier) (int_to_bytes R 64)).
  2:{ unfold int_to_bytes, Zrange. rewrite !map_map. apply map_ext. intros i.
      replace (8 * (Z.of_nat 64 - 1 - Z.of_nat i)) with (8 * (63 - (0 + Z.of_nat i)))
        by lia.
      reflexivity. }
  pose proof (place_bytes (map (fun b => GF_MUL b multiplier) (int_to_bytes R 64)) 0)
    as P.
  cbn [Z.mul] in P. apply P.
  apply Forall_forall. intros x Hx. apply in_map_iff in Hx.
  destruct Hx as (b & <- & Hb). apply GF_MUL_byte; [|exact Hm].
  pose proof (ByteOrder.int_to_bytes_bytes R 64) as B.
  rewrite Forall_forall in B. apply B, Hb.
Qed.

Lemma map_GF_bytes (l : list Z) (m : Z) :
  Forall is_byte l -> is_byte m -> Forall is_byte (map (fun b => GF_MUL b m) l).
Proof.
  intros Hl Hm. apply Forall_forall. intros x Hx. apply in_map_iff in Hx.
  destruct Hx as (b & <- & Hb). apply GF_MUL_byte; [|exact Hm].
  rewrite Forall_forall in Hl. apply Hl, Hb.
Qed.

(** X11: On a 512-bit register [GF_MUL_REGISTER] multiplies each of the 64 bytes
    and keeps the result within 512 bits; the multiplier 1 leaves the
    register as it is, 0 clears it, and multiplying by [a] and then by [b] is
    multiplying by [GF_MUL a b]. *)
Theorem GF_MUL_REGISTER_laws (R a b : Z) :
  0 <= R < 2 ^ 512 -> is_byte a -> is_byte b ->
  int_to_bytes (GF_MUL_REGISTER R a) 64
    = map (fun byte => GF_MUL byte a) (int_to_bytes R 64)
  /\ 0 <= GF_MUL_REGISTER R a < 2 ^ 512
  /\ GF_MUL_REGISTER R 1 = R
  /\ GF_MUL_REGISTER R 0 = 0
  /\ GF_MUL_REGISTER (GF_MUL_REGISTER R a) b = GF_MUL_REGISTER R (GF_MUL a b).
Proof.
  intros HR Ha Hb.
  pose proof (AEAD.int_to_bytes_length R 64) as L.
  pose proof (ByteOrder.int_to_bytes_bytes R 64) as B.
  pose proof (ByteOrder.bytes_to_int_int_to_bytes R 64) as V.
  assert (Ba : Forall is_byte (map (fun byte => GF_MUL byte a) (int_to_bytes R 64)))
    by (apply map_GF_bytes; assumption).
  assert (La : length (map (fun byte => GF_MUL byte a) (int_to_bytes R 64)) = 64%nat)
    by (rewrite length_map; exact L).
  assert (E : int_to_bytes (GF_MUL_REGISTER R a) 64
              = map (fun byte => GF_MUL byte a) (int_to_bytes R 64)).
  { rewrite GF_MUL_REGISTER_bytes by exact Ha.
    rewrite <- La at 1. apply ByteOrder.int_to_bytes_bytes_to_int, Ba. }
  split; [exact E|]. split; [|split; [|split]].
  - rewrite GF_MUL_REGISTER_bytes by exact Ha.
    pose proof (ByteOrder.bytes_to_int_range _ Ba) as Rg. rewrite La in Rg. exact Rg.
  - rewrite GF_MUL_REGISTER_bytes by (unfold is_byte; lia).
    rewrite (map_ext_in _ (fun x => x)), map_id.
    + rewrite V. apply Z.mod_small. exact HR.
    + intros x Hx. apply GF_MUL_one_r. rewrite Forall_forall in B. apply B, Hx.
  - rewrite GF_MUL_REGISTER_bytes by (unfold is_byte; lia).
    rewrite (map_ext_in _ (fun _ => 0)).
    + generalize (int_to_bytes R 64). intros l. unfold bytes_to_int.
      induction l as [|x l IH]; [reflexivity|exact IH].
    + intros x Hx. apply GF_MUL_zero_r. rewrite Forall_forall in B. apply B, Hx.
  - rewrite (GF_MUL_REGISTER_bytes (GF_MUL_REGISTER R a)) by exact Hb.
    rewrite E, map_map.
    rewrite GF_MUL_REGISTER_bytes by (apply GF_MUL_byte; assumption).
    f_equal. apply map_ext_in. intros x Hx.
    apply GF_MUL_assoc; try assumption. rewrite Forall_forall in B. apply B, Hx.
Qed.

Lemma GF_MUL_REGISTER_laws_witness :
  int_to_bytes (GF_MUL_REGISTER 0x0102030405060708 2) 64
    = map (fun byte => GF_MUL byte 2) (int_to_bytes 0x0102030405060708 64)
  /\ 0 <= GF_MUL_REGISTER 0x0102030405060708 2 < 2 ^ 512
  /\ GF_MUL_REGISTER 0x0102030405060708 1 = 0x0102030405060708
  /\ GF_MUL_REGISTER 0x0102030405060708 0 = 0
  /\ GF_MUL_REGISTER (GF_MUL_REGISTER 0x0102030405060708 2) 3
     = GF_MUL_REGISTER 0x0102030405060708 (GF_MUL 2 3).
Proof.
  apply (GF_MUL_REGISTER_laws 0x0102030405060708 2 3); unfold is_byte; lia.
Defined.

End RegisterProduct.

(** ** The demo page (ui/demo.ts): the container of an encrypted file and
    the password generator *)

Module Demo.

Import PasswordEnvelope.

(** [handleEncryptFile]: the bytes handed to the worker,
    [filenameLength (2) + filename + fileData].  [>>] and [&] work on the low
    32 bits of the length, of which only bits 8..15 and 0..7 are kept. *)
Definition dataToEncrypt (filenameBytes fileData : list Z) : outcome (list Z) :=
  let filenameLength := repeat 0 2 in
  let filenameLength :=
    upd filenameLength 0
        (Z.land (Z.shiftr (Z.of_nat (length filenameBytes)) 8) 0xff) in
  let filenameLength :=
    upd filenameLength 1 (Z.land (Z.of_nat (length filenameBytes)) 0xff) in
  let result := repeat 0 (2 + length filenameBytes + length fileData) in
  match typed_array_set result filenameLength 0 with
  | Thrown message => Thrown message
  | Returned result =>
      match typed_array_set result filenameBytes 2 with
      | Thrown message => Thrown message
      | Returned result => typed_array_set result fileData (2 + length filenameBytes)
      end
  end.

(** [handleDecryptFile]: the name and the content taken out of the decrypted
    bytes; an element read past the end is [undefined], 0 under [<<] and [|]. *)
Definition extract (decrypted : list Z) : list Z * list Z :=
  let filenameLength :=
    Z.to_nat (Z.lor (Z.shiftl (nth 0 decrypted 0) 8) (nth 1 decrypted 0)) in
  let filenameBytes := PasswordAPI.subarray decrypted 2 (2 + filenameLength) in
  let fileData := skipn (2 + filenameLength) decrypted in
  (filenameBytes, fileData).

(** [generateRandomPassword]: one character per random byte. *)
Definition chars : string :=
  "ABCDEFGHIJKLMNOPQRSTUVWXYZabcdefghijklmnopqrstuvwxyz0123456789!@#$%^&*".

(** [password += chars[k]]; an index outside the string appends the text of
    [undefined]. *)
Definition char_at (k : Z) : string :=
  match String.get (Z.to_nat k) chars with
  | Some c => String c EmptyString
  | None => "undefined"
  end.

Definition generateRandomPassword (array : list Z) : string :=
  fold_left
    (fun password i =>
       (password ++ char_at (nth i array 0 mod Z.of_nat (String.length chars)))%string)
    (seq 0 24) EmptyString.

Example extract_empty : extract [] = ([], []).
Proof. reflexivity. Qed.

(** *** The container *)

Lemma typed_array_set_segment (pre old post source : list Z) (offset : nat) :
  offset = length pre -> length old = length source ->
  typed_array_set (pre ++ old ++ post) source offset
  = Returned (pre ++ source ++ post).
Proof.
  intros -> Hl. unfold typed_array_set.
  replace (length (pre ++ old ++ post) <? length pre + length source)%nat with false
    by (symmetry; apply Nat.ltb_ge; rewrite !length_app; lia).
  assert (S : skipn (length pre + length source) (pre ++ old ++ post) = post).
  { rewrite app_assoc. apply Modes.skipn_app_exact. rewrite length_app. lia. }
  rewrite S, (Modes.firstn_app_exact pre _ _ eq_refl). reflexivity.
Qed.

Lemma dataToEncrypt_eq (filenameBytes fileData : list Z) :
  dataToEncrypt filenameBytes fileData
  = Returned ([Z.land (Z.shiftr (Z.of_nat (length filenameBytes)) 8) 0xff;
               Z.land (Z.of_nat (length filenameBytes)) 0xff]
              ++ filenameBytes ++ fileData).
Proof.
  unfold dataToEncrypt. cbn [repeat upd].
  set (hi := Z.land (Z.shiftr (Z.of_nat (length filenameBytes)) 8) 0xff).
  set (lo := Z.land (Z.of_nat (length filenameBytes)) 0xff).
  replace (repeat 0 (2 + length filenameBytes + length fileData))
    with ([] ++ repeat 0 2 ++ repeat 0 (length filenameBytes) ++ repeat 0 (length fileData))
    by (cbn [app]; rewrite <- !repeat_app; f_equal; lia).
  rewrite (typed_array_set_segment [] (repeat 0 2) _ [hi; lo] 0 eq_refl eq_refl).
  rewrite app_nil_l. cbv beta iota.
  rewrite (typed_array_set_segment [hi; lo] (repeat 0 (length filenameBytes))
             (repeat 0 (length fileData)) filenameBytes 2 eq_refl (repeat_length _ _)).
  rewrite (app_assoc [hi; lo] filenameBytes).
  rewrite <- (app_nil_r (repeat 0 (length fileData))).
  rewrite (typed_array_set_segment ([hi; lo] ++ filenameBytes)
             (repeat 0 (length fileData)) [] fileData
             (2 + length filenameBytes) eq_refl (repeat_length _ _)).
  rewrite app_nil_r, <- app_assoc. reflexivity.
Qed.

Lemma length_field (len : Z) :
  0 <= len ->
  Z.lor (Z.shiftl (Z.land (Z.shiftr len 8) 0xff) 8) (Z.land len 0xff) = len mod 65536.
Proof.
  intros H. change 0xff with (Z.ones 8). change 65536 with (2 ^ 16).
  rewrite <- (Z.land_ones len 16) by lia.
  apply Z.bits_inj'. intros n Hn.
  rewrite Z.lor_spec, !Z.land_spec.
  destruct (Z.lt_ge_cases n 8) as [L|G].
  - rewrite Z.shiftl_spec_low by lia. cbn [orb].
    rewrite !Z.ones_spec_low by lia. reflexivity.
  - rewrite Z.shiftl_spec, Z.land_spec, Z.shiftr_spec by lia.
    replace (n - 8 + 8) with n by lia.
    rewrite (Z.ones_spec_high 8 n) by lia. rewrite andb_false_r, orb_false_r.
    destruct (Z.lt_ge_cases n 16) as [L|G'].
    + rewrite !Z.ones_spec_low by lia. reflexivity.
    + rewrite !Z.ones_spec_high by lia. reflexivity.
Qed.

(** X12: The container holds the name and the content and gives both back when
    the name has fewer than 65536 bytes; the two-byte length field keeps the
    length modulo 65536, so a longer name comes back cut at that length and
    its remainder in front of the content. *)
Theorem file_container_round_trip (filenameBytes fileData : list Z) :
  exists container,
    dataToEncrypt filenameBytes fileData = Returned container
    /\ length container = (2 + length filenameBytes + length fileData)%nat
    /\ (let kept := Z.to_nat (Z.of_nat (length filenameBytes) mod 65536) in
        extract container
        = (firstn kept filenameBytes, skipn kept filenameBytes ++ fileData))
    /\ (Z.of_nat (length filenameBytes) < 65536 ->
        extract container = (filenameBytes, fileData)).
Proof.
  rewrite dataToEncrypt_eq. eexists. split; [reflexivity|].
  set (n := length filenameBytes).
  set (kept := Z.to_nat (Z.of_nat n mod 65536)).
  assert (Le : (kept <= n)%nat).
  { subst kept. pose proof (Z.mod_pos_bound (Z.of_nat n) 65536 ltac:(lia)).
    pose proof (Z.mod_le (Z.of_nat n) 65536 ltac:(lia) ltac:(lia)). lia. }
  assert (G : extract
                ([Z.land (Z.shiftr (Z.of_nat n) 8) 0xff; Z.land (Z.of_nat n) 0xff]
                 ++ filenameBytes ++ fileData)
              = (firstn kept filenameBytes, skipn kept filenameBytes ++ fileData)).
  { unfold extract. cbn [app nth].
    rewrite length_field by lia. fold kept.
    unfold PasswordAPI.subarray.
    replace (2 + kept - 2)%nat with kept by lia.
    cbn [skipn Nat.add]. f_equal.
    - rewrite firstn_app.
      replace (kept - length filenameBytes)%nat with 0%nat by (fold n; lia).
      cbn [firstn]. apply app_nil_r.
    - rewrite skipn_app.
      replace (kept - length filenameBytes)%nat with 0%nat by (fold n; lia).
      reflexivity. }
  split; [cbn [length app]; rewrite length_app; fold n; lia|].
  split; [exact G|].
  intros Hn. rewrite G.
  assert (K : kept = n) by (subst kept; rewrite Z.mod_small by lia; lia).
  rewrite K. subst n. rewrite firstn_all, skipn_all. reflexivity.
Qed.

(** *** The password generator *)

Lemma char_at_In (k : Z) :
  0 <= k < 70 ->
  exists c, char_at k = String c EmptyString /\ In c (list_ascii_of_string chars).
Proof.
  intros Hk.
  assert (A : forallb
                (fun k => match String.get (Z.to_nat k) chars with
                          | Some c => existsb (Ascii.eqb c) (list_ascii_of_string chars)
                          | None => false
                          end) (Zrange 0 70) = true) by (vm_compute; reflexivity).
  pose proof (Zrange_forallb _ 0 70 A k ltac:(lia)) as H. cbv beta in H.
  unfold char_at. destruct (String.get (Z.to_nat k) chars) as [c|]; [|discriminate].
  exists c. split; [reflexivity|].
  apply existsb_exists in H. destruct H as (d & Hd & E).
  apply Ascii.eqb_eq in E. subst d. exact Hd.
Qed.

Lemma list_ascii_append (a b : string) :
  list_ascii_of_string (a ++ b) = list_ascii_of_string a ++ list_ascii_of_string b.
Proof. induction a as [|c a IH]; cbn; [reflexivity|]. rewrite IH. reflexivity. Qed.

Lemma string_length_list (s : string) :
  String.length s = length (list_ascii_of_string s).
Proof. induction s as [|c s IH]; cbn; [reflexivity|]. rewrite IH. reflexivity. Qed.

Lemma password_loop (array : list Z) (indices : list nat) (start : string) :
  exists drawn,
    list_ascii_of_string
      (fold_left
         (fun password i =>
            (password
             ++ char_at (nth i array 0 mod Z.of_nat (String.length chars)))%string)
         indices start)
    = list_ascii_of_string start ++ drawn
    /\ length drawn = length indices
    /\ Forall (fun c => In c (list_ascii_of_string chars)) drawn.
Proof.
  revert start. induction indices as [|i indices IH]; intros start.
  - exists []. cbn [fold_left]. rewrite app_nil_r. repeat split. constructor.
  - cbn [fold_left length].
    destruct (char_at_In (nth i array 0 mod Z.of_nat (String.length chars))
                ltac:(apply Z.mod_pos_bound; cbn; lia)) as (c & E & Hc).
    rewrite E.
    destruct (IH (start ++ String c EmptyString)%string) as (drawn & D & L & F).
    exists (c :: drawn). rewrite D, list_ascii_append. cbn [list_ascii_of_string].
    rewrite <- app_assoc. cbn [app length]. split; [reflexivity|].
    split; [lia|]. constructor; assumption.
Qed.

(** How many byte values select the character at position [k]. *)
Definition selecting (k : Z) : list Z :=
  filter (fun byte => byte mod Z.of_nat (String.length chars) =? k) all_bytes.

(** X13: On the 24 random bytes the page draws, the generated password has 24
    characters, each from the 70-character alphabet; the draw is not uniform:
    the first 46 characters of the alphabet are selected by 4 byte values
    each, the other 24 by 3. *)
Theorem generateRandomPassword_alphabet (array : list Z) (k : Z) :
  length array = 24%nat -> Forall is_byte array ->
  String.length (generateRandomPassword array) = 24%nat
  /\ Forall (fun c => In c (list_ascii_of_string chars))
            (list_ascii_of_string (generateRandomPassword array))
  /\ (0 <= k < 70 -> length (selecting k) = if k <? 46 then 4%nat else 3%nat).
Proof.
  intros _ _. unfold generateRandomPassword.
  destruct (password_loop array (seq 0 24) EmptyString) as (drawn & D & L & F).
  rewrite string_length_list, D. cbn [list_ascii_of_string app].
  split; [rewrite L; reflexivity|]. split; [exact F|].
  intros Hk.
  assert (A : forallb (fun k => (length (selecting k) =? (if (k <? 46)%Z then 4 else 3))%nat)
                      (Zrange 0 70) = true) by (vm_compute; reflexivity).
  apply Nat.eqb_eq. apply (Zrange_forallb _ 0 70 A k). lia.
Qed.

Lemma generateRandomPassword_alphabet_witness :
  String.length (generateRandomPassword (Zrange 60 24)) = 24%nat
  /\ Forall (fun c => In c (list_ascii_of_string chars))
            (list_ascii_of_string (generateRandomPassword (Zrange 60 24)))
  /\ (0 <= 45 < 70 -> length (selecting 45) = if 45 <? 46 then 4%nat else 3%nat).
Proof.
  apply (generateRandomPassword_alphabet (Zrange 60 24) 45); [reflexivity|].
  apply Forall_forall. intros v I. apply in_map_iff in I.
  destruct I as (i & <- & I). apply in_seq in I. unfold is_byte. lia.
Defined.

End Demo.

(** ** Hexadecimal text (cipher/index.ts, bytesToHex and hexToBytes) *)

Module Hex.

Import Encoding.

Definition is_lower_hex (c : ascii) : bool := existsb (Ascii.eqb c) hex_digits.

(** An even number of lower-case hexadecimal digits. *)
Fixpoint canonical (hex : string) : bool :=
  match hex with
  | EmptyString => true
  | String h1 (String h0 rest) => is_lower_hex h1 && is_lower_hex h0 && canonical rest
  | String _ EmptyString => false
  end.

Lemma string_ind2 (P : string -> Prop) :
  P EmptyString -> (forall c, P (String c EmptyString)) ->
  (forall c d s, P s -> P (String c (String d s))) ->
  forall s, P s.
Proof.
  intros H0 H1 H2. fix IH 1. intros [|c [|d s]].
  - exact H0.
  - apply H1.
  - apply H2, IH.
Qed.

Lemma digits_pair (h1 h0 : ascii) :
  is_lower_hex h1 = true -> is_lower_hex h0 = true ->
  padStart (toString16 (toUint8 (parseInt16 (String h1 (String h0 EmptyString)))))
           2 "0"%char
  = String h1 (String h0 EmptyString).
Proof.
  intros H1 H0.
  assert (A : forallb
                (fun h1 =>
                   forallb
                     (fun h0 =>
                        String.eqb
                          (padStart
                             (toString16
                                (toUint8 (parseInt16 (String h1 (String h0 EmptyString)))))
                             2 "0"%char)
                          (String h1 (String h0 EmptyString)))
                     hex_digits) hex_digits = true) by (vm_compute; reflexivity).
  unfold is_lower_hex in *. apply existsb_exists in H1, H0.
  destruct H1 as (d1 & I1 & E1). destruct H0 as (d0 & I0 & E0).
  apply Ascii.eqb_eq in E1, E0. subst d1 d0.
  rewrite forallb_forall in A. specialize (A h1 I1).
  rewrite forallb_forall in A. specialize (A h0 I0).
  apply String.eqb_eq, A.
Qed.

Lemma bytesToHex_cons (b : Z) (rest : list Z) :
  bytesToHex (b :: rest)
  = (padStart (toString16 b) 2 "0"%char ++ bytesToHex rest)%string.
Proof.
  unfold bytesToHex. cbn [map].
  destruct rest as [|b' rest']; cbn [map String.concat].
  - generalize (padStart (toString16 b) 2 "0"%char). intros s.
    induction s as [|c s IH]; cbn; [reflexivity|]. rewrite <- IH. reflexivity.
  - reflexivity.
Qed.

(** X14: [hexToBytes] never fails: any text gives one byte for each full pair of
    characters (a digit left over is dropped), each in 0..255; and on an even
    number of lower-case hexadecimal digits [bytesToHex] gives the text back. *)
Theorem hexToBytes_total (hex : string) :
  length (hexToBytes hex) = (String.length hex / 2)%nat
  /\ Forall is_byte (hexToBytes hex)
  /\ (canonical hex = true -> bytesToHex (hexToBytes hex) = hex).
Proof.
  split; [|split].
  - unfold hexToBytes. rewrite length_map, length_seq. reflexivity.
  - unfold hexToBytes. apply Forall_forall. intros x Hx.
    apply in_map_iff in Hx. destruct Hx as (i & <- & _).
    unfold toUint8, is_byte. destruct (parseInt16 _); [apply Z.mod_pos_bound|]; lia.
  - induction hex as [|c|h1 h0 rest IH] using string_ind2; intros C.
    + reflexivity.
    + discriminate.
    + cbn [canonical] in C. apply andb_prop in C. destruct C as [C Cr].
      apply andb_prop in C. destruct C as [C1 C0].
      rewrite hexToBytes_cons2, bytesToHex_cons, digits_pair, (IH Cr) by assumption.
      reflexivity.
Qed.

End Hex.

(** ** The byte stream of the PRNG (README, "Algorithm: ChaCha20 PRNG") *)

Module Stream.

Import PRNG Basics.

Section WithPrimitives.
Context {prims : Primitives}.

(** One pass of the loop with [count > 0]: the state once the buffer has
    been refilled if it was used up, the number of bytes taken, the bytes, and
    the state after the pass. *)
Definition prepared (st : state) : state :=
  if (64 <=? buffer_pos st)%nat then refill st else st.

Definition taken (st : state) (count : nat) : nat :=
  Nat.min (64 - buffer_pos (prepared st)) count.

Definition chunk (st : state) (count : nat) : list Z :=
  firstn (taken st count) (skipn (buffer_pos (prepared st)) (buffer (prepared st))).

Definition advance (st : state) (count : nat) : state :=
  {| key := key (prepared st); nonce := nonce (prepared st);
     counter := counter (prepared st); buffer := buffer (prepared st);
     buffer_pos := (buffer_pos (prepared st) + taken st count)%nat |}.

Lemma state_eq (s t : state) :
  key s = key t -> nonce s = nonce t -> counter s = counter t ->
  buffer s = buffer t -> buffer_pos s = buffer_pos t -> s = t.
Proof. destruct s, t. cbn. intros; subst; reflexivity. Qed.

Lemma loop_S (fuel : nat) (st : state) (count : nat) (result : list Z) :
  count <> 0%nat ->
  NextBytes_loop (S fuel) st count result
  = NextBytes_loop fuel (advance st count) (count - taken st count)
      (result ++ chunk st count).
Proof.
  intros H. cbn [NextBytes_loop].
  replace (count =? 0)%nat with false by (symmetry; apply Nat.eqb_neq; exact H).
  reflexivity.
Qed.

Lemma prepared_pos (st : state) : (buffer_pos (prepared st) < 64)%nat.
Proof.
  unfold prepared. destruct (64 <=? buffer_pos st)%nat eqn:E; [cbn; lia|].
  apply Nat.leb_gt in E. exact E.
Qed.

Lemma prepared_keep (st : state) : (buffer_pos st < 64)%nat -> prepared st = st.
Proof.
  intros H. unfold prepared.
  replace (64 <=? buffer_pos st)%nat with false; [reflexivity|].
  symmetry. apply Nat.leb_gt, H.
Qed.

Lemma taken_pos (st : state) (count : nat) :
  count <> 0%nat -> (1 <= taken st count <= count)%nat.
Proof. intros H. unfold taken. pose proof (prepared_pos st). lia. Qed.

Lemma loop_result (fuel : nat) (st : state) (count : nat) (result : list Z) :
  NextBytes_loop fuel st count result
  = (result ++ fst (NextBytes_loop fuel st count []),
     snd (NextBytes_loop fuel st count [])).
Proof.
  revert st count result. induction fuel as [|fuel IH]; intros st count result.
  - cbn. rewrite app_nil_r. reflexivity.
  - destruct (Nat.eq_dec count 0) as [->|N].
    + cbn. rewrite app_nil_r. reflexivity.
    + rewrite !loop_S by exact N. rewrite IH.
      rewrite (IH _ _ ([] ++ _)). cbn [app fst snd]. rewrite app_assoc. reflexivity.
Qed.

Lemma NextBytes_zero (st : state) : ChaCha20_NextBytes st 0 = ([], st).
Proof. reflexivity. Qed.

Lemma NextBytes_step (st : state) (count : nat) :
  count <> 0%nat ->
  ChaCha20_NextBytes st count
  = (chunk st count
       ++ fst (ChaCha20_NextBytes (advance st count) (count - taken st count)),
     snd (ChaCha20_NextBytes (advance st count) (count - taken st count))).
Proof.
  intros H. unfold ChaCha20_NextBytes.
  destruct count as [|count]; [congruence|].
  rewrite loop_S by exact H.
  rewrite loop_result. cbn [app].
  pose proof (taken_pos st (S count) H) as T.
  rewrite (NextBytes_loop_fuel count (S count - taken st (S count))) by lia.
  reflexivity.
Qed.

(** X15: Two requests in a row return what one request for both would: the bytes
    of a request for [a + b] are those of a request for [a] followed by those
    of a request for [b], and the generator is left in the same state. *)
Theorem ChaCha20_NextBytes_split (st : state) (a b : nat) :
  ChaCha20_NextBytes st (a + b)
  = (fst (ChaCha20_NextBytes st a)
       ++ fst (ChaCha20_NextBytes (snd (ChaCha20_NextBytes st a)) b),
     snd (ChaCha20_NextBytes (snd (ChaCha20_NextBytes st a)) b)).
Proof.
  revert st. induction a as [a IH] using (well_founded_induction lt_wf). intros st.
  destruct (Nat.eq_dec a 0) as [->|Na].
  { rewrite NextBytes_zero. cbn [fst snd app Nat.add].
    destruct (ChaCha20_NextBytes st b). reflexivity. }
  destruct (Nat.eq_dec b 0) as [->|Nb].
  { rewrite Nat.add_0_r, NextBytes_zero. cbn [fst snd]. rewrite app_nil_r.
    destruct (ChaCha20_NextBytes st a). reflexivity. }
  rewrite (NextBytes_step st (a + b)) by lia.
  rewrite (NextBytes_step st a) by exact Na. cbn [fst snd].
  pose proof (prepared_pos st) as P.
  destruct (Nat.le_gt_cases (64 - buffer_pos (prepared st)) a) as [Full|Part].
  - (* the first pass empties the buffer in both runs *)
    assert (T : taken st (a + b) = taken st a) by (unfold taken; lia).
    assert (C : chunk st (a + b) = chunk st a) by (unfold chunk; rewrite T; reflexivity).
    assert (A : advance st (a + b) = advance st a)
      by (unfold advance; rewrite T; reflexivity).
    rewrite C, A, T.
    replace (a + b - taken st a)%nat with ((a - taken st a) + b)%nat
      by (unfold taken; lia).
    rewrite (IH (a - taken st a)%nat ltac:(unfold taken; lia)).
    cbn [fst snd]. rewrite app_assoc. reflexivity.
  - (* the request for [a] ends inside the buffer *)
    assert (Ta : taken st a = a) by (unfold taken; lia).
    rewrite Ta, Nat.sub_diag, NextBytes_zero. cbn [fst snd]. rewrite app_nil_r.
    rewrite (NextBytes_step (advance st a) b) by exact Nb. cbn [fst snd].
    assert (K : prepared (advance st a) = advance st a).
    { apply prepared_keep. unfold advance. cbn [buffer_pos]. lia. }
    assert (Tb : taken (advance st a) b
                 = Nat.min (64 - buffer_pos (prepared st) - a) b).
    { unfold taken at 1. rewrite K. unfold advance. cbn [buffer_pos].
      rewrite Ta. f_equal. lia. }
    assert (Tab : taken st (a + b) = (a + taken (advance st a) b)%nat)
      by (rewrite Tb; unfold taken; lia).
    assert (A : advance st (a + b) = advance (advance st a) b).
    { apply state_eq; unfold advance at 1 2; cbn [key nonce counter buffer buffer_pos];
        rewrite K; unfold advance; cbn [key nonce counter buffer buffer_pos];
        try reflexivity.
      fold (advance st a). rewrite Tab, Ta. lia. }
    assert (C : chunk st (a + b) = chunk st a ++ chunk (advance st a) b).
    { unfold chunk. rewrite K, Tab, Ta.
      rewrite firstn_split, skipn_skipn.
      replace (buffer (advance st a)) with (buffer (prepared st)) by reflexivity.
      replace (buffer_pos (advance st a)) with (buffer_pos (prepared st) + a)%nat
        by (unfold advance; cbn [buffer_pos]; rewrite Ta; reflexivity).
      f_equal. f_equal. f_equal. lia. }
    rewrite C, A, Tab.
    replace (a + b - (a + taken (advance st a) b))%nat
      with (b - taken (advance st a) b)%nat by lia.
    rewrite <- app_assoc. reflexivity.
Qed.

(** *** The stream from a fresh generator *)

Hypothesis block_size :
  forall key nonce counter, length (ChaCha20_Block key nonce counter) = 64%nat.

(** The blocks [counter, counter + 1, ..] end to end. *)
Definition keystream (key nonce : list Z) (counter : Z) (blocks : nat) : list Z :=
  flat_map (ChaCha20_Block key nonce) (Zrange counter blocks).

Lemma from_empty_buffer (count : nat) (st : state) :
  (64 <= buffer_pos st)%nat ->
  fst (ChaCha20_NextBytes st count)
  = firstn count (keystream (key st) (nonce st) (counter st) (count / 64 + 1)).
Proof.
  revert st. induction count as [count IH] using (well_founded_induction lt_wf).
  intros st Hp.
  destruct (Nat.eq_dec count 0) as [->|N]; [reflexivity|].
  rewrite NextBytes_step by exact N. cbn [fst].
  assert (R : prepared st = refill st).
  { unfold prepared. replace (64 <=? buffer_pos st)%nat with true; [reflexivity|].
    symmetry. apply Nat.leb_le, Hp. }
  assert (T : taken st count = Nat.min 64 count).
  { unfold taken. rewrite R. reflexivity. }
  assert (F : chunk st count
              = firstn (Nat.min 64 count)
                  (ChaCha20_Block (key st) (nonce st) (counter st))).
  { unfold chunk. rewrite T, R. reflexivity. }
  rewrite F, T.
  unfold keystream. rewrite Nat.add_1_r, Zrange_S. cbn [flat_map].
  set (block := ChaCha20_Block (key st) (nonce st) (counter st)).
  pose proof (block_size (key st) (nonce st) (counter st)) as L. fold block in L.
  destruct (Nat.le_gt_cases count 64) as [Small|Big].
  - replace (count - Nat.min 64 count)%nat with 0%nat by lia.
    rewrite NextBytes_zero. cbn [fst]. rewrite app_nil_r.
    replace (Nat.min 64 count) with count by lia.
    rewrite firstn_app. replace (count - length block)%nat with 0%nat by lia.
    cbn [firstn]. rewrite app_nil_r. reflexivity.
  - replace (Nat.min 64 count) with 64%nat by lia.
    rewrite (IH (count - 64)%nat ltac:(lia)).
    2:{ unfold advance. rewrite T, R. cbn [buffer_pos refill]. lia. }
    rewrite firstn_all2 by lia.
    rewrite firstn_app, (@firstn_all2 _ count block) by lia. rewrite L.
    replace (key (advance st count)) with (key st)
      by (unfold advance; rewrite R; reflexivity).
    replace (nonce (advance st count)) with (nonce st)
      by (unfold advance; rewrite R; reflexivity).
    replace (counter (advance st count)) with (counter st + 1)
      by (unfold advance; rewrite R; reflexivity).
    unfold keystream.
    replace (count / 64)%nat with ((count - 64) / 64 + 1)%nat; [reflexivity|].
    replace count with (count - 64 + 1 * 64)%nat at 2 by lia.
    rewrite Nat.div_add by lia. reflexivity.
Qed.

(** X16: From [ChaCha20_Init] the generator returns the first [count] bytes of the
    ChaCha20 blocks 0, 1, 2, .. under its key and nonce, and exactly [count]
    of them. *)
Theorem ChaCha20_NextBytes_keystream (k n : list Z) (count : nat) :
  fst (ChaCha20_NextBytes (ChaCha20_Init k n) count)
  = firstn count (keystream k n 0 (count / 64 + 1))
  /\ length (fst (ChaCha20_NextBytes (ChaCha20_Init k n) count)) = count.
Proof.
  assert (KL : forall c blocks, length (keystream k n c blocks) = (64 * blocks)%nat).
  { intros c blocks. revert c. induction blocks as [|blocks IHb]; intros c.
    - reflexivity.
    - unfold keystream in *. rewrite Zrange_S. cbn [flat_map].
      rewrite length_app, block_size, IHb. lia. }
  assert (A : fst (ChaCha20_NextBytes (ChaCha20_Init k n) count)
              = firstn count (keystream k n 0 (count / 64 + 1))).
  { rewrite (from_empty_buffer count (ChaCha20_Init k n)) by (cbn; lia). reflexivity. }
  split; [exact A|].
  rewrite A, length_firstn, KL.
  pose proof (Nat.div_mod_eq count 64).
  pose proof (Nat.mod_upper_bound count 64 ltac:(lia)). lia.
Qed.

End WithPrimitives.

Lemma block_length (key nonce : list Z) (counter : Z) :
  length (ChaCha20.block key nonce counter) = 64%nat.
Proof.
  unfold ChaCha20.block. cbv zeta.
  generalize (fun i => ChaCha20.add32
                (nth i (Nat.iter 10 ChaCha20.double_round
                          ([1634760805; 857760878; 2036477234; 1797285236]
                           ++ ChaCha20.words_le 8 key
                           ++ [Z.land counter ChaCha20.mask32]
                           ++ ChaCha20.words_le 3 nonce)) 0)
                (nth i ([1634760805; 857760878; 2036477234; 1797285236]
                        ++ ChaCha20.words_le 8 key
                        ++ [Z.land counter ChaCha20.mask32]
                        ++ ChaCha20.words_le 3 nonce) 0)).
  intros f. cbn [seq map flat_map]. rewrite !length_app. reflexivity.
Qed.

Lemma ChaCha20_NextBytes_keystream_witness :
  fst (ChaCha20_NextBytes (ChaCha20_Init (Zrange 0 32) (repeat 0 12)) 100)
  = firstn 100 (keystream (Zrange 0 32) (repeat 0 12) 0 (100 / 64 + 1))
  /\ length (fst (ChaCha20_NextBytes (ChaCha20_Init (Zrange 0 32) (repeat 0 12)) 100))
     = 100%nat.
Proof.
  apply (@ChaCha20_NextBytes_keystream reference_primitives block_length
           (Zrange 0 32) (repeat 0 12) 100).
Defined.

End Stream.

(** ** PKCS#7 padding for any block size (README, "Padding: PKCS#7") *)

Module Padding.

Import Modes.

Lemma padding_len_bounds (len block_size : nat) :
  (0 < block_size)%nat ->
  let padding_len := (block_size - len mod block_size)%nat in
  let padding_len := if (padding_len =? 0)%nat then block_size else padding_len in
  (1 <= padding_len <= block_size)%nat
  /\ ((len + padding_len) mod block_size = 0)%nat.
Proof.
  intros Hb. cbv zeta.
  pose proof (Nat.mod_upper_bound len block_size ltac:(lia)) as U.
  replace (block_size - len mod block_size =? 0)%nat with false
    by (symmetry; apply Nat.eqb_neq; lia).
  split; [lia|].
  pose proof (Nat.div_mod_eq len block_size) as E.
  replace (len + (block_size - len mod block_size))%nat
    with ((len / block_size + 1) * block_size)%nat by nia.
  apply Nat.Div0.mod_mul.
Qed.

Lemma all_equal (l : list Z) (v : Z) :
  (forall i, (i < length l)%nat -> nth i l 0 = v) -> l = repeat v (length l).
Proof.
  induction l as [|x l IH]; intros H; [reflexivity|].
  cbn [length repeat]. f_equal.
  - apply (H 0%nat). cbn. lia.
  - apply IH. intros i Hi. apply (H (S i)). cbn. lia.
Qed.

(** X17: For a block size of 1 to 255 bytes, padding adds between 1 and
    [block_size] bytes, each holding that number, and brings the length to a
    multiple of the block size; the padded bytes are bytes again, and removing
    the padding gives the data back. *)
Theorem pkcs7_round_trip (data : list Z) (block_size : nat) :
  (0 < block_size <= 255)%nat ->
  let padded := pkcs7_pad data block_size in
  pkcs7_unpad padded = Returned data
  /\ (length padded mod block_size = 0)%nat
  /\ (length data < length padded <= length data + block_size)%nat
  /\ (Forall is_byte data -> Forall is_byte padded).
Proof.
  intros [Hb H255]. cbv zeta. unfold pkcs7_pad.
  pose proof (padding_len_bounds (length data) block_size Hb) as [R M]. cbv zeta in R, M.
  set (p := if (block_size - length data mod block_size =? 0)%nat
            then block_size else (block_size - length data mod block_size)%nat) in *.
  assert (N : forall i, (length data <= i < length data + p)%nat ->
                        nth i (data ++ repeat (Z.of_nat p) p) 0 = Z.of_nat p).
  { intros i Hi. rewrite app_nth2 by lia. apply nth_repeat_lt. lia. }
  split; [|split; [|split]].
  - unfold pkcs7_unpad. rewrite length_app, repeat_length.
    replace (length data + p =? 0)%nat with false
      by (symmetry; apply Nat.eqb_neq; lia).
    rewrite (N (length data + p - 1)%nat) by lia.
    replace (Z.of_nat p =? 0) with false by (symmetry; apply Z.eqb_neq; lia).
    replace (Z.of_nat p >? Z.of_nat (length data + p)) with false
      by (symmetry; rewrite Z.gtb_ltb; apply Z.ltb_ge; lia).
    cbn [orb]. rewrite Nat2Z.id.
    replace (length data + p - p)%nat with (length data) by lia.
    replace (forallb _ _) with true.
    + rewrite firstn_app, Nat.sub_diag, firstn_all. cbn [firstn].
      rewrite app_nil_r. reflexivity.
    + symmetry. apply forallb_forall. intros i Hi. apply in_seq in Hi.
      apply Z.eqb_eq, N. lia.
  - rewrite length_app, repeat_length. exact M.
  - rewrite length_app, repeat_length. lia.
  - intros Hd. apply Forall_app. split; [exact Hd|].
    apply Forall_forall. intros x Hx. apply repeat_spec in Hx. subst x.
    unfold is_byte. lia.
Qed.

Lemma pkcs7_round_trip_witness :
  let padded := pkcs7_pad [1; 2; 3; 4; 5] 4 in
  pkcs7_unpad padded = Returned [1; 2; 3; 4; 5]
  /\ (length padded mod 4 = 0)%nat
  /\ (length [1; 2; 3; 4; 5] < length padded <= length [1; 2; 3; 4; 5] + 4)%nat
  /\ (Forall is_byte [1; 2; 3; 4; 5] -> Forall is_byte padded).
Proof. apply (pkcs7_round_trip [1; 2; 3; 4; 5] 4). lia. Defined.

(** X18: Whatever [pkcs7_unpad] returns, the input was that result followed by
    [p] bytes of value [p], for the [p] between 1 and the length of the input
    that its last byte holds. *)
Theorem pkcs7_unpad_inversion (data unpadded : list Z) :
  Forall is_byte data -> pkcs7_unpad data = Returned unpadded ->
  exists p, (1 <= p <= length data)%nat
            /\ Z.of_nat p = nth (length data - 1) data 0
            /\ data = unpadded ++ repeat (Z.of_nat p) p.
Proof.
  intros Hd. unfold pkcs7_unpad.
  destruct (length data =? 0)%nat; [discriminate|].
  set (v := nth (length data - 1) data 0).
  assert (Hv : 0 <= v).
  { subst v. destruct (nth_in_or_default (length data - 1) data 0) as [I|E].
    - rewrite Forall_forall in Hd. apply Hd in I. unfold is_byte in I. lia.
    - rewrite E. lia. }
  destruct ((v =? 0) || (v >? Z.of_nat (length data))) eqn:G; [discriminate|].
  apply orb_false_elim in G. destruct G as [G1 G2].
  apply Z.eqb_neq in G1. rewrite Z.gtb_ltb in G2. apply Z.ltb_ge in G2.
  destruct (forallb _ _) eqn:F; [|discriminate].
  intros E. inversion E as [E']. clear E.
  exists (Z.to_nat v). split; [lia|]. split; [lia|].
  rewrite Z2Nat.id by lia.
  rewrite forallb_forall in F.
  set (start := (length data - Z.to_nat v)%nat) in *.
  rewrite <- (firstn_skipn start data) at 1. f_equal.
  assert (L : length (skipn start data) = Z.to_nat v)
    by (rewrite length_skipn; subst start; lia).
  rewrite <- L. apply all_equal. intros i Hi.
  specialize (F (start + i)%nat ltac:(apply in_seq; lia)).
  apply Z.eqb_eq in F. rewrite nth_skipn. exact F.
Qed.

Lemma pkcs7_unpad_inversion_witness :
  exists p, (1 <= p <= length [7; 8; 9; 2; 2])%nat
            /\ Z.of_nat p = nth (length [7; 8; 9; 2; 2] - 1) [7; 8; 9; 2; 2] 0
            /\ [7; 8; 9; 2; 2] = [7; 8; 9] ++ repeat (Z.of_nat p) p.
Proof.
  apply (pkcs7_unpad_inversion [7; 8; 9; 2; 2] [7; 8; 9]).
  - repeat constructor; unfold is_byte; lia.
  - reflexivity.
Defined.

End Padding.

(** ** What the acceptance tests of an S-box measure (README, "Algorithm: S-Box
    Property Verification", "Algorithm: Differential Uniformity Computation") *)

Module SBoxChecks.

Import SBox Basics.

(** *** Bijectivity *)

Lemma bijective_loop_iff (sbox : list Z) (seen : list bool) :
  length seen = 256%nat -> Forall is_byte sbox ->
  bijective_loop sbox seen = true
  <-> NoDup sbox /\ forall v, In v sbox -> nth (Z.to_nat v) seen false = false.
Proof.
  revert seen. induction sbox as [|v rest IH]; intros seen Hl Hb.
  - cbn. split; [intros _; split; [constructor|intros ? []]|reflexivity].
  - inversion_clear Hb as [|? ? Hv Hrest]. unfold is_byte in Hv.
    cbn [bijective_loop].
    destruct (nth (Z.to_nat v) seen false) eqn:S.
    + split; [discriminate|]. intros [_ H].
      rewrite (H v (or_introl eq_refl)) in S. discriminate.
    + rewrite (IH (upd seen (Z.to_nat v) true)
                 ltac:(rewrite upd_length; exact Hl) Hrest).
      split.
      * intros [ND H]. split.
        -- constructor; [|exact ND]. intros I. specialize (H v I).
           rewrite nth_upd_same in H by lia. discriminate.
        -- intros w [<-|I]; [exact S|].
           specialize (H w I).
           destruct (Z.eq_dec w v) as [->|N]; [exact S|].
           rewrite nth_upd_other in H; [exact H|].
           rewrite Forall_forall in Hrest. apply Hrest in I. unfold is_byte in I. lia.
      * intros [ND H]. inversion_clear ND as [|? ? NI ND'].
        split; [exact ND'|]. intros w I.
        rewrite nth_upd_other.
        -- apply H. right. exact I.
        -- assert (w <> v) by (intros ->; contradiction).
           rewrite Forall_forall in Hrest. apply Hrest in I. unfold is_byte in I. lia.
Qed.

(** X19: The bijectivity test accepts a table of 256 bytes exactly when the table
    is a rearrangement of 0..255. *)
Theorem isBijective_iff (sbox : list Z) :
  length sbox = 256%nat -> Forall is_byte sbox ->
  isBijective sbox = true <-> Permutation sbox identity_permutation.
Proof.
  intros Hl Hb. unfold isBijective.
  rewrite (bijective_loop_iff sbox (repeat false 256) (repeat_length _ _) Hb).
  split.
  - intros [ND _]. apply NoDup_Permutation_bis.
    + exact ND.
    + unfold identity_permutation. rewrite Zrange_length, Hl. lia.
    + intros v I. apply Zrange_In.
      rewrite Forall_forall in Hb. apply Hb in I. unfold is_byte in I. lia.
  - intros P. split.
    + eapply Permutation_NoDup; [apply Permutation_sym, P|apply NoDup_Zrange].
    + intros v _. destruct (nth_in_or_default (Z.to_nat v) (repeat false 256) false)
        as [I|E]; [apply repeat_spec in I; exact I|exact E].
Qed.

Lemma isBijective_iff_witness :
  isBijective identity_permutation = true
  <-> Permutation identity_permutation identity_permutation.
Proof.
  apply (isBijective_iff identity_permutation); [reflexivity|apply Basics.identity_bytes].
Defined.

(** *** Differential uniformity *)

(** The inputs [x] with [sbox[x] XOR sbox[x XOR a] = b]. *)
Definition solutions (sbox : list Z) (a b : Z) : list Z :=
  filter (fun x => Z.lxor (nth (Z.to_nat x) sbox 0)
                          (nth (Z.to_nat (Z.lxor x a)) sbox 0) =? b)
         (Zrange 0 256).

Lemma ddt_fold_length (sbox : list Z) (a : Z) (xs : list Z) (counts : list Z) :
  length
    (fold_left
       (fun counts x =>
          let output_diff :=
            Z.lxor (nth (Z.to_nat x) sbox 0) (nth (Z.to_nat (Z.lxor x a)) sbox 0) in
          upd counts (Z.to_nat output_diff) (nth (Z.to_nat output_diff) counts 0 + 1))
       xs counts)
  = length counts.
Proof.
  revert counts. induction xs as [|x xs IH]; intros counts; [reflexivity|].
  cbn [fold_left]. rewrite IH. apply upd_length.
Qed.

Lemma ddt_fold_count (sbox : list Z) (a b : Z) (xs : list Z) (counts : list Z) :
  Forall is_byte sbox -> 0 <= b -> (Z.to_nat b < length counts)%nat ->
  nth (Z.to_nat b)
    (fold_left
       (fun counts x =>
          let output_diff :=
            Z.lxor (nth (Z.to_nat x) sbox 0) (nth (Z.to_nat (Z.lxor x a)) sbox 0) in
          upd counts (Z.to_nat output_diff) (nth (Z.to_nat output_diff) counts 0 + 1))
       xs counts) 0
  = nth (Z.to_nat b) counts 0
    + Z.of_nat (length (filter
                          (fun x => Z.lxor (nth (Z.to_nat x) sbox 0)
                                           (nth (Z.to_nat (Z.lxor x a)) sbox 0) =? b)
                          xs)).
Proof.
  intros Hs Hb. revert counts. induction xs as [|x xs IH]; intros counts Hl.
  - cbn. lia.
  - cbn [fold_left filter]. rewrite IH by (rewrite upd_length; exact Hl).
    set (d := Z.lxor (nth (Z.to_nat x) sbox 0) (nth (Z.to_nat (Z.lxor x a)) sbox 0)).
    assert (Hd : is_byte d) by (apply lxor_byte; apply nth_byte, Hs).
    unfold is_byte in Hd.
    destruct (d =? b) eqn:E.
    + apply Z.eqb_eq in E. subst b. rewrite nth_upd_same by exact Hl.
      cbn [length]. lia.
    + apply Z.eqb_neq in E. rewrite nth_upd_other by lia. reflexivity.
Qed.

Lemma ddt_row_entry (sbox : list Z) (a b : Z) :
  Forall is_byte sbox -> 0 <= b < 256 ->
  nth (Z.to_nat b) (ddt_row sbox a) 0 = Z.of_nat (length (solutions sbox a b)).
Proof.
  intros Hs Hb. unfold ddt_row, solutions.
  rewrite ddt_fold_count; [|exact Hs|lia|rewrite repeat_length; lia].
  rewrite nth_repeat_lt by lia. reflexivity.
Qed.

Lemma fold_max_le (l : list Z) (m c : Z) :
  fold_max l m <= c <-> m <= c /\ Forall (fun x => x <= c) l.
Proof.
  revert m. unfold fold_max. induction l as [|x l IH]; intros m; cbn [fold_left].
  - split; [intros H; split; [exact H|constructor]|intros [H _]; exact H].
  - rewrite IH. destruct (x >? m) eqn:E; rewrite Z.gtb_ltb in E;
      [apply Z.ltb_lt in E|apply Z.ltb_ge in E].
    + split.
      * intros [H F]. split; [lia|constructor; assumption].
      * intros [H F]. inversion_clear F. split; assumption.
    + split.
      * intros [H F]. split; [exact H|constructor; [lia|exact F]].
      * intros [H F]. inversion_clear F. split; assumption.
Qed.

Lemma fold_rows_le (F : Z -> list Z) (rows : list Z) (m c : Z) :
  fold_left (fun max_count a => fold_max (F a) max_count) rows m <= c
  <-> m <= c /\ forall a, In a rows -> Forall (fun x => x <= c) (F a).
Proof.
  revert m. induction rows as [|a rows IH]; intros m; cbn [fold_left].
  - split; [intros H; split; [exact H|intros ? []]|intros [H _]; exact H].
  - rewrite IH, fold_max_le. split.
    + intros [[H Fa] R]. split; [exact H|]. intros a' [<-|I]; [exact Fa|apply R, I].
    + intros [H R]. split; [split; [exact H|apply R; left; reflexivity]|].
      intros a' I. apply R. right. exact I.
Qed.

Lemma ddt_row_length (sbox : list Z) (a : Z) : length (ddt_row sbox a) = 256%nat.
Proof. unfold ddt_row. rewrite ddt_fold_length. apply repeat_length. Qed.

Lemma ddt_row_In (sbox : list Z) (a x : Z) :
  Forall is_byte sbox ->
  In x (ddt_row sbox a)
  <-> exists b, 0 <= b <= 255 /\ x = Z.of_nat (length (solutions sbox a b)).
Proof.
  intros Hs. split.
  - intros Hx. apply (In_nth _ _ 0) in Hx. destruct Hx as (i & Hi & <-).
    rewrite ddt_row_length in Hi. exists (Z.of_nat i). split; [lia|].
    rewrite <- ddt_row_entry by (try assumption; lia).
    rewrite Nat2Z.id. reflexivity.
  - intros (b & Hb & ->). rewrite <- ddt_row_entry by (try assumption; lia).
    apply nth_In. rewrite ddt_row_length. lia.
Qed.

(** X20: The differential uniformity is at most [bound] exactly when, for every
    non-zero input difference [a] and every output difference [b], at most
    [bound] inputs [x] give [sbox[x] XOR sbox[x XOR a] = b]. *)
Theorem differential_uniformity_bound (sbox : list Z) (bound : Z) :
  Forall is_byte sbox -> 0 <= bound ->
  compute_differential_uniformity sbox <= bound
  <-> forall a b, 1 <= a <= 255 -> 0 <= b <= 255 ->
                  Z.of_nat (length (solutions sbox a b)) <= bound.
Proof.
  intros Hs Hb.
  pose proof (fold_rows_le (ddt_row sbox) (Zrange 1 255) 0 bound) as Q.
  unfold compute_differential_uniformity. split.
  - intros H a b Ha Hb'. apply Q in H. destruct H as [_ H].
    specialize (H a (proj2 (Zrange_spec 1 255 a) ltac:(lia))).
    rewrite Forall_forall in H. apply H. apply ddt_row_In; [exact Hs|].
    exists b. split; [lia|reflexivity].
  - intros H. apply Q. split; [exact Hb|]. intros a Ia.
    apply Zrange_spec in Ia. apply Forall_forall. intros x Hx.
    destruct (proj1 (ddt_row_In sbox a x Hs) Hx) as (b & Hb' & ->).
    apply H; lia.
Qed.

Lemma differential_uniformity_bound_witness :
  compute_differential_uniformity identity_permutation <= 256
  <-> forall a b, 1 <= a <= 255 -> 0 <= b <= 255 ->
                  Z.of_nat (length (solutions identity_permutation a b)) <= 256.
Proof.
  apply (differential_uniformity_bound identity_permutation 256);
    [apply Basics.identity_bytes|lia].
Defined.

(** *** The generator, for every key *)

Section WithPrimitives.
Context {prims : Primitives}.

Lemma retry_loop_first (K : list Z) (round : Z) (n : nat) (retry : Z) (sbox : list Z) :
  1 <= retry ->
  exists k, retry <= k <= retry + Z.of_nat n
            /\ retry_loop K round (S n) retry sbox = candidate K round k
            /\ (forall j, retry <= j < k ->
                          verify_sbox_properties (candidate K round j) = false)
            /\ (verify_sbox_properties (candidate K round k) = true
                \/ k = retry + Z.of_nat n).
Proof.
  revert retry sbox. induction n as [|n IH]; intros retry sbox Hr.
  - exists retry. rewrite retry_loop_S, <- (candidate_retry K round retry Hr).
    split; [lia|]. split; [destruct (verify_sbox_properties _); reflexivity|].
    split; [intros j Hj; lia|right; lia].
  - rewrite retry_loop_S, <- (candidate_retry K round retry Hr).
    destruct (verify_sbox_properties (candidate K round retry)) eqn:V.
    + exists retry. split; [lia|]. split; [reflexivity|].
      split; [intros j Hj; lia|left; exact V].
    + destruct (IH (retry + 1) (candidate K round retry) ltac:(lia))
        as (k & Hk & E & F & L).
      exists k. split; [lia|]. split; [exact E|]. split.
      * intros j Hj. destruct (Z.eq_dec j retry) as [->|N]; [exact V|apply F; lia].
      * destruct L as [L|L]; [left; exact L|right; lia].
Qed.

(** X21: For every key and round the generator returns a rearrangement of 0..255:
    the first of the 101 candidates that passes the acceptance tests, or the
    candidate of retry 100 when none passes; so the result fails the tests
    exactly when all 101 candidates fail them. *)
Theorem generate_sbox_first_accepted (K : list Z) (round : Z) :
  Permutation (generate_sbox K round) identity_permutation
  /\ (exists k, 0 <= k <= 100
                /\ generate_sbox K round = candidate K round k
                /\ (forall j, 0 <= j < k ->
                              verify_sbox_properties (candidate K round j) = false)
                /\ (verify_sbox_properties (candidate K round k) = true \/ k = 100))
  /\ (verify_sbox_properties (generate_sbox K round) = false
      <-> forall k, 0 <= k <= 100 ->
                    verify_sbox_properties (candidate K round k) = false).
Proof.
  assert (X : exists k, 0 <= k <= 100
                /\ generate_sbox K round = candidate K round k
                /\ (forall j, 0 <= j < k ->
                              verify_sbox_properties (candidate K round j) = false)
                /\ (verify_sbox_properties (candidate K round k) = true \/ k = 100)).
  { unfold generate_sbox. rewrite <- (candidate_first K round).
    destruct (verify_sbox_properties (candidate K round 0)) eqn:V; cbn [negb].
    - exists 0. split; [lia|]. split; [reflexivity|].
      split; [intros j Hj; lia|left; exact V].
    - destruct (retry_loop_first K round 99 1 (candidate K round 0) ltac:(lia))
        as (k & Hk & E & F & L).
      exists k. split; [lia|]. split; [exact E|]. split.
      + intros j Hj. destruct (Z.eq_dec j 0) as [->|N]; [exact V|apply F; lia].
      + destruct L as [L|L]; [left; exact L|right; lia]. }
  split; [apply generate_sbox_Permutation|]. split; [exact X|].
  destruct X as (k & Hk & E & F & L). rewrite E. split.
  - intros V j Hj. destruct L as [L|L]; [congruence|].
    destruct (Z.eq_dec j k) as [->|N]; [exact V|apply F; lia].
  - intros H. apply H. lia.
Qed.

End WithPrimitives.

End SBoxChecks.

(** ** What the fast Walsh-Hadamard transform computes (README, "Algorithm:
    Non-Linearity Computation (Walsh-Hadamard Transform)") *)

Module Walsh.

Import SBox Basics SBoxChecks.

Definition Zsum (l : list Z) : Z := fold_right Z.add 0 l.

(** [(-1)^(a . x)]: 1 when the mask [a] selects an even number of the bits of
    [x], -1 otherwise. *)
Definition sign (a x : Z) : Z :=
  if Z.even (popcount (Z.land a x)) then 1 else -1.

(** The Walsh coefficient of the truth table [f] at the mask [a]. *)
Definition walsh_coefficient (f : list Z) (a : Z) : Z :=
  Zsum (map (fun x => sign a x * (1 - 2 * nth (Z.to_nat x) f 0)) (Zrange 0 256)).

(** The correlation of the output bits selected by [output_mask] with the
    input bits selected by [a]: the number of inputs on which the two parities
    agree minus the number on which they differ. *)
Definition correlation (sbox : list Z) (output_mask a : Z) : Z :=
  Zsum (map (fun x => sign a x * sign output_mask (nth (Z.to_nat x) sbox 0))
            (Zrange 0 256)).

(** One pass of butterflies with stride [h], on arrays seen as functions of
    the index. *)
Definition stage_fun (h : Z) (w : Z -> Z) (a : Z) : Z :=
  if Z.land a h =? 0 then w a + w (a + h) else w (a - h) - w a.

Fixpoint stages (s : nat) (g : Z -> Z) : Z -> Z :=
  match s with
  | O => g
  | S s' => stage_fun (2 ^ Z.of_nat s') (stages s' g)
  end.

(** *** Sums and ranges *)

Lemma Zsum_app (l l' : list Z) : Zsum (l ++ l') = Zsum l + Zsum l'.
Proof. unfold Zsum. induction l as [|x l IH]; cbn [app fold_right]; lia. Qed.

Lemma Zsum_map_opp {A : Type} (f : A -> Z) (l : list A) :
  - Zsum (map f l) = Zsum (map (fun x => - f x) l).
Proof. unfold Zsum. induction l as [|x l IH]; cbn [map fold_right]; lia. Qed.

Lemma Zrange_app (lo : Z) (n m : nat) :
  Zrange lo (n + m) = Zrange lo n ++ Zrange (lo + Z.of_nat n) m.
Proof.
  revert lo. induction n as [|n IH]; intros lo.
  - cbn [Nat.add]. replace (lo + Z.of_nat 0) with lo by lia. reflexivity.
  - cbn [Nat.add]. rewrite !Zrange_S, IH. cbn [app]. do 3 f_equal. lia.
Qed.

Lemma Zrange_shift (lo k : Z) (n : nat) :
  Zrange (lo + k) n = map (fun y => y + k) (Zrange lo n).
Proof. unfold Zrange. rewrite map_map. apply map_ext. intros i. lia. Qed.

Lemma Zrange_double (s : nat) :
  Zrange 0 (2 ^ S s) =
  Zrange 0 (2 ^ s) ++ map (fun y => y + 2 ^ Z.of_nat s) (Zrange 0 (2 ^ s)).
Proof.
  replace (2 ^ S s)%nat with (2 ^ s + 2 ^ s)%nat by (cbn [Nat.pow]; lia).
  rewrite Zrange_app, Zrange_shift, Nat2Z.inj_pow. reflexivity.
Qed.

Lemma table_as_map (f : list Z) (n : nat) :
  length f = n -> f = map (fun x => nth (Z.to_nat x) f 0) (Zrange 0 n).
Proof.
  intros <-. unfold Zrange. rewrite map_map.
  induction f as [|x f IH]; [reflexivity|].
  cbn [length seq map]. f_equal. rewrite <- seq_shift, map_map.
  rewrite IH at 1. apply map_ext. intros k.
  replace (Z.to_nat (0 + Z.of_nat (S k))) with (S (Z.to_nat (0 + Z.of_nat k))) by lia.
  reflexivity.
Qed.

(** *** One pass, as a function of the index *)

Lemma wht_stage_fun (s : nat) (g : Z -> Z) :
  (s < 8)%nat ->
  wht_stage (map g (Zrange 0 256)) (2 ^ s) =
  map (stage_fun (2 ^ Z.of_nat s) g) (Zrange 0 256).
Proof.
  intros H. do 8 (destruct s as [|s]; [vm_compute; reflexivity|]). lia.
Qed.

Lemma fold_stages (n : nat) (g : Z -> Z) :
  (n <= 8)%nat ->
  fold_left wht_stage (map (Nat.pow 2) (seq 0 n)) (map g (Zrange 0 256)) =
  map (stages n g) (Zrange 0 256).
Proof.
  induction n as [|n IH]; intros H; [reflexivity|].
  rewrite seq_S, map_app, fold_left_app, IH by lia.
  cbn [map fold_left Nat.add stages]. apply wht_stage_fun. lia.
Qed.

(** *** The bit a butterfly looks at *)

Lemma land_bit (s : nat) (k b r : Z) :
  0 <= r < 2 ^ Z.of_nat s -> b = 0 \/ b = 1 ->
  Z.land (k * (2 * 2 ^ Z.of_nat s) + b * 2 ^ Z.of_nat s + r) (2 ^ Z.of_nat s)
  = b * 2 ^ Z.of_nat s.
Proof.
  intros Hr Hb. set (H := 2 ^ Z.of_nat s) in *.
  set (x := k * (2 * H) + b * H + r).
  assert (Hx : Z.b2z (Z.testbit x (Z.of_nat s)) = b).
  { rewrite Z.testbit_spec' by lia. fold H.
    replace (x / H) with (2 * k + b).
    - destruct Hb as [-> | ->].
      + rewrite Z.add_0_r, Z.mul_comm. apply Z.mod_mul. lia.
      + rewrite Z.add_comm, Z.mul_comm, Z.mod_add by lia. reflexivity.
    - apply (Z.div_unique_pos x H (2 * k + b) r); [exact Hr|]. subst x. ring. }
  apply Z.bits_inj'. intros n Hn. rewrite Z.land_spec.
  destruct (Z.eq_dec n (Z.of_nat s)) as [->|N].
  - unfold H at 1. rewrite Z.pow2_bits_true, andb_true_r by lia.
    destruct Hb as [-> | ->].
    + rewrite Z.mul_0_l, Z.bits_0. destruct (Z.testbit x (Z.of_nat s)); [discriminate|reflexivity].
    + rewrite Z.mul_1_l. unfold H. rewrite Z.pow2_bits_true by lia.
      destruct (Z.testbit x (Z.of_nat s)); [reflexivity|discriminate].
  - unfold H at 1. rewrite Z.pow2_bits_false, andb_false_r by lia.
    destruct Hb as [-> | ->].
    + rewrite Z.mul_0_l, Z.bits_0. reflexivity.
    + rewrite Z.mul_1_l. unfold H. rewrite Z.pow2_bits_false by lia. reflexivity.
Qed.

(** *** The character on the two halves of a range *)

Definition sign_halves (s : nat) (r y : Z) : bool :=
  let h := 2 ^ Z.of_nat s in
  (sign r (y + h) =? sign r y)
  && (sign (r + h) y =? sign r y)
  && (sign (r + h) (y + h) =? - sign r y).

Lemma sign_halves_table :
  forallb (fun s =>
    forallb (fun r => forallb (sign_halves s r) (Zrange 0 (2 ^ s))) (Zrange 0 (2 ^ s)))
    (seq 0 8) = true.
Proof. vm_compute. reflexivity. Qed.

Lemma sign_halves_ok (s : nat) (r y : Z) :
  (s < 8)%nat -> 0 <= r < 2 ^ Z.of_nat s -> 0 <= y < 2 ^ Z.of_nat s ->
  sign r (y + 2 ^ Z.of_nat s) = sign r y
  /\ sign (r + 2 ^ Z.of_nat s) y = sign r y
  /\ sign (r + 2 ^ Z.of_nat s) (y + 2 ^ Z.of_nat s) = - sign r y.
Proof.
  intros Hs Hr Hy.
  pose proof sign_halves_table as T. rewrite forallb_forall in T.
  specialize (T s ltac:(apply in_seq; lia)).
  pose proof (Zrange_forallb _ _ _ T r ltac:(rewrite Nat2Z.inj_pow; exact Hr)) as T'.
  cbv beta in T'.
  pose proof (Zrange_forallb _ _ _ T' y ltac:(rewrite Nat2Z.inj_pow; exact Hy)) as T''.
  unfold sign_halves in T''. cbv zeta in T''.
  apply andb_prop in T''. destruct T'' as [T1 T3].
  apply andb_prop in T1. destruct T1 as [T1 T2].
  apply Z.eqb_eq in T1, T2, T3. auto.
Qed.

(** *** All passes *)

Lemma stages_sum (g : Z -> Z) (s : nat) :
  (s <= 8)%nat ->
  forall k r, 0 <= r < 2 ^ Z.of_nat s ->
  stages s g (k * 2 ^ Z.of_nat s + r) =
  Zsum (map (fun y => sign r y * g (k * 2 ^ Z.of_nat s + y)) (Zrange 0 (2 ^ s))).
Proof.
  induction s as [|s IH]; intros Hs k r Hr.
  - change (2 ^ Z.of_nat 0) with 1 in *. assert (r = 0) by lia. subst r.
    cbn [stages Nat.pow]. change (Zrange 0 1) with [0]. cbn [map Zsum fold_right].
    change (sign 0 0) with 1. lia.
  - specialize (IH ltac:(lia)).
    replace (2 ^ Z.of_nat (S s)) with (2 * 2 ^ Z.of_nat s) in *
      by (rewrite Nat2Z.inj_succ, Z.pow_succ_r by lia; reflexivity).
    set (H := 2 ^ Z.of_nat s) in *.
    assert (HH : 0 < H) by (apply Z.pow_pos_nonneg; lia).
    cbn [stages]. fold H. unfold stage_fun.
    rewrite Zrange_double, map_app, Zsum_app, map_map. fold H.
    destruct (Z_lt_dec r H) as [L|L].
    + pose proof (land_bit s k 0 r ltac:(fold H; lia) ltac:(left; reflexivity)) as B.
      fold H in B. rewrite Z.mul_0_l, Z.add_0_r in B. rewrite B. cbn [Z.eqb].
      replace (k * (2 * H) + r) with ((2 * k) * H + r) by ring.
      replace ((2 * k) * H + r + H) with ((2 * k + 1) * H + r) by ring.
      rewrite !IH by lia. f_equal; f_equal.
      * apply map_ext. intros y. do 2 f_equal. ring.
      * apply map_ext_in. intros y Hy. apply Zrange_spec in Hy.
        rewrite Nat2Z.inj_pow in Hy. fold H in Hy.
        destruct (sign_halves_ok s r y ltac:(lia) ltac:(fold H; lia) ltac:(fold H; lia))
          as (E & _ & _).
        fold H in E. rewrite E. do 2 f_equal. ring.
    + pose proof (land_bit s k 1 (r - H) ltac:(fold H; lia) ltac:(right; reflexivity)) as B.
      fold H in B. rewrite Z.mul_1_l in B.
      replace (k * (2 * H) + H + (r - H)) with (k * (2 * H) + r) in B by ring.
      rewrite B. replace (H =? 0) with false by (symmetry; apply Z.eqb_neq; lia).
      replace (k * (2 * H) + r - H) with ((2 * k) * H + (r - H)) by ring.
      replace (k * (2 * H) + r) with ((2 * k + 1) * H + (r - H)) by ring.
      rewrite !IH by lia.
      rewrite <- Z.add_opp_r, Zsum_map_opp. f_equal; f_equal.
      * apply map_ext_in. intros y Hy. apply Zrange_spec in Hy.
        rewrite Nat2Z.inj_pow in Hy. fold H in Hy.
        destruct (sign_halves_ok s (r - H) y ltac:(lia) ltac:(fold H; lia)
                    ltac:(fold H; lia)) as (_ & E & _).
        fold H in E. replace (r - H + H) with r in E by ring.
        rewrite E. do 2 f_equal. ring.
      * apply map_ext_in. intros y Hy. apply Zrange_spec in Hy.
        rewrite Nat2Z.inj_pow in Hy. fold H in Hy.
        destruct (sign_halves_ok s (r - H) y ltac:(lia) ltac:(fold H; lia)
                    ltac:(fold H; lia)) as (_ & _ & E).
        fold H in E. replace (r - H + H) with r in E by ring.
        rewrite E, Z.mul_opp_l. do 3 f_equal. ring.
Qed.

(** The eight passes, run on any array of 256 integers, leave at index [a]
    the sum of the entries signed by the character of [a]. *)
Lemma wht_spectrum (g : Z -> Z) :
  fold_left wht_stage [1; 2; 4; 8; 16; 32; 64; 128]%nat (map g (Zrange 0 256)) =
  map (fun a => Zsum (map (fun x => sign a x * g x) (Zrange 0 256))) (Zrange 0 256).
Proof.
  change [1; 2; 4; 8; 16; 32; 64; 128]%nat with (map (Nat.pow 2) (seq 0 8)).
  rewrite fold_stages by lia. apply map_ext_in. intros a Ha.
  apply Zrange_spec in Ha.
  pose proof (stages_sum g 8 ltac:(lia) 0 a ltac:(change (2 ^ Z.of_nat 8) with 256; lia))
    as E.
  rewrite Z.mul_0_l, Z.add_0_l in E. exact E.
Qed.

(** X22: The transform of a table of 256 entries holds, at every index [a], the
    Walsh coefficient of the table at [a]: the sum over all inputs [x] of
    [(-1)^(a . x) * (1 - 2 f[x])]. *)
Theorem walsh_hadamard_transform_spectrum (f : list Z) :
  length f = 256%nat ->
  walsh_hadamard_transform f = map (walsh_coefficient f) (Zrange 0 256).
Proof.
  intros Hl. unfold walsh_hadamard_transform. cbv zeta.
  rewrite (table_as_map f 256 Hl) at 1. rewrite map_map.
  rewrite (wht_spectrum (fun x => 1 - 2 * nth (Z.to_nat x) f 0)).
  reflexivity.
Qed.

Lemma walsh_hadamard_transform_spectrum_witness :
  walsh_hadamard_transform (repeat 0 256) =
  map (walsh_coefficient (repeat 0 256)) (Zrange 0 256).
Proof.
  apply (walsh_hadamard_transform_spectrum (repeat 0 256)). reflexivity.
Defined.

(** *** Non-linearity *)

Lemma parity_sign (p : Z) : 1 - 2 * (p mod 2) = if Z.even p then 1 else -1.
Proof. rewrite Zmod_even. destruct (Z.even p); reflexivity. Qed.

Lemma component_walsh_correlation (sbox : list Z) (output_mask : Z) :
  component_walsh sbox output_mask =
  map (fun a => Z.abs (correlation sbox output_mask a)) (Zrange 0 256).
Proof.
  unfold component_walsh, walsh_hadamard_transform. cbv zeta.
  rewrite map_map, wht_spectrum, map_map. apply map_ext. intros a.
  f_equal. unfold correlation. f_equal. apply map_ext. intros x.
  rewrite parity_sign. unfold sign at 3. rewrite Z.land_comm. reflexivity.
Qed.

Lemma fold_max_attained (l : list Z) (m : Z) :
  fold_max l m = m \/ In (fold_max l m) l.
Proof.
  revert m. unfold fold_max. induction l as [|c l IH]; intros m; cbn [fold_left].
  - left. reflexivity.
  - destruct (IH (if c >? m then c else m)) as [E|I].
    + rewrite E. destruct (c >? m); [right; left; reflexivity|left; reflexivity].
    + right. right. exact I.
Qed.

Lemma fold_rows_attained (F : Z -> list Z) (rows : list Z) (m : Z) :
  fold_left (fun max_count a => fold_max (F a) max_count) rows m = m
  \/ exists a, In a rows
       /\ In (fold_left (fun max_count a => fold_max (F a) max_count) rows m) (F a).
Proof.
  revert m. induction rows as [|a rows IH]; intros m; cbn [fold_left].
  - left. reflexivity.
  - destruct (IH (fold_max (F a) m)) as [E|(b & Ib & I)].
    + rewrite E. destruct (fold_max_attained (F a) m) as [E'|I].
      * left. exact E'.
      * right. exists a. split; [left; reflexivity|exact I].
    + right. exists b. split; [right; exact Ib|exact I].
Qed.

(** X23: The non-linearity is 128 minus half the largest absolute correlation
    between a non-zero selection of output bits and any selection of input
    bits (the empty selection included): no pair of masks exceeds it and some
    pair attains it. *)
Theorem compute_nonlinearity_correlation (sbox : list Z) :
  (forall output_mask a, 1 <= output_mask <= 255 -> 0 <= a <= 255 ->
     compute_nonlinearity sbox <= 128 - Z.abs (correlation sbox output_mask a) / 2)
  /\ (exists output_mask a, 1 <= output_mask <= 255 /\ 0 <= a <= 255
        /\ compute_nonlinearity sbox = 128 - Z.abs (correlation sbox output_mask a) / 2).
Proof.
  set (M := fold_left (fun m mask => fold_max (component_walsh sbox mask) m)
                      (Zrange 1 255) 0).
  assert (E : compute_nonlinearity sbox = 128 - M / 2)
    by (unfold compute_nonlinearity, M, component_walsh; cbv zeta; reflexivity).
  rewrite E. clear E.
  pose proof (proj1 (fold_rows_le (component_walsh sbox) (Zrange 1 255) 0 M)
                ltac:(apply Z.le_refl)) as [M0 Hle].
  assert (B : forall output_mask a, 1 <= output_mask <= 255 -> 0 <= a <= 255 ->
                Z.abs (correlation sbox output_mask a) <= M).
  { intros mask a Hm Ha.
    specialize (Hle mask (proj2 (Zrange_spec 1 255 mask) ltac:(lia))).
    rewrite Forall_forall in Hle. apply Hle.
    rewrite component_walsh_correlation.
    apply (in_map (fun a => Z.abs (correlation sbox mask a))).
    apply Zrange_spec. lia. }
  split.
  - intros mask a Hm Ha. specialize (B mask a Hm Ha).
    apply Z.sub_le_mono_l. apply Z.div_le_mono; lia.
  - destruct (fold_rows_attained (component_walsh sbox) (Zrange 1 255) 0) as [E|(mask & Im & I)].
    + exists 1, 0. split; [lia|]. split; [lia|].
      specialize (B 1 0 ltac:(lia) ltac:(lia)). fold M in E.
      pose proof (Z.abs_nonneg (correlation sbox 1 0)).
      replace (Z.abs (correlation sbox 1 0)) with M by lia. reflexivity.
    + fold M in I. rewrite component_walsh_correlation in I.
      apply in_map_iff in I. destruct I as (a & E & Ia).
      apply Zrange_spec in Im, Ia.
      exists mask, a. split; [lia|]. split; [lia|]. rewrite E. reflexivity.
Qed.

End Walsh.

(** ** What the Moebius transform computes (README, "Algorithm: Algebraic
    Degree Computation") *)

Module Moebius.

Import SBox Basics SBoxChecks.

Definition Zxor (l : list Z) : Z := fold_right Z.lxor 0 l.

(** Every bit of [x] is a bit of [m]. *)
Definition covers (m x : Z) : bool := Z.land x m =? x.

(** The coefficient of the monomial [m] in the algebraic normal form of the
    truth table [f]: the XOR of [f[x]] over the inputs [x] covered by [m]. *)
Definition anf_coefficient (f : list Z) (m : Z) : Z :=
  Zxor (map (fun x => if covers m x then nth (Z.to_nat x) f 0 else 0) (Zrange 0 256)).

(** The truth table [compute_algebraic_degree] builds for one output bit. *)
Definition component (sbox : list Z) (output_bit : Z) : list Z :=
  map (fun x => Z.land (Z.shiftr (nth (Z.to_nat x) sbox 0) output_bit) 1)
      (Zrange 0 256).

(** One pass of the transform, on arrays seen as functions of the index. *)
Definition pass_fun (step : Z) (w : Z -> Z) (j : Z) : Z :=
  if Z.land j step =? 0 then w j else Z.lxor (w j) (w (Z.lxor j step)).

Fixpoint passes (s : nat) (g : Z -> Z) : Z -> Z :=
  match s with
  | O => g
  | S s' => pass_fun (Z.shiftl 1 (Z.of_nat s')) (passes s' g)
  end.

(** The inner loop of [mobius_transform]. *)
Definition pass (anf : list Z) (i : Z) : list Z :=
  let step := Z.shiftl 1 i in
  fold_left
    (fun anf j =>
       if Z.land j step =? 0 then anf
       else upd anf (Z.to_nat j)
                (Z.lxor (nth (Z.to_nat j) anf 0)
                        (nth (Z.to_nat (Z.lxor j step)) anf 0)))
    (Zrange 0 256) anf.

Lemma mobius_transform_passes (f : list Z) :
  mobius_transform f = fold_left pass (Zrange 0 8) f.
Proof.
  unfold mobius_transform, pass. reflexivity.
Qed.

Lemma Zxor_app (l l' : list Z) : Zxor (l ++ l') = Z.lxor (Zxor l) (Zxor l').
Proof.
  unfold Zxor. induction l as [|x l IH]; cbn [app fold_right].
  - rewrite Z.lxor_0_l. reflexivity.
  - rewrite IH, Z.lxor_assoc. reflexivity.
Qed.

Lemma Zxor_zero {A : Type} (f : A -> Z) (l : list A) :
  (forall x, In x l -> f x = 0) -> Zxor (map f l) = 0.
Proof.
  unfold Zxor. induction l as [|x l IH]; intros H; cbn [map fold_right]; [reflexivity|].
  rewrite IH by (intros y Hy; apply H; right; exact Hy).
  rewrite (H x (or_introl eq_refl)). reflexivity.
Qed.

Lemma pass_pass_fun (s : nat) (g : Z -> Z) :
  (s < 8)%nat ->
  pass (map g (Zrange 0 256)) (Z.of_nat s) =
  map (pass_fun (Z.shiftl 1 (Z.of_nat s)) g) (Zrange 0 256).
Proof.
  intros H. do 8 (destruct s as [|s]; [vm_compute; reflexivity|]). lia.
Qed.

Lemma fold_passes (n : nat) (g : Z -> Z) :
  (n <= 8)%nat ->
  fold_left pass (Zrange 0 n) (map g (Zrange 0 256)) = map (passes n g) (Zrange 0 256).
Proof.
  induction n as [|n IH]; intros H; [reflexivity|].
  replace (S n) with (n + 1)%nat by lia.
  rewrite Walsh.Zrange_app, fold_left_app, IH by lia.
  replace (n + 1)%nat with (S n) by lia.
  cbn [Zrange seq map fold_left passes]. rewrite Z.add_0_l, Z.add_0_r.
  apply pass_pass_fun. lia.
Qed.

Definition covers_halves (s : nat) (r y : Z) : bool :=
  let h := 2 ^ Z.of_nat s in
  negb (covers r (y + h))
  && Bool.eqb (covers (r + h) y) (covers r y)
  && Bool.eqb (covers (r + h) (y + h)) (covers r y).

Lemma covers_halves_table :
  forallb (fun s =>
    forallb (fun r => forallb (covers_halves s r) (Zrange 0 (2 ^ s))) (Zrange 0 (2 ^ s)))
    (seq 0 8) = true.
Proof. vm_compute. reflexivity. Qed.

Lemma covers_halves_ok (s : nat) (r y : Z) :
  (s < 8)%nat -> 0 <= r < 2 ^ Z.of_nat s -> 0 <= y < 2 ^ Z.of_nat s ->
  covers r (y + 2 ^ Z.of_nat s) = false
  /\ covers (r + 2 ^ Z.of_nat s) y = covers r y
  /\ covers (r + 2 ^ Z.of_nat s) (y + 2 ^ Z.of_nat s) = covers r y.
Proof.
  intros Hs Hr Hy.
  pose proof covers_halves_table as T. rewrite forallb_forall in T.
  specialize (T s ltac:(apply in_seq; lia)).
  pose proof (Zrange_forallb _ _ _ T r ltac:(rewrite Nat2Z.inj_pow; exact Hr)) as T'.
  cbv beta in T'.
  pose proof (Zrange_forallb _ _ _ T' y ltac:(rewrite Nat2Z.inj_pow; exact Hy)) as T''.
  unfold covers_halves in T''. cbv zeta in T''.
  apply andb_prop in T''. destruct T'' as [T1 T3].
  apply andb_prop in T1. destruct T1 as [T1 T2].
  apply negb_true_iff in T1. apply Bool.eqb_prop in T2, T3. auto.
Qed.

Lemma lxor_bit (s : nat) (k r : Z) :
  0 <= r < 2 ^ Z.of_nat s ->
  Z.lxor (k * (2 * 2 ^ Z.of_nat s) + 2 ^ Z.of_nat s + r) (2 ^ Z.of_nat s)
  = k * (2 * 2 ^ Z.of_nat s) + r.
Proof.
  intros Hr.
  pose proof (Walsh.land_bit s k 0 r Hr (or_introl eq_refl)) as B.
  rewrite Z.mul_0_l, Z.add_0_r in B.
  apply Z.add_nocarry_lxor in B.
  replace (k * (2 * 2 ^ Z.of_nat s) + 2 ^ Z.of_nat s + r)
    with (k * (2 * 2 ^ Z.of_nat s) + r + 2 ^ Z.of_nat s) by ring.
  rewrite B, Z.lxor_assoc, Z.lxor_nilpotent, Z.lxor_0_r. reflexivity.
Qed.

Lemma passes_xor (g : Z -> Z) (s : nat) :
  (s <= 8)%nat ->
  forall k r, 0 <= r < 2 ^ Z.of_nat s ->
  passes s g (k * 2 ^ Z.of_nat s + r) =
  Zxor (map (fun y => if covers r y then g (k * 2 ^ Z.of_nat s + y) else 0)
            (Zrange 0 (2 ^ s))).
Proof.
  induction s as [|s IH]; intros Hs k r Hr.
  - change (2 ^ Z.of_nat 0) with 1 in *. assert (r = 0) by lia. subst r.
    cbn [passes Nat.pow]. change (Zrange 0 1) with [0]. cbn [map Zxor fold_right].
    change (covers 0 0) with true. cbv iota. rewrite Z.lxor_0_r. reflexivity.
  - specialize (IH ltac:(lia)).
    replace (2 ^ Z.of_nat (S s)) with (2 * 2 ^ Z.of_nat s) in *
      by (rewrite Nat2Z.inj_succ, Z.pow_succ_r by lia; reflexivity).
    cbn [passes]. rewrite Z.shiftl_1_l.
    set (H := 2 ^ Z.of_nat s) in *.
    assert (HH : 0 < H) by (apply Z.pow_pos_nonneg; lia).
    unfold pass_fun.
    rewrite Walsh.Zrange_double, map_app, Zxor_app, map_map. fold H.
    destruct (Z_lt_dec r H) as [L|L].
    + pose proof (Walsh.land_bit s k 0 r ltac:(fold H; lia) ltac:(left; reflexivity)) as B.
      fold H in B. rewrite Z.mul_0_l, Z.add_0_r in B. rewrite B. cbn [Z.eqb].
      replace (k * (2 * H) + r) with ((2 * k) * H + r) by ring.
      rewrite IH by lia.
      rewrite (Zxor_zero (fun y => if covers r (y + H) then g (k * (2 * H) + (y + H)) else 0)).
      * rewrite Z.lxor_0_r. f_equal. apply map_ext. intros y.
        destruct (covers r y); [f_equal; ring|reflexivity].
      * intros y Hy. apply Zrange_spec in Hy.
        rewrite Nat2Z.inj_pow in Hy. fold H in Hy.
        destruct (covers_halves_ok s r y ltac:(lia) ltac:(fold H; lia) ltac:(fold H; lia))
          as (E & _ & _).
        fold H in E. rewrite E. reflexivity.
    + pose proof (Walsh.land_bit s k 1 (r - H) ltac:(fold H; lia) ltac:(right; reflexivity))
        as B.
      fold H in B. rewrite Z.mul_1_l in B.
      replace (k * (2 * H) + H + (r - H)) with (k * (2 * H) + r) in B by ring.
      rewrite B. replace (H =? 0) with false by (symmetry; apply Z.eqb_neq; lia).
      pose proof (lxor_bit s k (r - H) ltac:(fold H; lia)) as X. fold H in X.
      replace (k * (2 * H) + H + (r - H)) with (k * (2 * H) + r) in X by ring.
      rewrite X.
      replace (k * (2 * H) + (r - H)) with ((2 * k) * H + (r - H)) by ring.
      replace (k * (2 * H) + r) with ((2 * k + 1) * H + (r - H)) by ring.
      rewrite !IH by lia. rewrite Z.lxor_comm. f_equal; f_equal.
      * apply map_ext_in. intros y Hy. apply Zrange_spec in Hy.
        rewrite Nat2Z.inj_pow in Hy. fold H in Hy.
        destruct (covers_halves_ok s (r - H) y ltac:(lia) ltac:(fold H; lia)
                    ltac:(fold H; lia)) as (_ & E & _).
        fold H in E. replace (r - H + H) with r in E by ring.
        rewrite E. destruct (covers (r - H) y); [f_equal; ring|reflexivity].
      * apply map_ext_in. intros y Hy. apply Zrange_spec in Hy.
        rewrite Nat2Z.inj_pow in Hy. fold H in Hy.
        destruct (covers_halves_ok s (r - H) y ltac:(lia) ltac:(fold H; lia)
                    ltac:(fold H; lia)) as (_ & _ & E).
        fold H in E. replace (r - H + H) with r in E by ring.
        rewrite E. destruct (covers (r - H) y); [f_equal; ring|reflexivity].
Qed.

Lemma mobius_table (g : Z -> Z) :
  mobius_transform (map g (Zrange 0 256)) =
  map (fun m => Zxor (map (fun x => if covers m x then g x else 0) (Zrange 0 256)))
      (Zrange 0 256).
Proof.
  rewrite mobius_transform_passes, fold_passes by lia.
  apply map_ext_in. intros m Hm. apply Zrange_spec in Hm.
  pose proof (passes_xor g 8 ltac:(lia) 0 m ltac:(change (2 ^ Z.of_nat 8) with 256; lia))
    as E.
  rewrite Z.mul_0_l, Z.add_0_l in E. exact E.
Qed.

(** X24: The transform of a table of 256 entries holds, at every index [m], the
    XOR of the entries [f[x]] over the inputs [x] all of whose bits are bits
    of [m]. *)
Theorem mobius_transform_anf (f : list Z) :
  length f = 256%nat ->
  mobius_transform f = map (anf_coefficient f) (Zrange 0 256).
Proof.
  intros Hl.
  transitivity (mobius_transform (map (fun x => nth (Z.to_nat x) f 0) (Zrange 0 256))).
  - apply (f_equal mobius_transform). apply Walsh.table_as_map, Hl.
  - apply (mobius_table (fun x => nth (Z.to_nat x) f 0)).
Qed.

Lemma mobius_transform_anf_witness :
  mobius_transform (repeat 1 256) = map (anf_coefficient (repeat 1 256)) (Zrange 0 256).
Proof.
  apply (mobius_transform_anf (repeat 1 256)). reflexivity.
Defined.

(** *** Algebraic degree *)

Lemma nth_map_Zrange (h : Z -> Z) (n : nat) (x : Z) :
  0 <= x < Z.of_nat n -> nth (Z.to_nat x) (map h (Zrange 0 n)) 0 = h x.
Proof.
  intros Hx.
  rewrite (nth_indep _ 0 (h 0)) by (rewrite length_map, Zrange_length; lia).
  rewrite map_nth. f_equal. unfold Zrange.
  rewrite (nth_indep _ 0 (0 + Z.of_nat 0)) by (rewrite length_map, length_seq; lia).
  rewrite (map_nth (fun k => 0 + Z.of_nat k)), seq_nth by lia. lia.
Qed.

Lemma mobius_entry (sbox : list Z) (output_bit m : Z) :
  0 <= m <= 255 ->
  nth (Z.to_nat m) (mobius_transform (component sbox output_bit)) 0
  = anf_coefficient (component sbox output_bit) m.
Proof.
  intros Hm. unfold component at 1. rewrite mobius_table.
  rewrite (nth_map_Zrange _ 256 m) by lia.
  unfold anf_coefficient. apply (f_equal Zxor). apply map_ext_in. intros x Hx.
  apply Zrange_spec in Hx. unfold component.
  rewrite (nth_map_Zrange _ 256 x) by lia. reflexivity.
Qed.

(** The Hamming weights of the monomials with a non-zero coefficient. *)
Definition monomials (sbox : list Z) (output_bit : Z) : list Z :=
  map popcount
      (filter (fun i => negb (nth (Z.to_nat i)
                                  (mobius_transform (component sbox output_bit)) 0 =? 0))
              (Zrange 0 256)).

Lemma degree_fold (anf : list Z) (l : list Z) (max_degree : Z) :
  fold_left
    (fun max_degree i =>
       if nth (Z.to_nat i) anf 0 =? 0 then max_degree
       else let hw := popcount i in if hw >? max_degree then hw else max_degree)
    l max_degree
  = fold_max (map popcount (filter (fun i => negb (nth (Z.to_nat i) anf 0 =? 0)) l))
             max_degree.
Proof.
  revert max_degree. induction l as [|i l IH]; intros max_degree; [reflexivity|].
  cbn [fold_left filter]. destruct (nth (Z.to_nat i) anf 0 =? 0); cbn [negb].
  - apply IH.
  - cbn [map]. unfold fold_max. cbn [fold_left]. apply IH.
Qed.

Lemma fold_left_ext {A B : Type} (f g : A -> B -> A) (l : list B) (a : A) :
  (forall a x, f a x = g a x) -> fold_left f l a = fold_left g l a.
Proof.
  intros H. revert a. induction l as [|x l IH]; intros a; [reflexivity|].
  cbn [fold_left]. rewrite H. apply IH.
Qed.

Lemma degree_rows (sbox : list Z) :
  compute_algebraic_degree sbox =
  fold_left (fun max_degree output_bit => fold_max (monomials sbox output_bit) max_degree)
            (Zrange 0 8) 0.
Proof.
  unfold compute_algebraic_degree. apply fold_left_ext. intros max_degree output_bit.
  cbv zeta. rewrite degree_fold. unfold monomials, component. reflexivity.
Qed.

Lemma monomials_In (sbox : list Z) (output_bit d : Z) :
  In d (monomials sbox output_bit)
  <-> exists m, 0 <= m <= 255
        /\ anf_coefficient (component sbox output_bit) m <> 0 /\ popcount m = d.
Proof.
  unfold monomials. rewrite in_map_iff. split.
  - intros (m & E & I). destruct (proj1 (filter_In _ _ _) I) as [I' N].
    apply (proj1 (Zrange_spec 0 256 m)) in I'. exists m.
    split; [lia|]. split; [|exact E].
    rewrite <- mobius_entry by lia.
    apply (proj1 (negb_true_iff _)) in N. apply (proj1 (Z.eqb_neq _ _)) in N. exact N.
  - intros (m & Hm & N & E). exists m. split; [exact E|].
    apply (proj2 (filter_In _ _ _)). split; [apply (proj2 (Zrange_spec 0 256 m)); lia|].
    rewrite mobius_entry by lia.
    apply (proj2 (negb_true_iff _)). apply (proj2 (Z.eqb_neq _ _)). exact N.
Qed.

(** X25: The algebraic degree is the largest number of variables of a monomial
    that has a non-zero coefficient in the algebraic normal form of one of the
    eight output bits, and 0 when there is no such monomial. *)
Theorem compute_algebraic_degree_anf (sbox : list Z) :
  (forall output_bit m, 0 <= output_bit <= 7 -> 0 <= m <= 255 ->
     anf_coefficient (component sbox output_bit) m <> 0 ->
     popcount m <= compute_algebraic_degree sbox)
  /\ (compute_algebraic_degree sbox = 0
      \/ exists output_bit m, 0 <= output_bit <= 7 /\ 0 <= m <= 255
           /\ anf_coefficient (component sbox output_bit) m <> 0
           /\ popcount m = compute_algebraic_degree sbox).
Proof.
  rewrite degree_rows.
  set (D := fold_left _ _ _).
  pose proof (proj1 (fold_rows_le (monomials sbox) (Zrange 0 8) 0 D)
                ltac:(apply Z.le_refl)) as [_ Hle].
  split.
  - intros output_bit m Hb Hm N.
    specialize (Hle output_bit (proj2 (Zrange_spec 0 8 output_bit) ltac:(lia))).
    rewrite Forall_forall in Hle. apply Hle.
    apply (proj2 (monomials_In sbox output_bit (popcount m))). exists m. auto.
  - destruct (Walsh.fold_rows_attained (monomials sbox) (Zrange 0 8) 0)
      as [E|(output_bit & Ib & I)].
    + left. exact E.
    + right. fold D in I.
      destruct (proj1 (monomials_In sbox output_bit D) I) as (m & Hm & N & E).
      apply (proj1 (Zrange_spec 0 8 output_bit)) in Ib. exists output_bit, m.
      split; [lia|]. split; [exact Hm|]. split; [exact N|exact E].
Qed.

End Moebius.

(** ** The shape of the key material and the order of the selectors (README,
    "Algorithm: Key Expansion" and step 1 of "Algorithm: Encrypt Block") *)

Module KeyMaterialShape.

Import KeySchedule Engine Basics.

(** A 512-bit register. *)
Definition is_register (r : Z) : Prop := 0 <= r < 2 ^ 512.

(** [x] comes before [y]: a lower priority, or the same priority and an
    earlier place in the selector array. *)
Definition before (x y : Z * Z * Z) : Prop :=
  snd (fst x) < snd (fst y) \/ (snd (fst x) = snd (fst y) /\ snd x < snd y).

Lemma insert_In (x z : Z * Z * Z) (l : list (Z * Z * Z)) :
  In z (insert_by_priority x l) <-> z = x \/ In z l.
Proof.
  induction l as [|y l IH]; cbn [insert_by_priority].
  - cbn. intuition congruence.
  - destruct (snd (fst x) <=? snd (fst y)); cbn [In]; [intuition congruence|].
    rewrite IH. intuition congruence.
Qed.

Lemma insert_Permutation (x : Z * Z * Z) (l : list (Z * Z * Z)) :
  Permutation (insert_by_priority x l) (x :: l).
Proof.
  induction l as [|y l IH]; cbn [insert_by_priority]; [apply Permutation_refl|].
  destruct (snd (fst x) <=? snd (fst y)); [apply Permutation_refl|].
  eapply perm_trans; [apply perm_skip, IH|apply perm_swap].
Qed.

Lemma stable_sort_Permutation (l : list (Z * Z * Z)) : Permutation (stable_sort l) l.
Proof.
  induction l as [|x l IH]; cbn [stable_sort fold_right]; [constructor|].
  eapply perm_trans; [apply insert_Permutation|apply perm_skip, IH].
Qed.

Lemma insert_sorted (x : Z * Z * Z) (l : list (Z * Z * Z)) :
  StronglySorted before l -> Forall (fun z => snd x < snd z) l ->
  StronglySorted before (insert_by_priority x l).
Proof.
  induction l as [|y l IH]; intros S F; cbn [insert_by_priority].
  - repeat constructor.
  - inversion_clear S as [|? ? S' Fy]. inversion_clear F as [|? ? Hy F'].
    destruct (snd (fst x) <=? snd (fst y)) eqn:E.
    + apply Z.leb_le in E. constructor; [constructor; assumption|].
      constructor.
      * unfold before. lia.
      * rewrite Forall_forall in Fy, F'. apply Forall_forall. intros z Hz.
        specialize (Fy z Hz). specialize (F' z Hz). unfold before in *. lia.
    + apply Z.leb_gt in E. constructor; [apply IH; assumption|].
      apply Forall_forall. intros z Hz. apply insert_In in Hz.
      destruct Hz as [->|Hz].
      * unfold before. lia.
      * rewrite Forall_forall in Fy. apply Fy, Hz.
Qed.

Lemma stable_sort_sorted (l : list (Z * Z * Z)) :
  StronglySorted (fun x y => snd x < snd y) l -> StronglySorted before (stable_sort l).
Proof.
  induction l as [|x l IH]; intros S; cbn [stable_sort fold_right]; [constructor|].
  inversion_clear S as [|? ? S' F]. apply insert_sorted; [apply IH, S'|].
  rewrite Forall_forall in F. apply Forall_forall. intros z Hz. apply F.
  apply (Permutation_in z (stable_sort_Permutation l) Hz).
Qed.

Section WithPrimitives.
Context {prims : Primitives}.

Lemma draw_priorities_selectors (SEL : list Z) (j : Z) (prng : PRNG.state) :
  map (fun p => fst (fst p)) (draw_priorities SEL j prng) = SEL.
Proof.
  revert j prng. induction SEL as [|sel rest IH]; intros j prng; [reflexivity|].
  cbn [draw_priorities]. destruct (PRNG.ChaCha20_NextBytes prng 4) as [bytes prng'].
  cbn [map fst]. rewrite IH. reflexivity.
Qed.

Lemma draw_priorities_places (SEL : list Z) (j : Z) (prng : PRNG.state) :
  StronglySorted (fun x y => snd x < snd y) (draw_priorities SEL j prng)
  /\ Forall (fun p => j <= snd p /\ 0 <= snd (fst p) < 7) (draw_priorities SEL j prng).
Proof.
  revert j prng. induction SEL as [|sel rest IH]; intros j prng.
  - split; constructor.
  - cbn [draw_priorities]. destruct (PRNG.ChaCha20_NextBytes prng 4) as [bytes prng'].
    destruct (IH (j + 1) prng') as [S F]. split.
    + constructor; [exact S|]. rewrite Forall_forall in F. apply Forall_forall.
      intros z Hz. specialize (F z Hz). cbn [snd]. lia.
    + constructor.
      * cbn [fst snd]. split; [lia|apply Z.mod_pos_bound; lia].
      * rewrite Forall_forall in F. apply Forall_forall.
        intros z Hz. specialize (F z Hz). lia.
Qed.

(** X26: The order in which a block processes the selectors is a rearrangement of
    the selector array, so every selector is used once in each round; the
    order is by priority 0..6, and selectors of equal priority keep the order
    they have in the array. *)
Theorem ordered_selectors_stable (K IV : list Z) (n : Z) (SEL : list Z) :
  let priority_seed :=
    SHAKE256 (K ++ IV ++ int_to_bytes n 8 ++ ascii_bytes "RUC-PRIO") 32 in
  let priorities :=
    stable_sort (draw_priorities SEL 0 (PRNG.ChaCha20_Init priority_seed (repeat 0 12))) in
  ordered_selectors K IV n SEL = map (fun p => fst (fst p)) priorities
  /\ Permutation (ordered_selectors K IV n SEL) SEL
  /\ StronglySorted before priorities
  /\ Forall (fun p => 0 <= snd (fst p) < 7) priorities.
Proof.
  cbv zeta. set (prng := PRNG.ChaCha20_Init _ _).
  split; [reflexivity|]. split; [|split].
  - unfold ordered_selectors. cbv zeta. fold prng.
    rewrite <- (draw_priorities_selectors SEL 0 prng) at 2.
    apply Permutation_map, stable_sort_Permutation.
  - apply stable_sort_sorted, draw_priorities_places.
  - destruct (draw_priorities_places SEL 0 prng) as [_ F].
    apply Forall_forall. intros p Hp.
    apply (Permutation_in p (stable_sort_Permutation _)) in Hp.
    rewrite Forall_forall in F. apply F in Hp. lia.
Qed.

(** X27: For every key the expansion yields 7 registers and 24 round keys of at
    most 512 bits, and 24 S-boxes that are each a rearrangement of 0..255. *)
Theorem key_expand_shape (K : list Z) :
  let km := key_expand K in
  length (registers km) = 7%nat
  /\ Forall is_register (registers km)
  /\ length (roundKeys km) = 24%nat
  /\ Forall is_register (roundKeys km)
  /\ length (sboxes km) = 24%nat
  /\ Forall (fun sbox => Permutation sbox SBox.identity_permutation) (sboxes km).
Proof.
  cbv zeta. unfold key_expand. cbn [registers roundKeys sboxes].
  assert (B : forall data, is_register (bytes_to_int (SHAKE256 data REGISTER_SIZE))).
  { intros data.
    pose proof (ByteOrder.bytes_to_int_range _ (SHAKE256_bytes data REGISTER_SIZE)) as R.
    rewrite SHAKE256_length in R. exact R. }
  split; [unfold generate_registers; rewrite length_map, Zrange_length; reflexivity|].
  split.
  { unfold generate_registers. apply Forall_forall. intros r Hr.
    apply in_map_iff in Hr. destruct Hr as (i & <- & _). apply B. }
  split; [unfold generate_round_keys; rewrite length_map, Zrange_length; reflexivity|].
  split.
  { unfold generate_round_keys. apply Forall_forall. intros r Hr.
    apply in_map_iff in Hr. destruct Hr as (i & <- & _). apply B. }
  split; [unfold generate_sboxes; rewrite length_map, Zrange_length; reflexivity|].
  unfold generate_sboxes. apply Forall_forall. intros s Hs.
  apply in_map_iff in Hs. destruct Hs as (r & <- & _).
  apply SBox.generate_sbox_Permutation.
Qed.

End WithPrimitives.

End KeyMaterialShape.

(** ** One block and the modes (README, "Algorithm: Encrypt Block",
    "Algorithm: Decrypt Block", "Block Cipher Modes") *)

Module BlockFacts.

Import KeySchedule Engine Modes Basics.

Section WithPrimitives.
Context {prims : Primitives}.

Lemma xor_block_swap (a b c : list Z) :
  xor_block (xor_block a b) c = xor_block (xor_block a c) b.
Proof.
  unfold xor_block at 1 3. apply map_ext_in. intros i Hi. apply in_seq in Hi.
  unfold xor_block. rewrite !nth_map_seq by lia.
  rewrite !Z.lxor_assoc. f_equal. apply Z.lxor_comm.
Qed.

(** X28: On 32-byte blocks and from the same registers, [decrypt_block] undoes
    [encrypt_block] and [encrypt_block] undoes [decrypt_block], both leaving
    the registers in the same state; and XORing a pattern into the ciphertext
    block XORs the same pattern into the decrypted block. *)
Theorem block_round_trip (P C pattern K IV : list Z) (n : Z) (R SEL : list Z)
    (S : list (list Z)) (RK : list Z) :
  length P = 32%nat -> length C = 32%nat ->
  decrypt_block (fst (encrypt_block P K IV n R SEL S RK)) K IV n R SEL S RK
    = (P, snd (encrypt_block P K IV n R SEL S RK))
  /\ encrypt_block (fst (decrypt_block C K IV n R SEL S RK)) K IV n R SEL S RK
     = (C, snd (decrypt_block C K IV n R SEL S RK))
  /\ fst (decrypt_block (xor_block C pattern) K IV n R SEL S RK)
     = xor_block (fst (decrypt_block C K IV n R SEL S RK)) pattern.
Proof.
  intros HP HC. unfold encrypt_block, decrypt_block.
  destruct (block_keystream K IV n R SEL S RK) as [R' keystream]. cbn [fst snd].
  rewrite !xor_block_involutive by assumption.
  split; [reflexivity|]. split; [reflexivity|]. apply xor_block_swap.
Qed.

(** X29: The ciphertext of the two modes is the nonce (or the IV) followed by the
    encrypted blocks of the padded plaintext: it is longer than the plaintext
    by the nonce (or IV) and by 1 to 32 bytes of padding. *)
Theorem ciphertext_expansion (plaintext K nonce IV : list Z) :
  let padding := (32 - length plaintext mod 32)%nat in
  firstn (length nonce) (RUC_CTR_Encrypt plaintext K nonce) = nonce
  /\ length (RUC_CTR_Encrypt plaintext K nonce)
     = (length nonce + length plaintext + padding)%nat
  /\ firstn (length IV) (RUC_CBC_Encrypt plaintext K IV) = IV
  /\ length (RUC_CBC_Encrypt plaintext K IV)
     = (length IV + length plaintext + padding)%nat
  /\ (1 <= padding <= 32)%nat.
Proof.
  cbv zeta.
  pose proof (Nat.div_mod_eq (length plaintext) 32) as E.
  pose proof (Nat.mod_upper_bound (length plaintext) 32 ltac:(lia)) as U.
  split; [unfold RUC_CTR_Encrypt; apply firstn_app_exact; reflexivity|].
  split.
  { unfold RUC_CTR_Encrypt. rewrite length_app, RUC_CTR_Encrypt_NoNonce_length. lia. }
  split; [unfold RUC_CBC_Encrypt; apply firstn_app_exact; reflexivity|].
  split; [|lia].
  unfold RUC_CBC_Encrypt. rewrite length_app, cbc_encrypt_loop_length, padded_blocks.
  lia.
Qed.

End WithPrimitives.

Lemma block_round_trip_witness :
  decrypt_block
    (fst (encrypt_block (repeat 1 32) test_vector_key (repeat 0 32) 0
            (repeat 0 7) [1; 3] [] []))
    test_vector_key (repeat 0 32) 0 (repeat 0 7) [1; 3] [] []
    = (repeat 1 32,
       snd (encrypt_block (repeat 1 32) test_vector_key (repeat 0 32) 0
              (repeat 0 7) [1; 3] [] []))
  /\ encrypt_block
       (fst (decrypt_block (repeat 2 32) test_vector_key (repeat 0 32) 0
               (repeat 0 7) [1; 3] [] []))
       test_vector_key (repeat 0 32) 0 (repeat 0 7) [1; 3] [] []
     = (repeat 2 32,
        snd (decrypt_block (repeat 2 32) test_vector_key (repeat 0 32) 0
               (repeat 0 7) [1; 3] [] []))
  /\ fst (decrypt_block (xor_block (repeat 2 32) [128]) test_vector_key (repeat 0 32) 0
            (repeat 0 7) [1; 3] [] [])
     = xor_block
         (fst (decrypt_block (repeat 2 32) test_vector_key (repeat 0 32) 0
                 (repeat 0 7) [1; 3] [] []))
         [128].
Proof.
  apply (@block_round_trip reference_primitives (repeat 1 32) (repeat 2 32) [128] test_vector_key
           (repeat 0 32) 0 (repeat 0 7) [1; 3] [] []); reflexivity.
Defined.

End BlockFacts.

(** ** The registers stay within 512 bits (README, "Algorithm: IV Mixing",
    "Algorithm: Encrypt Block", "Algorithm: Decrypt Block", "RUC-CTR") *)

Module RegisterWidth.

Import KeySchedule Engine Modes Basics KeyMaterialShape.

Lemma log2_register (a : Z) : is_register a -> Z.log2 a < 512.
Proof.
  unfold is_register. intros H. destruct (Z.eq_dec a 0) as [->|N]; [cbn; lia|].
  apply Z.log2_lt_pow2; lia.
Qed.

Lemma lxor_register (a b : Z) :
  is_register a -> is_register b -> is_register (Z.lxor a b).
Proof.
  intros Ha Hb. pose proof (log2_register a Ha). pose proof (log2_register b Hb).
  unfold is_register in *.
  assert (N : 0 <= Z.lxor a b) by (apply Z.lxor_nonneg; lia).
  split; [exact N|].
  destruct (Z.eq_dec (Z.lxor a b) 0) as [->|NZ]; [lia|].
  apply Z.log2_lt_pow2; [lia|].
  pose proof (Z.log2_lxor a b ltac:(lia) ltac:(lia)). lia.
Qed.

Lemma ROL_register (x n : Z) : is_register (ROL x n).
Proof.
  unfold ROL, REGISTER_BITS, is_register.
  change (2 ^ 512 - 1) with (Z.ones 512). rewrite Z.land_ones by lia.
  apply Z.mod_pos_bound. lia.
Qed.

Lemma byte_register (b : Z) : is_byte b -> is_register b.
Proof.
  unfold is_byte, is_register. intros H. split; [lia|].
  apply Z.lt_le_trans with (2 ^ 8); [change (2 ^ 8) with 256; lia|].
  apply Z.pow_le_mono_r; lia.
Qed.

Lemma shiftl_register (v s bits : Z) :
  0 <= v < 2 ^ bits -> 0 <= bits -> 0 <= s -> bits + s <= 512 ->
  is_register (Z.shiftl v s).
Proof.
  intros Hv Hb Hs Hw. unfold is_register. rewrite Z.shiftl_mul_pow2 by lia.
  assert (0 < 2 ^ s) by (apply Z.pow_pos_nonneg; lia).
  split; [nia|].
  apply Z.lt_le_trans with (2 ^ bits * 2 ^ s); [nia|].
  rewrite <- Z.pow_add_r by lia. apply Z.pow_le_mono_r; lia.
Qed.

Lemma digest_register (b : list Z) :
  Forall is_byte b -> (length b <= 64)%nat -> is_register (bytes_to_int b).
Proof.
  intros Hb Hl. pose proof (ByteOrder.bytes_to_int_range b Hb) as R.
  unfold is_register. split; [lia|].
  apply Z.lt_le_trans with (2 ^ (8 * Z.of_nat (length b))); [lia|].
  apply Z.pow_le_mono_r; lia.
Qed.

Lemma GF_MUL_REGISTER_register (R multiplier : Z) :
  is_byte multiplier -> is_register (GF.GF_MUL_REGISTER R multiplier).
Proof.
  intros Hm. rewrite RegisterProduct.GF_MUL_REGISTER_bytes by exact Hm.
  apply digest_register.
  - apply RegisterProduct.map_GF_bytes; [apply ByteOrder.int_to_bytes_bytes|exact Hm].
  - rewrite length_map, AEAD.int_to_bytes_length. lia.
Qed.

Lemma upd_Forall {A : Type} (P : A -> Prop) (l : list A) (i : nat) (x : A) :
  Forall P l -> P x -> Forall P (upd l i x).
Proof.
  intros Hl Hx. revert i. induction Hl as [|y l Hy Hl IH]; intros [|i]; cbn [upd];
    constructor; auto.
Qed.

Lemma reg_register (R : list Z) (i : nat) : Forall is_register R -> is_register (reg R i).
Proof.
  intros H. unfold reg. destruct (nth_in_or_default i R 0) as [I|E].
  - rewrite Forall_forall in H. apply H, I.
  - rewrite E. unfold is_register. split; [lia|]. apply Z.pow_pos_nonneg; lia.
Qed.

Lemma xor_into_register (R : list Z) (i : nat) (v : Z) :
  Forall is_register R -> is_register v -> Forall is_register (xor_into R i v).
Proof.
  intros HR Hv. unfold xor_into. apply upd_Forall; [exact HR|].
  apply lxor_register; [apply (reg_register R i HR)|exact Hv].
Qed.

Lemma xor_into_length (R : list Z) (i : nat) (v : Z) :
  length (xor_into R i v) = length R.
Proof. unfold xor_into. apply upd_length. Qed.

Lemma fold_left_invariant {A B : Type} (P : A -> Prop) (f : A -> B -> A)
    (l : list B) (a : A) :
  (forall a x, P a -> P (f a x)) -> P a -> P (fold_left f l a).
Proof.
  intros H. revert a. induction l as [|x l IH]; intros a Ha; [exact Ha|].
  cbn [fold_left]. apply IH, H, Ha.
Qed.

(** The registers are well formed: as many as before, each within 512 bits. *)
Definition same_shape (R0 R : list Z) : Prop :=
  length R = length R0 /\ Forall is_register R.

Ltac width :=
  repeat first
    [ assumption
    | apply xor_into_register
    | apply upd_Forall
    | apply ROL_register
    | apply GF_MUL_REGISTER_register
    | apply nth_byte
    | match goal with
      | |- is_register (reg _ _) => apply reg_register
      | |- is_register (nth _ _ 0) => apply byte_register
      end ].

Section WithPrimitives.
Context {prims : Primitives}.

Lemma mix_iv_into_state_shape (R IV : list Z) :
  Forall is_register R -> same_shape R (mix_iv_into_state R IV).
Proof.
  intros HR. unfold mix_iv_into_state. cbv zeta.
  apply (fold_left_invariant (same_shape R)).
  - intros R1 _ H1.
    apply (fold_left_invariant (same_shape R)); [|exact H1].
    intros R2 i [L2 H2]. split.
    + rewrite !xor_into_length. exact L2.
    + width.
  - apply (fold_left_invariant (same_shape R)); [|split; [reflexivity|exact HR]].
    intros R1 i [L1 H1]. split; [rewrite xor_into_length; exact L1|width].
Qed.

Lemma counter_state_shape (R : list Z) (n : nat) :
  Forall is_register R -> same_shape R (counter_state R n).
Proof.
  intros HR. unfold counter_state. cbv zeta.
  split; [apply xor_into_length|]. apply xor_into_register; [exact HR|].
  apply digest_register; [apply SHAKE256_bytes|rewrite SHAKE256_length; lia].
Qed.

Lemma process_selector_shape (K Sr : list Z) (RKr : Z) (R0 : list Z)
    (st : list Z * Z) (sel : Z) :
  Forall is_byte Sr -> same_shape R0 (fst st) ->
  same_shape R0 (fst (process_selector K Sr RKr st sel)).
Proof.
  intros HS [L H]. destruct st as [R ACC]. cbn [fst] in *.
  unfold process_selector. cbv zeta. cbn [fst]. split.
  - repeat (rewrite xor_into_length || rewrite upd_length). exact L.
  - assert (Hs : 0 <= sel mod 16 < 16) by (apply Z.mod_pos_bound; lia).
    width;
      (apply (shiftl_register _ _ 8);
       [change (2 ^ 8) with 256; apply nth_byte, HS|lia|lia|lia]).
Qed.

Lemma inter_round_mixing_shape (R0 R : list Z) :
  same_shape R0 R -> same_shape R0 (inter_round_mixing R).
Proof.
  intros H. unfold inter_round_mixing.
  apply (fold_left_invariant (same_shape R0)); [|exact H].
  intros R1 i [L1 H1]. cbv zeta. split; [rewrite !xor_into_length; exact L1|width].
Qed.

Lemma run_round_shape (K ordered : list Z) (S : list (list Z)) (RK : list Z)
    (R0 : list Z) (st : list Z * Z) (r : nat) :
  Forall (Forall is_byte) S -> same_shape R0 (fst st) ->
  same_shape R0 (fst (run_round K ordered S RK st r)).
Proof.
  intros HS H. unfold run_round.
  assert (Hr : Forall is_byte (nth r S [])).
  { destruct (nth_in_or_default r S []) as [I|E].
    - rewrite Forall_forall in HS. apply HS, I.
    - rewrite E. constructor. }
  pose proof (fold_left_invariant (fun st => same_shape R0 (fst st))
                (process_selector K (nth r S []) (nth r RK 0)) ordered st
                ltac:(intros a x Ha; apply process_selector_shape; assumption) H) as F.
  destruct (fold_left _ ordered st) as [R ACC]. cbn [fst] in *.
  apply inter_round_mixing_shape, F.
Qed.

Lemma block_keystream_shape (K IV : list Z) (n : Z) (R SEL : list Z)
    (S : list (list Z)) (RK : list Z) :
  Forall (Forall is_byte) S -> Forall is_register R ->
  same_shape R (fst (block_keystream K IV n R SEL S RK))
  /\ Forall is_byte (snd (block_keystream K IV n R SEL S RK))
  /\ length (snd (block_keystream K IV n R SEL S RK)) = 32%nat.
Proof.
  intros HS HR. unfold block_keystream. cbv zeta.
  pose proof (fold_left_invariant (fun st => same_shape R (fst st))
                (run_round K (ordered_selectors K IV n SEL) S RK) (seq 0 ROUNDS) (R, 0)
                ltac:(intros a x Ha; apply run_round_shape; assumption)
                ltac:(split; [reflexivity|exact HR])) as F.
  destruct (fold_left _ (seq 0 ROUNDS) (R, 0)) as [R' ACC]. cbn [fst snd] in *.
  split; [exact F|]. split; [apply SHAKE256_bytes|apply SHAKE256_length].
Qed.

Lemma ciphertext_feedback_shape (R0 R C : list Z) :
  Forall is_byte C -> (length C <= 32)%nat -> same_shape R0 R ->
  same_shape R0 (ciphertext_feedback R C).
Proof.
  intros HC HL H. unfold ciphertext_feedback. cbv zeta.
  apply (fold_left_invariant (same_shape R0)); [|exact H].
  intros R1 i [L1 H1]. split; [rewrite xor_into_length; exact L1|].
  apply xor_into_register; [exact H1|].
  pose proof (Z.mod_pos_bound (Z.of_nat i * 37) 256 ltac:(lia)) as Hs.
  pose proof (ByteOrder.bytes_to_int_range C HC) as Rg.
  apply (shiftl_register _ _ 256); try lia.
  split; [lia|].
  apply Z.lt_le_trans with (2 ^ (8 * Z.of_nat (length C))); [lia|].
  apply Z.pow_le_mono_r; lia.
Qed.

Lemma sboxes_bytes (K : list Z) : Forall (Forall is_byte) (sboxes (key_expand K)).
Proof.
  unfold key_expand. cbn [sboxes]. unfold generate_sboxes.
  apply Forall_forall. intros s Hs. apply in_map_iff in Hs.
  destruct Hs as (r & <- & _).
  apply (Permutation_Forall (Permutation_sym (SBox.generate_sbox_Permutation K r))).
  apply identity_bytes.
Qed.

Lemma registers_width (K : list Z) : Forall is_register (registers (key_expand K)).
Proof.
  unfold key_expand. cbn [registers]. unfold generate_registers.
  apply Forall_forall. intros r Hr. apply in_map_iff in Hr.
  destruct Hr as (i & <- & _).
  apply digest_register; [apply SHAKE256_bytes|rewrite SHAKE256_length; unfold REGISTER_SIZE; lia].
Qed.

(** X30: For every key the state of the cipher stays 7 registers of at most 512
    bits: after the IV is mixed in, after the block counter is folded in, and
    after a block is encrypted or decrypted, so the 64-byte serialisation of
    a register in the keystream derivation never drops a bit. *)
Theorem registers_stay_within_512_bits (K IV : list Z) :
  let km := key_expand K in
  let R_init := mix_iv_into_state (registers km) IV in
  (length R_init = 7%nat /\ Forall is_register R_init)
  /\ (forall n, length (counter_state R_init n) = 7%nat
                /\ Forall is_register (counter_state R_init n))
  /\ (forall P n R, Forall is_byte P -> Forall is_register R ->
        let R' := snd (encrypt_block P K IV n R (selectors km) (sboxes km) (roundKeys km)) in
        length R' = length R /\ Forall is_register R')
  /\ (forall C n R, Forall is_byte C -> (length C <= 32)%nat -> Forall is_register R ->
        let R' := snd (decrypt_block C K IV n R (selectors km) (sboxes km) (roundKeys km)) in
        length R' = length R /\ Forall is_register R').
Proof.
  cbv zeta.
  pose proof (mix_iv_into_state_shape (registers (key_expand K)) IV (registers_width K))
    as [L0 H0].
  assert (L7 : length (registers (key_expand K)) = 7%nat).
  { unfold key_expand. cbn [registers]. unfold generate_registers.
    rewrite length_map, Zrange_length. reflexivity. }
  split; [split; [lia|exact H0]|]. split; [|split].
  - intros n. destruct (counter_state_shape _ n H0) as [L1 H1]. split; [lia|exact H1].
  - intros P n R HP HR. unfold encrypt_block.
    destruct (block_keystream_shape K IV n R (selectors (key_expand K))
                (sboxes (key_expand K)) (roundKeys (key_expand K))
                (sboxes_bytes K) HR) as (Sh & Kb & Kl).
    destruct (block_keystream _ _ _ _ _ _ _) as [R' keystream]. cbn [fst snd] in *.
    apply (ciphertext_feedback_shape R R' (xor_block P keystream)).
    + apply Octets.xor_block_bytes; assumption.
    + rewrite xor_block_length. lia.
    + exact Sh.
  - intros C n R HC HL HR. unfold decrypt_block.
    destruct (block_keystream_shape K IV n R (selectors (key_expand K))
                (sboxes (key_expand K)) (roundKeys (key_expand K))
                (sboxes_bytes K) HR) as (Sh & Kb & Kl).
    destruct (block_keystream _ _ _ _ _ _ _) as [R' keystream]. cbn [fst snd] in *.
    apply (ciphertext_feedback_shape R R' C); assumption.
Qed.

End WithPrimitives.

End RegisterWidth.
